(** * Bipartite matching engine: scorer, optimal assignment, stable matching

    A shallow embedding of [src/models/entities.py],
    [src/algorithms/hungarian.py] and [src/algorithms/gale_shapley.py] of the
    matching project, and the properties of the design document that can be
    stated over it.

    Conventions of the embedding.
    - Python [float]s are read as exact rationals ([Q]); equalities between
      scores are stated up to [Qeq].  Rounding, NaN and infinities of the
      attribute values are outside the model; the only infinity kept is the
      [np.inf] the optimal matcher writes into its cost matrix.
    - A Python [dict] is an insertion-ordered association list with the
      update-in-place-or-append discipline of the interpreter ([Dict]).
    - A raised exception is a value of [result]; the [while] loop of the
      stable matcher is run with an explicit iteration budget.
    - Wall-clock readings ([execution_time]) are not part of the model. *)

From Stdlib Require Import QArith Qabs ZArith Lia Lqa String Ascii.
From stdpp Require Import base option list gmap strings.

Local Open Scope string_scope.
Local Open Scope list_scope.

(** ** Outcomes of a call *)

Inductive exn :=
| ValueError (msg : string)
| KeyError (key : string)
| IndexError.

Inductive result (A : Type) :=
| Ok (a : A)
| Raise (e : exn)
| OutOfFuel.
Arguments Ok {A} a.
Arguments Raise {A} e.
Arguments OutOfFuel {A}.

#[global] Instance result_ret : MRet result := λ A a, Ok a.
#[global] Instance result_bind : MBind result := λ A B k r,
  match r with
  | Ok a => k a
  | Raise e => Raise e
  | OutOfFuel => OutOfFuel
  end.

#[global] Instance result_fmap : FMap result := λ A B f r,
  match r with
  | Ok a => Ok (f a)
  | Raise e => Raise e
  | OutOfFuel => OutOfFuel
  end.

(** ** Python dictionaries *)

Module Dict.
Section defs.
Context {K V : Type} `{EqDecision K}.

Definition t := list (K * V).

(** [d.get(k)] *)
Fixpoint get (k : K) (d : list (K * V)) : option V :=
  match d with
  | [] => None
  | (k', v) :: d' => if decide (k' = k) then Some v else get k d'
  end.

(** [d[k] = v]: overwrite in place, or append a new last entry *)
Fixpoint set (k : K) (v : V) (d : list (K * V)) : list (K * V) :=
  match d with
  | [] => [(k, v)]
  | (k', v') :: d' =>
      if decide (k' = k) then (k', v) :: d' else (k', v') :: set k v d'
  end.

Definition keys (d : list (K * V)) : list K := d.*1.
Definition values (d : list (K * V)) : list V := d.*2.

(** [k in d] *)
Definition mem (k : K) (d : list (K * V)) : bool :=
  match get k d with Some _ => true | None => false end.

(** A list of pairs is a dictionary when no key occurs twice. *)
Definition wf (d : list (K * V)) : Prop := NoDup (keys d).

End defs.
End Dict.

(** ** Entity models ([src/models/entities.py]) *)

Inductive EntityType := USER | ITEM | JOB | CANDIDATE | MENTOR | MENTEE.

Definition EntityType_value (t : EntityType) : string :=
  match t with
  | USER => "user" | ITEM => "item" | JOB => "job"
  | CANDIDATE => "candidate" | MENTOR => "mentor" | MENTEE => "mentee"
  end.

(** Attribute values: [None], a number ([int], [bool] or [float]), a string,
    or a list of strings. *)
Inductive value :=
| VNone
| VNum (x : Q)
| VStr (s : string)
| VList (l : list string).

Record Entity := {
  id : string;
  entity_type : EntityType;
  attributes : list (string * value);
  preferences : list string;
  constraints : list (string * value)
}.

(** [Entity.get_attribute(key)] with its default [None] *)
Definition get_attribute (e : Entity) (key : string) : value :=
  default VNone (Dict.get key (attributes e)).

Definition has_preference (e : Entity) (entity_id : string) : bool :=
  bool_decide (entity_id ∈ preferences e).

Record Criteria := {
  weights : list (string * Q);
  required_attributes : list string;
  optional_attributes : list string;
  min_score : Q;
  max_matches : Z
}.

(** [sum(xs)] over numbers: a left fold from [0] *)
Definition Qsum (xs : list Q) : Q := fold_left Qplus xs 0%Q.

(** [Criteria.__post_init__]: the weights are divided by their sum when the
    sum is positive. *)
Definition Criteria_post_init (c : Criteria) : Criteria :=
  let total_weight := Qsum (Dict.values (weights c)) in
  if Qlt_le_dec 0 total_weight then
    {| weights := (λ kv, (kv.1, (kv.2 / total_weight)%Q)) <$> weights c;
       required_attributes := required_attributes c;
       optional_attributes := optional_attributes c;
       min_score := min_score c;
       max_matches := max_matches c |}
  else c.

(** The dataclass constructor: field assignment, then [__post_init__]. *)
Definition mkCriteria (w : list (string * Q)) (req opt : list string)
    (ms : Q) (mm : Z) : Criteria :=
  Criteria_post_init
    {| weights := w; required_attributes := req; optional_attributes := opt;
       min_score := ms; max_matches := mm |}.

(** [Criteria.calculate_weighted_score(scores)] *)
Definition calculate_weighted_score (c : Criteria) (scores : list (string * Q)) : Q :=
  fold_left
    (λ total_score '(attribute, score),
       let weight := default 0%Q (Dict.get attribute (weights c)) in
       (total_score + weight * score)%Q)
    scores 0%Q.

Record Match := {
  entity_a_id : string;
  entity_b_id : string;
  score : Q;
  details : list (string * string)
}.

Record MatchingResult := {
  matches : list Match;
  unmatched_entities : list string;
  total_score : Q
}.

Definition get_match_for_entity (r : MatchingResult) (entity_id : string) : option Match :=
  List.find (λ m, bool_decide (entity_a_id m = entity_id)
                  || bool_decide (entity_b_id m = entity_id)) (matches r).

(** ** Python primitives used by the scorers *)

(** [str.lower()], on the ASCII range *)
Definition lower_ascii (c : ascii) : ascii :=
  let n := nat_of_ascii c in
  if (65 <=? n)%nat && (n <=? 90)%nat then ascii_of_nat (n + 32) else c.

Fixpoint lower (s : string) : string :=
  match s with
  | EmptyString => EmptyString
  | String c s' => String (lower_ascii c) (lower s')
  end.

(** [needle in hay] on strings *)
Fixpoint str_in (needle hay : string) : bool :=
  String.prefix needle hay ||
  match hay with
  | EmptyString => false
  | String _ hay' => str_in needle hay'
  end.

(** [max(a, b)]: the first argument unless the second is strictly larger *)
Definition py_max (a b : Q) : Q := if Qlt_le_dec a b then b else a.

(** [a == b] on attribute values *)
Definition value_eqb (a b : value) : bool :=
  match a, b with
  | VNone, VNone => true
  | VNum x, VNum y => Qeq_bool x y
  | VStr s, VStr t => bool_decide (s = t)
  | VList l, VList m => bool_decide (l = m)
  | _, _ => false
  end.

(** truth value of an attribute value in a condition *)
Definition truthy (a : value) : bool :=
  match a with
  | VNone => false
  | VNum x => negb (Qeq_bool x 0)
  | VStr s => negb (bool_decide (s = ""))
  | VList l => negb (bool_decide (l = []))
  end.

Definition is_number (a : value) : bool :=
  match a with VNum _ => true | _ => false end.

(** [Q] reading of [len(s)] *)
Definition Qlen (s : gset string) : Q := inject_Z (Z.of_nat (size s)).

(** The required-attribute gate shared by both scorers: some required name is
    missing from one of the two attribute dictionaries. *)
Definition missing_required (entity_a entity_b : Entity) (criteria : Criteria) : bool :=
  existsb (λ req_attr, negb (Dict.mem req_attr (attributes entity_a))
                       || negb (Dict.mem req_attr (attributes entity_b)))
          (required_attributes criteria).

(** The loop [for attribute in criteria.weights.keys(): scores[attribute] = ...] *)
Definition attribute_scores (cmp : value → value → string → Q)
    (entity_a entity_b : Entity) (criteria : Criteria) : list (string * Q) :=
  fold_left
    (λ scores attribute,
       Dict.set attribute
         (cmp (get_attribute entity_a attribute) (get_attribute entity_b attribute) attribute)
         scores)
    (Dict.keys (weights criteria)) [].

(** [d[k]] and [l[i]] as expressions that may raise *)
Definition getitem {V} (k : string) (d : list (string * V)) : result V :=
  match Dict.get k d with
  | Some v => Ok v
  | None => Raise (KeyError k)
  end.

Definition list_getitem {A} (l : list A) (i : nat) : result A :=
  match l !! i with
  | Some x => Ok x
  | None => Raise IndexError
  end.

(** [l.index(x)]: position of the first occurrence *)
Fixpoint index_of (x : string) (l : list string) : option nat :=
  match l with
  | [] => None
  | y :: l' => if decide (y = x) then Some 0%nat else S <$> index_of x l'
  end.

Definition list_index (l : list string) (x : string) : result nat :=
  match index_of x l with
  | Some i => Ok i
  | None => Raise (ValueError "x is not in list")
  end.

(** [enumerate(l)] *)
Definition enumerate {A} (l : list A) : list (nat * A) := zip (seq 0 (length l)) l.

Definition is_empty {A} (l : list A) : bool :=
  match l with [] => true | _ => false end.

(** [{k: v for (k, v) in items}] *)
Definition dict_of {V} (items : list (string * V)) : list (string * V) :=
  fold_left (λ d kv, Dict.set kv.1 kv.2 d) items [].

(** ** The assignment solver of the numeric library

    [scipy.optimize.linear_sum_assignment] is not part of the repository.  The
    optimal matcher is therefore parameterised by the solver, and the solver
    is constrained by the behaviour its documentation promises on a square
    matrix whose entries are finite or [+inf]: row indices [0 .. n-1], column
    indices forming a minimum-cost perfect assignment through finite entries,
    and [ValueError] when every perfect assignment runs through an infinite
    entry. *)

Inductive cost :=
| Fin (q : Q)
| Inf.

Definition cell (cost_matrix : list (list cost)) (i j : nat) : option cost :=
  row ← cost_matrix !! i; row !! j.

Definition is_square (n : nat) (cost_matrix : list (list cost)) : Prop :=
  length cost_matrix = n ∧ Forall (λ row, length row = n) cost_matrix.

(** The finite part of the cost of sending row [i] to column [cols[i]] *)
Definition cost_of (cost_matrix : list (list cost)) (i j : nat) : Q :=
  match cell cost_matrix i j with
  | Some (Fin q) => q
  | _ => 0%Q
  end.

Definition finite_at (cost_matrix : list (list cost)) (i j : nat) : bool :=
  match cell cost_matrix i j with
  | Some (Fin _) => true
  | _ => false
  end.

Definition assignment_cost (cost_matrix : list (list cost)) (cols : list nat) : Q :=
  Qsum ((λ ij, cost_of cost_matrix ij.1 ij.2) <$> enumerate cols).

Definition assignment_finite (cost_matrix : list (list cost)) (cols : list nat) : bool :=
  forallb (λ ij, finite_at cost_matrix ij.1 ij.2) (enumerate cols).

Definition feasible (n : nat) (cost_matrix : list (list cost)) (cols : list nat) : Prop :=
  cols ≡ₚ seq 0 n ∧ assignment_finite cost_matrix cols = true.

Definition infeasible_error : exn := ValueError "cost matrix is infeasible".

Definition solver_contract
    (solver : list (list cost) → result (list nat * list nat)) : Prop :=
  ∀ n cost_matrix, is_square n cost_matrix →
    match solver cost_matrix with
    | Ok (row_ind, col_ind) =>
        row_ind = seq 0 n ∧ feasible n cost_matrix col_ind ∧
        ∀ cols, feasible n cost_matrix cols →
          (assignment_cost cost_matrix col_ind <= assignment_cost cost_matrix cols)%Q
    | Raise e => e = infeasible_error ∧ ∀ cols, ¬ feasible n cost_matrix cols
    | OutOfFuel => False
    end.

(** A reference solver meeting the contract: exhaustive search over the
    column permutations, first minimum in enumeration order. *)
Definition argmin_cost (cost_matrix : list (list cost)) (cands : list (list nat))
  : option (list nat) :=
  fold_left
    (λ best cols,
       match best with
       | None => Some cols
       | Some b =>
           if Qlt_le_dec (assignment_cost cost_matrix cols) (assignment_cost cost_matrix b)
           then Some cols else Some b
       end)
    cands None.

Definition exhaustive_assignment (cost_matrix : list (list cost))
  : result (list nat * list nat) :=
  let n := length cost_matrix in
  let cands := List.filter (assignment_finite cost_matrix) (permutations (seq 0 n)) in
  match argmin_cost cost_matrix cands with
  | Some cols => Ok (seq 0 n, cols)
  | None => Raise infeasible_error
  end.

(** ** Optimal assignment matcher ([src/algorithms/hungarian.py]) *)

Module HungarianMatcher.

Definition name : string := "Hungarian Algorithm".

Definition _compare_attribute (value_a value_b : value) (attribute : string) : Q :=
  match value_a, value_b with
  | VNone, _ | _, VNone => 0
  | VNum a, VNum b =>
      let diff := Qabs (a - b) in
      let max_diff := 100 in
      py_max 0 (1 - diff / max_diff)
  | VStr a, VStr b =>
      if bool_decide (lower a = lower b) then 1
      else if str_in (lower a) (lower b) || str_in (lower b) (lower a) then 1 # 2
      else 0
  | VList a, VList b =>
      let set_a : gset string := list_to_set (lower <$> a) in
      let set_b : gset string := list_to_set (lower <$> b) in
      if bool_decide (set_a = ∅) || bool_decide (set_b = ∅) then 0
      else
        let intersection := size (set_a ∩ set_b) in
        let union := size (set_a ∪ set_b) in
        if (0 <? union)%nat
        then inject_Z (Z.of_nat intersection) / inject_Z (Z.of_nat union)
        else 0
  | _, _ => if value_eqb value_a value_b then 1 else 0
  end%Q.

Definition _calculate_similarity (entity_a entity_b : Entity) (criteria : Criteria) : Q :=
  let scores := attribute_scores _compare_attribute entity_a entity_b criteria in
  if missing_required entity_a entity_b criteria then 0%Q
  else
    let weighted_score := calculate_weighted_score criteria scores in
    if Qlt_le_dec weighted_score (min_score criteria) then 0%Q
    else weighted_score.

Definition _calculate_cost_matrix (entities_a entities_b : list Entity)
    (criteria : Criteria) : list (list cost) :=
  (λ entity_a,
     (λ entity_b, Fin (- _calculate_similarity entity_a entity_b criteria)%Q)
       <$> entities_b) <$> entities_a.

(** The padding of a rectangular matrix: [np.hstack] with an [n x (n-m)]
    block, or [np.vstack] with an [(m-n) x m] block, of [np.inf]. *)
Definition pad (n m : nat) (cost_matrix : list (list cost)) : list (list cost) :=
  if (m <? n)%nat then (λ row, row ++ replicate (n - m) Inf) <$> cost_matrix
  else if (n <? m)%nat then cost_matrix ++ replicate (m - n) (replicate m Inf)
  else cost_matrix.

Record extraction := {
  ex_matches : list Match;
  ex_matched_a : list nat;
  ex_matched_b : list nat;
  ex_total_score : Q
}.

Definition extract_pair (entities_a entities_b : list Entity) (criteria : Criteria)
    (cost_matrix : list (list cost)) (acc : extraction) (ij : nat * nat)
  : result extraction :=
  let '(i, j) := ij in
  if (i <? length entities_a)%nat && (j <? length entities_b)%nat then
    c ← match cell cost_matrix i j with Some c => Ok c | None => Raise IndexError end;
    match c with
    | Inf => Ok acc
    | Fin q =>
        let score := (- q)%Q in
        if Qlt_le_dec 0 score then
          if Qlt_le_dec score (min_score criteria) then Ok acc
          else
            ea ← list_getitem entities_a i;
            eb ← list_getitem entities_b j;
            Ok {| ex_matches := ex_matches acc ++
                    [ {| entity_a_id := id ea; entity_b_id := id eb; score := score;
                         details := [("algorithm", name);
                                     ("entity_a_type", EntityType_value (entity_type ea));
                                     ("entity_b_type", EntityType_value (entity_type eb))] |} ];
                  ex_matched_a := i :: ex_matched_a acc;
                  ex_matched_b := j :: ex_matched_b acc;
                  ex_total_score := (ex_total_score acc + score)%Q |}
        else Ok acc
    end
  else Ok acc.

Fixpoint extract (entities_a entities_b : list Entity) (criteria : Criteria)
    (cost_matrix : list (list cost)) (pairs : list (nat * nat)) (acc : extraction)
  : result extraction :=
  match pairs with
  | [] => Ok acc
  | ij :: pairs' =>
      acc' ← extract_pair entities_a entities_b criteria cost_matrix acc ij;
      extract entities_a entities_b criteria cost_matrix pairs' acc'
  end.

Definition unmatched_of (entities : list Entity) (matched : list nat) : list string :=
  (λ ie, id ie.2) <$> List.filter (λ ie, negb (bool_decide (ie.1 ∈ matched))) (enumerate entities).

Section matcher.
Variable linear_sum_assignment : list (list cost) → result (list nat * list nat).

Definition match_ (entities_a entities_b : list Entity) (criteria : Criteria)
  : result MatchingResult :=
  if is_empty entities_a || is_empty entities_b then
    Ok {| matches := [];
          unmatched_entities := id <$> (entities_a ++ entities_b);
          total_score := 0%Q |}
  else
    let cost_matrix := _calculate_cost_matrix entities_a entities_b criteria in
    let n := length entities_a in
    let m := length entities_b in
    let cost_matrix := pad n m cost_matrix in
    '(row_indices, col_indices) ← linear_sum_assignment cost_matrix;
    acc ← extract entities_a entities_b criteria cost_matrix
             (zip row_indices col_indices)
             {| ex_matches := []; ex_matched_a := []; ex_matched_b := [];
                ex_total_score := 0%Q |};
    Ok {| matches := ex_matches acc;
          unmatched_entities :=
            unmatched_of entities_a (ex_matched_a acc) ++
            unmatched_of entities_b (ex_matched_b acc);
          total_score := ex_total_score acc |}.
End matcher.

End HungarianMatcher.

(** ** Stable matching matcher ([src/algorithms/gale_shapley.py]) *)

Module GaleShapleyMatcher.

Definition name : string := "Gale-Shapley Algorithm".

Definition compare_values (value_a value_b : value) (attribute : string) : Q :=
  if value_eqb value_a value_b then 1%Q
  else if is_number value_a && is_number value_b then
    match value_a, value_b with
    | VNum a, VNum b =>
        let diff := Qabs (a - b) in
        let max_diff := 100%Q in
        py_max 0 (1 - diff / max_diff)
    | _, _ => 0%Q
    end
  else if truthy value_a && truthy value_b then (1 # 2)%Q else 0%Q.

Definition _calculate_similarity (entity_a entity_b : Entity) (criteria : Criteria) : Q :=
  let scores := attribute_scores compare_values entity_a entity_b criteria in
  if missing_required entity_a entity_b criteria then 0%Q
  else calculate_weighted_score criteria scores.

(** [scores.sort(key=lambda x: x[1], reverse=True)]: the stable sort by
    descending score; entries of equal score keep their relative order. *)
Fixpoint insert_desc (x : string * Q) (l : list (string * Q)) : list (string * Q) :=
  match l with
  | [] => [x]
  | y :: l' => if Qlt_le_dec x.2 y.2 then y :: insert_desc x l' else x :: l
  end.

Definition sort_desc (l : list (string * Q)) : list (string * Q) :=
  foldr insert_desc [] l.

(** The preference list of [e] over the entities [others] *)
Definition ranking (e : Entity) (others : list Entity) (criteria : Criteria) : list string :=
  (sort_desc ((λ o, (id o, _calculate_similarity e o criteria)) <$> others)).*1.

Definition _build_preference_lists (entities_a entities_b : list Entity)
    (criteria : Criteria) : list (string * list string) :=
  let preferences :=
    fold_left (λ preferences entity_a,
                 Dict.set (id entity_a) (ranking entity_a entities_b criteria) preferences)
              entities_a [] in
  fold_left (λ preferences entity_b,
               Dict.set (id entity_b) (ranking entity_b entities_a criteria) preferences)
            entities_b preferences.

Record state := {
  free_proposers : list string;
  engagements : list (string * string);   (* acceptor_id -> proposer_id *)
  proposer_index : list (string * nat)
}.

(** One pass through the body of [while free_proposers], entered with
    [free_proposers = proposer_id :: rest]. *)
Definition loop_body (preferences : list (string * list string))
    (proposer_id : string) (rest : list string) (st : state) : result state :=
  proposer_prefs ← getitem proposer_id preferences;
  i ← getitem proposer_id (proposer_index st);
  if (length proposer_prefs <=? i)%nat then
    Ok {| free_proposers := rest;
          engagements := engagements st;
          proposer_index := proposer_index st |}
  else
    acceptor_id ← list_getitem proposer_prefs i;
    let proposer_index' := Dict.set proposer_id (i + 1)%nat (proposer_index st) in
    match Dict.get acceptor_id (engagements st) with
    | None =>
        Ok {| free_proposers := rest;
              engagements := Dict.set acceptor_id proposer_id (engagements st);
              proposer_index := proposer_index' |}
    | Some current_proposer =>
        acceptor_prefs ← getitem acceptor_id preferences;
        rank_new ← list_index acceptor_prefs proposer_id;
        rank_cur ← list_index acceptor_prefs current_proposer;
        if (rank_new <? rank_cur)%nat then
          Ok {| free_proposers := rest ++ [current_proposer];
                engagements := Dict.set acceptor_id proposer_id (engagements st);
                proposer_index := proposer_index' |}
        else
          Ok {| free_proposers := proposer_id :: rest;
                engagements := engagements st;
                proposer_index := proposer_index' |}
    end.

(** The loop, with a budget of [fuel] passes through its body. *)
Fixpoint main_loop (preferences : list (string * list string))
    (fuel : nat) (st : state) : result state :=
  match free_proposers st with
  | [] => Ok st
  | proposer_id :: rest =>
      match fuel with
      | O => OutOfFuel
      | S fuel' =>
          st' ← loop_body preferences proposer_id rest st;
          main_loop preferences fuel' st'
      end
  end.

Definition initial_state (entities_a : list Entity) : state :=
  {| free_proposers := id <$> entities_a;
     engagements := [];
     proposer_index := dict_of ((λ pid, (pid, 0%nat)) <$> (id <$> entities_a)) |}.

(** Number of proposals made so far: every proposal advances exactly one
    pointer of [proposer_index] by one. *)
Definition proposals (st : state) : nat := sum_list (Dict.values (proposer_index st)).

(** [{e.id: e for e in entities_a + entities_b}] *)
Definition entity_map (entities_a entities_b : list Entity) : list (string * Entity) :=
  dict_of ((λ e, (id e, e)) <$> (entities_a ++ entities_b)).

(** The engagements the loop converges to *)
Definition converge (fuel : nat) (entities_a entities_b : list Entity)
    (criteria : Criteria) : result state :=
  main_loop (_build_preference_lists entities_a entities_b criteria) fuel
            (initial_state entities_a).

(** The loop [for acceptor_id, proposer_id in engagements.items()] *)
Fixpoint build_matches (emap : list (string * Entity)) (criteria : Criteria)
    (items : list (string * string)) (acc : list Match * Q) : result (list Match * Q) :=
  match items with
  | [] => Ok acc
  | (acceptor_id, proposer_id) :: items' =>
      entity_a ← getitem proposer_id emap;
      entity_b ← getitem acceptor_id emap;
      let score := _calculate_similarity entity_a entity_b criteria in
      if Qlt_le_dec score (min_score criteria) then
        build_matches emap criteria items' acc
      else
        build_matches emap criteria items'
          (acc.1 ++ [ {| entity_a_id := proposer_id; entity_b_id := acceptor_id;
                         score := score;
                         details := [("algorithm", name); ("stable", "True")] |} ],
           (acc.2 + score)%Q)
  end.

Definition matched_ids (ms : list Match) : list string :=
  (entity_a_id <$> ms) ++ (entity_b_id <$> ms).

Definition post_process (entities_a entities_b : list Entity) (criteria : Criteria)
    (st : state) : result MatchingResult :=
  '(ms, total) ← build_matches (entity_map entities_a entities_b) criteria
                    (engagements st) ([], 0%Q);
  Ok {| matches := ms;
        unmatched_entities :=
          id <$> List.filter (λ e, negb (bool_decide (id e ∈ matched_ids ms)))
                   (entities_a ++ entities_b);
        total_score := total |}.

Definition match_ (fuel : nat) (entities_a entities_b : list Entity)
    (criteria : Criteria) : result MatchingResult :=
  if is_empty entities_a || is_empty entities_b then
    Ok {| matches := [];
          unmatched_entities := id <$> (entities_a ++ entities_b);
          total_score := 0%Q |}
  else
    st ← converge fuel entities_a entities_b criteria;
    post_process entities_a entities_b criteria st.

End GaleShapleyMatcher.


(** ** Vocabulary of the properties *)

(** Right-nested sum of [f] over a list, the form the proofs reason on. *)
Fixpoint wsum {A} (f : A → Q) (l : list A) : Q :=
  match l with
  | [] => 0%Q
  | x :: l' => (f x + wsum f l')%Q
  end.

(** The weights handed to the constructor are non-negative. *)
Definition nonneg_weights (w : list (string * Q)) : Prop :=
  Forall (λ kv, (0 <= kv.2)%Q) w.

(** An [n x m] matrix *)
Definition has_shape (n m : nat) (cost_matrix : list (list cost)) : Prop :=
  length cost_matrix = n ∧ Forall (λ row, length row = m) cost_matrix.

(** Sample data for the concrete instances *)
Definition sample_entity (i : string) (attrs : list (string * value)) : Entity :=
  {| id := i; entity_type := CANDIDATE; attributes := attrs;
     preferences := []; constraints := [] |}.

Definition three_candidates : list Entity :=
  [ sample_entity "a1" [("experience_years", VNum 10)];
    sample_entity "a2" [("experience_years", VNum 20)];
    sample_entity "a3" [("experience_years", VNum 30)] ].

Definition one_job : list Entity :=
  [ sample_entity "b1" [("experience_years", VNum 20)] ].

Definition experience_only : Criteria :=
  mkCriteria [("experience_years", 1%Q)] [] [] (1 # 2) 1.

(** ** Vocabulary of stable matching *)

Section stability_vocabulary.
Variable preferences : list (string * list string).

(** Position of [y] in the preference list of [x] *)
Definition rank (x y : string) : option nat :=
  l ← Dict.get x preferences; index_of y l.

(** [x] ranks [y] above [z] *)
Definition prefers (x y z : string) : Prop :=
  ∃ iy iz, rank x y = Some iy ∧ rank x z = Some iz ∧ (iy < iz)%nat.

(** A proposer [p] and an acceptor [a], not engaged to each other, block the
    engagements when each ranks the other above its current partner; an
    entity without a partner has no partner to rank the other against. *)
Definition blocking_pair (proposers acceptors : list string)
    (engagements : list (string * string)) (p a : string) : Prop :=
  p ∈ proposers ∧ a ∈ acceptors ∧
  Dict.get a engagements ≠ Some p ∧
  (∀ a', Dict.get a' engagements = Some p → prefers p a a') ∧
  (∀ p', Dict.get a engagements = Some p' → prefers a p p').

(** Every proposer ranks every acceptor exactly once, and conversely. *)
Record preferences_complete (proposers acceptors : list string) : Prop := {
  pc_nodup_proposers : NoDup proposers;
  pc_nodup_acceptors : NoDup acceptors;
  pc_proposer : ∀ p, p ∈ proposers →
    ∃ l, Dict.get p preferences = Some l ∧ l ≡ₚ acceptors;
  pc_acceptor : ∀ a, a ∈ acceptors →
    ∃ l, Dict.get a preferences = Some l ∧ l ≡ₚ proposers
}.

(** The invariant of the deferred-acceptance loop *)
Record loop_invariant (proposers acceptors : list string)
    (st : GaleShapleyMatcher.state) : Prop := {
  inv_free_nodup : NoDup (GaleShapleyMatcher.free_proposers st);
  inv_free_in : ∀ p, p ∈ GaleShapleyMatcher.free_proposers st → p ∈ proposers;
  inv_engaged : ∀ a p, Dict.get a (GaleShapleyMatcher.engagements st) = Some p →
    a ∈ acceptors ∧ p ∈ proposers ∧ p ∉ GaleShapleyMatcher.free_proposers st;
  inv_injective : ∀ a a' p,
    Dict.get a (GaleShapleyMatcher.engagements st) = Some p →
    Dict.get a' (GaleShapleyMatcher.engagements st) = Some p → a = a';
  inv_engagements_wf : Dict.wf (GaleShapleyMatcher.engagements st);
  inv_index_keys : Dict.keys (GaleShapleyMatcher.proposer_index st) = proposers;
  inv_index_le : ∀ p i, Dict.get p (GaleShapleyMatcher.proposer_index st) = Some i →
    (i ≤ length acceptors)%nat;
  inv_proposed : ∀ p l i k a,
    Dict.get p preferences = Some l →
    Dict.get p (GaleShapleyMatcher.proposer_index st) = Some i →
    (k < i)%nat → l !! k = Some a →
    ∃ q, Dict.get a (GaleShapleyMatcher.engagements st) = Some q ∧
         (q = p ∨ prefers a q p);
  inv_last : ∀ a p, Dict.get a (GaleShapleyMatcher.engagements st) = Some p →
    ∃ l i, Dict.get p preferences = Some l ∧
           Dict.get p (GaleShapleyMatcher.proposer_index st) = Some (S i) ∧
           l !! i = Some a;
  inv_status : ∀ p, p ∈ proposers →
    p ∈ GaleShapleyMatcher.free_proposers st ∨
    (∃ a, Dict.get a (GaleShapleyMatcher.engagements st) = Some p) ∨
    (∃ i, Dict.get p (GaleShapleyMatcher.proposer_index st) = Some i ∧
          (length acceptors ≤ i)%nat)
}.
(** The four outcomes of one pass through the loop body: the proposer is
    exhausted, engages a free acceptor, replaces the current partner, or is
    turned down. *)
Inductive pass_outcome (acceptors : list string) (p : string) (rest : list string)
    (st st' : GaleShapleyMatcher.state) : Prop :=
| pass_exhausted l i :
    Dict.get p preferences = Some l → Dict.get p (GaleShapleyMatcher.proposer_index st) = Some i →
    (length acceptors ≤ i)%nat →
    st' = {| GaleShapleyMatcher.free_proposers := rest; GaleShapleyMatcher.engagements := GaleShapleyMatcher.engagements st;
             GaleShapleyMatcher.proposer_index := GaleShapleyMatcher.proposer_index st |} →
    pass_outcome acceptors p rest st st'
| pass_engage l i a :
    Dict.get p preferences = Some l → Dict.get p (GaleShapleyMatcher.proposer_index st) = Some i →
    (i < length acceptors)%nat → l !! i = Some a → a ∈ acceptors →
    Dict.get a (GaleShapleyMatcher.engagements st) = None →
    st' = {| GaleShapleyMatcher.free_proposers := rest;
             GaleShapleyMatcher.engagements := Dict.set a p (GaleShapleyMatcher.engagements st);
             GaleShapleyMatcher.proposer_index := Dict.set p (i + 1)%nat (GaleShapleyMatcher.proposer_index st) |} →
    pass_outcome acceptors p rest st st'
| pass_swap l i a cur :
    Dict.get p preferences = Some l → Dict.get p (GaleShapleyMatcher.proposer_index st) = Some i →
    (i < length acceptors)%nat → l !! i = Some a → a ∈ acceptors →
    Dict.get a (GaleShapleyMatcher.engagements st) = Some cur → prefers a p cur →
    st' = {| GaleShapleyMatcher.free_proposers := rest ++ [cur];
             GaleShapleyMatcher.engagements := Dict.set a p (GaleShapleyMatcher.engagements st);
             GaleShapleyMatcher.proposer_index := Dict.set p (i + 1)%nat (GaleShapleyMatcher.proposer_index st) |} →
    pass_outcome acceptors p rest st st'
| pass_reject l i a cur :
    Dict.get p preferences = Some l → Dict.get p (GaleShapleyMatcher.proposer_index st) = Some i →
    (i < length acceptors)%nat → l !! i = Some a → a ∈ acceptors →
    Dict.get a (GaleShapleyMatcher.engagements st) = Some cur → prefers a cur p →
    st' = {| GaleShapleyMatcher.free_proposers := p :: rest;
             GaleShapleyMatcher.engagements := GaleShapleyMatcher.engagements st;
             GaleShapleyMatcher.proposer_index := Dict.set p (i + 1)%nat (GaleShapleyMatcher.proposer_index st) |} →
    pass_outcome acceptors p rest st st'.

End stability_vocabulary.

(** Proposals still possible, plus the proposers still queued: the variant of
    the loop. *)
Definition remaining (m : nat) (proposers : list string)
    (index : list (string * nat)) : nat :=
  sum_list ((λ p, m - default 0 (Dict.get p index))%nat <$> proposers).

Definition variant (proposers acceptors : list string)
    (st : GaleShapleyMatcher.state) : nat :=
  (remaining (length acceptors) proposers (GaleShapleyMatcher.proposer_index st)
   + length (GaleShapleyMatcher.free_proposers st))%nat.


(** The [Match] the stable matcher appends for an engaged pair it keeps *)
Definition stable_match (proposer_id acceptor_id : string) (score : Q) : Match :=
  {| entity_a_id := proposer_id; entity_b_id := acceptor_id; score := score;
     details := [("algorithm", GaleShapleyMatcher.name); ("stable", "True")] |}.

(** ** Vocabulary of optimal assignment *)

(** Score the optimal matcher assigns to the pair of positions [(i, j)] *)
Definition pair_score (entities_a entities_b : list Entity) (criteria : Criteria)
    (i j : nat) : Q :=
  match entities_a !! i, entities_b !! j with
  | Some ea, Some eb => HungarianMatcher._calculate_similarity ea eb criteria
  | _, _ => 0%Q
  end.

(** Total score of a set of position pairs *)
Definition assignment_score (entities_a entities_b : list Entity) (criteria : Criteria)
    (pairs : list (nat * nat)) : Q :=
  wsum (λ ij, pair_score entities_a entities_b criteria ij.1 ij.2) pairs.

(** A feasible alternative: a one-to-one set of position pairs, each with a
    score of at least [min_score]. *)
Record feasible_assignment (entities_a entities_b : list Entity) (criteria : Criteria)
    (pairs : list (nat * nat)) : Prop := {
  fa_rows : NoDup pairs.*1;
  fa_cols : NoDup pairs.*2;
  fa_range : ∀ i j, (i, j) ∈ pairs →
    (i < length entities_a)%nat ∧ (j < length entities_b)%nat;
  fa_threshold : ∀ i j, (i, j) ∈ pairs →
    (min_score criteria <= pair_score entities_a entities_b criteria i j)%Q
}.

(** The pairs of identifiers a result reports *)
Definition matching_pairs (r : MatchingResult) : list (string * string) :=
  (λ m, (entity_a_id m, entity_b_id m)) <$> matches r.

(** The [Match] the optimal matcher appends for a pair it keeps *)
Definition optimal_match (ea eb : Entity) (score : Q) : Match :=
  {| entity_a_id := id ea; entity_b_id := id eb; score := score;
     details := [("algorithm", HungarianMatcher.name);
                 ("entity_a_type", EntityType_value (entity_type ea));
                 ("entity_b_type", EntityType_value (entity_type eb))] |}.

(** The pair of positions [(i, j)] passes the test
    [score > 0 and score >= criteria.min_score]. *)
Definition kept (entities_a entities_b : list Entity) (criteria : Criteria)
    (ij : nat * nat) : bool :=
  match Qlt_le_dec 0 (pair_score entities_a entities_b criteria ij.1 ij.2) with
  | left _ => true
  | right _ => false
  end.

(** Identifiers at a pair of positions *)
Definition pair_ids (entities_a entities_b : list Entity) (ij : nat * nat)
  : string * string :=
  (default "" (id <$> entities_a !! ij.1), default "" (id <$> entities_b !! ij.2)).

(** The score matrix of [score] over two lists is diagonally dominant: the
    lists are equally long and every diagonal entry is strictly larger than
    every other entry of its row and of its column (each entity's top choice
    is its counterpart at the same position, mutually and strictly). *)
Definition diagonally_dominant (score : Entity → Entity → Q)
    (entities_a entities_b : list Entity) : Prop :=
  length entities_a = length entities_b ∧
  ∀ i j ea eb ea' eb', i ≠ j →
    entities_a !! i = Some ea → entities_b !! i = Some eb →
    entities_a !! j = Some ea' → entities_b !! j = Some eb' →
    (score ea eb' < score ea eb)%Q ∧ (score ea' eb < score ea eb)%Q.

(** An instance on which the two scorers disagree: a text attribute that
    differs in letter case only. *)
Definition case_candidates : list Entity :=
  [ sample_entity "a1" [("language", VStr "Python"); ("level", VNum 10)];
    sample_entity "a2" [("language", VStr "java"); ("level", VNum 90)] ].

Definition case_jobs : list Entity :=
  [ sample_entity "b1" [("language", VStr "python"); ("level", VNum 10)];
    sample_entity "b2" [("language", VStr "java"); ("level", VNum 90)] ].

Definition case_criteria : Criteria :=
  mkCriteria [("language", 1%Q); ("level", 1%Q)] [] [] (8 # 10) 1.

Definition two_candidates : list Entity :=
  [ sample_entity "a1" [("experience_years", VNum 10)];
    sample_entity "a2" [("experience_years", VNum 20)] ].

(** The same instance under a threshold both scorers' diagonals reach *)
Definition case_criteria_low : Criteria :=
  mkCriteria [("language", 1%Q); ("level", 1%Q)] [] [] (1 # 2) 1.

From Stdlib Require Import Sorted.
From Stdlib Require PrimFloat Uint63.

Local Set Warnings "-inexact-float".


(** ** Vocabulary of the further properties *)

(** A [Match] the optimal matcher may report: two entities of the input
    lists, with the scorer's value for them, which is positive and at least
    the threshold. *)
Definition valid_optimal_match (entities_a entities_b : list Entity)
    (criteria : Criteria) (m : Match) : Prop :=
  ∃ i j ea eb,
    entities_a !! i = Some ea ∧ entities_b !! j = Some eb ∧
    m = optimal_match ea eb (HungarianMatcher._calculate_similarity ea eb criteria) ∧
    (0 < HungarianMatcher._calculate_similarity ea eb criteria)%Q ∧
    (min_score criteria <= HungarianMatcher._calculate_similarity ea eb criteria)%Q.

(** [sum(m.score for m in matches)] *)
Definition score_sum (ms : list Match) : Q := wsum score ms.

(** [MatchingResult.get_statistics()], without the clock reading *)
Record Statistics := {
  total_matches : nat;
  unmatched_count : nat;
  average_score : Q;
  stat_total_score : Q
}.

Definition get_statistics (r : MatchingResult) : Statistics :=
  {| total_matches := length (matches r);
     unmatched_count := length (unmatched_entities r);
     average_score :=
       if is_empty (matches r) then 0%Q
       else (Qsum (score <$> matches r) / inject_Z (Z.of_nat (length (matches r))))%Q;
     stat_total_score := total_score r |}.

(** A [Match] the stable matcher may report: an entity of the first list
    (the proposer) with one of the second, carrying the stable matcher's
    score for the two, which is at least the threshold. *)
Definition valid_stable_match (entities_a entities_b : list Entity)
    (criteria : Criteria) (m : Match) : Prop :=
  ∃ ea eb,
    ea ∈ entities_a ∧ eb ∈ entities_b ∧
    m = stable_match (id ea) (id eb)
          (GaleShapleyMatcher._calculate_similarity ea eb criteria) ∧
    (min_score criteria <= GaleShapleyMatcher._calculate_similarity ea eb criteria)%Q.

(** The data of [example_usage.py] *)
Definition example_entity (i : string) (t : EntityType)
    (attrs : list (string * value)) (prefs : list string) : Entity :=
  {| id := i; entity_type := t; attributes := attrs;
     preferences := prefs; constraints := [] |}.

Definition example_candidates : list Entity :=
  [ example_entity "candidate_1" CANDIDATE
      [("experience_years", VNum 5);
       ("skills", VList ["Python"; "Machine Learning"; "Data Science"]);
       ("education", VStr "Master's");
       ("location", VStr "San Francisco")]
      ["job_1"; "job_2"; "job_3"];
    example_entity "candidate_2" CANDIDATE
      [("experience_years", VNum 3);
       ("skills", VList ["Java"; "Spring"; "Microservices"]);
       ("education", VStr "Bachelor's");
       ("location", VStr "New York")]
      ["job_2"; "job_1"; "job_3"];
    example_entity "candidate_3" CANDIDATE
      [("experience_years", VNum 7);
       ("skills", VList ["Python"; "Django"; "PostgreSQL"]);
       ("education", VStr "Master's");
       ("location", VStr "Remote")]
      ["job_1"; "job_3"; "job_2"] ].

Definition example_jobs : list Entity :=
  [ example_entity "job_1" JOB
      [("required_skills", VList ["Python"; "Machine Learning"]);
       ("min_experience", VNum 3);
       ("education_level", VStr "Bachelor's");
       ("location", VStr "San Francisco")]
      ["candidate_1"; "candidate_3"; "candidate_2"];
    example_entity "job_2" JOB
      [("required_skills", VList ["Java"; "Spring"]);
       ("min_experience", VNum 2);
       ("education_level", VStr "Bachelor's");
       ("location", VStr "New York")]
      ["candidate_2"; "candidate_1"; "candidate_3"];
    example_entity "job_3" JOB
      [("required_skills", VList ["Python"; "Django"]);
       ("min_experience", VNum 5);
       ("education_level", VStr "Master's");
       ("location", VStr "Remote")]
      ["candidate_3"; "candidate_1"; "candidate_2"] ].

Definition example_criteria : Criteria :=
  mkCriteria [("experience_years", (3 # 10)%Q); ("skills", (4 # 10)%Q);
              ("education", (2 # 10)%Q); ("location", (1 # 10)%Q)]
             ["experience_years"; "skills"] ["education"; "location"] (1 # 2) 1.

(** Every pair of the two lists fails the required-attribute gate. *)
Definition all_pairs_gated (entities_a entities_b : list Entity)
    (criteria : Criteria) : Prop :=
  Forall (λ ea, Forall (λ eb, missing_required ea eb criteria = true) entities_b)
         entities_a.

(** ** The matching service ([src/api/main.py])

    The handler [match_entities] is modelled on a request that has passed
    the framework's validation, so every field has its declared type.  The
    text [str(e)] of an exception and the [repr] of a string are left to the
    interpreter: they are parameters of the model, as are the assignment
    solver and the iteration budget of the stable matcher. *)

(** [Entity(...)]: field assignment, then [__post_init__], which replaces an
    absent [preferences] or [constraints] by the empty container. *)
Definition mkEntity (i : string) (t : EntityType) (attrs : list (string * value))
    (prefs : option (list string)) (cons : option (list (string * value))) : Entity :=
  {| id := i; entity_type := t; attributes := attrs;
     preferences := default [] prefs; constraints := default [] cons |}.

Module EntityRequest.
Record t := {
  id : string;
  entity_type : string;
  attributes : list (string * value);
  preferences : option (list string);
  constraints : option (list (string * value))
}.
End EntityRequest.

Module CriteriaRequest.
Record t := {
  weights : list (string * Q);
  required_attributes : list string;
  optional_attributes : list string;
  min_score : Q;
  max_matches : Z
}.
End CriteriaRequest.

Module MatchingRequest.
Record t := {
  entities_a : list EntityRequest.t;
  entities_b : list EntityRequest.t;
  criteria : CriteriaRequest.t;
  algorithm : string
}.
End MatchingRequest.

Module MatchResponse.
Record t := {
  entity_a_id : string;
  entity_b_id : string;
  score : Q;
  details : list (string * string)
}.
End MatchResponse.

Module MatchingResponse.
Record t := {
  matches : list MatchResponse.t;
  unmatched_entities : list string;
  total_score : Q;
  statistics : Statistics
}.
End MatchingResponse.

(** What the handler can raise: an exception of the matching code, or the
    framework's [HTTPException]; both are subclasses of [Exception]. *)
Inductive exception :=
| Builtin (e : exn)
| HTTPException (status_code : Z) (detail : string).

Inductive outcome (A : Type) :=
| Return (a : A)
| Throw (e : exception)
| Unfinished.
Arguments Return {A} a.
Arguments Throw {A} e.
Arguments Unfinished {A}.

#[global] Instance outcome_bind : MBind outcome := λ A B k r,
  match r with
  | Return a => k a
  | Throw e => Throw e
  | Unfinished => Unfinished
  end.

Definition lift {A} (r : result A) : outcome A :=
  match r with
  | Ok a => Return a
  | Raise e => Throw (Builtin e)
  | OutOfFuel => Unfinished
  end.

(** The matcher object the handler selects *)
Inductive matcher := UseHungarianMatcher | UseGaleShapleyMatcher.

Section service.
Variable linear_sum_assignment : list (list cost) → result (list nat * list nat).
Variable fuel : nat.
Variable repr : string → string.
Variable str : exception → string.

(** [EntityType(value)]: the member with that value, or a [ValueError] *)
Definition EntityType_of_value (v : string) : result EntityType :=
  match List.find (λ t, bool_decide (EntityType_value t = v))
                  [USER; ITEM; JOB; CANDIDATE; MENTOR; MENTEE] with
  | Some t => Ok t
  | None => Raise (ValueError (repr v +:+ " is not a valid EntityType"))
  end.

Definition entity_of_request (e : EntityRequest.t) : result Entity :=
  entity_type ← EntityType_of_value (EntityRequest.entity_type e);
  Ok (mkEntity (EntityRequest.id e) entity_type (EntityRequest.attributes e)
               (EntityRequest.preferences e) (EntityRequest.constraints e)).

(** [[Entity(...) for e in requests]] *)
Fixpoint entities_of_requests (requests : list EntityRequest.t) : result (list Entity) :=
  match requests with
  | [] => Ok []
  | e :: requests' =>
      entity ← entity_of_request e;
      entities ← entities_of_requests requests';
      Ok (entity :: entities)
  end.

Definition criteria_of_request (c : CriteriaRequest.t) : Criteria :=
  mkCriteria (CriteriaRequest.weights c) (CriteriaRequest.required_attributes c)
             (CriteriaRequest.optional_attributes c) (CriteriaRequest.min_score c)
             (CriteriaRequest.max_matches c).

Definition select_matcher (algorithm : string) : outcome matcher :=
  if bool_decide (lower algorithm = "hungarian") then Return UseHungarianMatcher
  else if bool_decide (lower algorithm = "gale_shapley") then Return UseGaleShapleyMatcher
  else Throw (HTTPException 400 ("Unknown algorithm: " +:+ algorithm)).

Definition run_matcher (m : matcher) (entities_a entities_b : list Entity)
    (criteria : Criteria) : result MatchingResult :=
  match m with
  | UseHungarianMatcher =>
      HungarianMatcher.match_ linear_sum_assignment entities_a entities_b criteria
  | UseGaleShapleyMatcher =>
      GaleShapleyMatcher.match_ fuel entities_a entities_b criteria
  end.

Definition match_response (m : Match) : MatchResponse.t :=
  {| MatchResponse.entity_a_id := entity_a_id m;
     MatchResponse.entity_b_id := entity_b_id m;
     MatchResponse.score := score m;
     MatchResponse.details := details m |}.

Definition matching_response (r : MatchingResult) : MatchingResponse.t :=
  {| MatchingResponse.matches := match_response <$> matches r;
     MatchingResponse.unmatched_entities := unmatched_entities r;
     MatchingResponse.total_score := total_score r;
     MatchingResponse.statistics := get_statistics r |}.

(** The body of the [try] block *)
Definition match_entities_try (request : MatchingRequest.t) : outcome MatchingResponse.t :=
  entities_a ← lift (entities_of_requests (MatchingRequest.entities_a request));
  entities_b ← lift (entities_of_requests (MatchingRequest.entities_b request));
  let criteria := criteria_of_request (MatchingRequest.criteria request) in
  matcher ← select_matcher (MatchingRequest.algorithm request);
  result ← lift (run_matcher matcher entities_a entities_b criteria);
  Return (matching_response result).

(** The handler: [except Exception as e: raise HTTPException(500, str(e))]
    around the body. *)
Definition match_entities (request : MatchingRequest.t) : outcome MatchingResponse.t :=
  match match_entities_try request with
  | Return response => Return response
  | Throw e => Throw (HTTPException 500 (str e))
  | Unfinished => Unfinished
  end.

End service.

(** The request [request] with another algorithm name *)
Definition with_algorithm (request : MatchingRequest.t) (algorithm : string)
  : MatchingRequest.t :=
  {| MatchingRequest.entities_a := MatchingRequest.entities_a request;
     MatchingRequest.entities_b := MatchingRequest.entities_b request;
     MatchingRequest.criteria := MatchingRequest.criteria request;
     MatchingRequest.algorithm := algorithm |}.

(** Requests built from the sample entities *)
Definition request_of_entity (e : Entity) : EntityRequest.t :=
  {| EntityRequest.id := id e;
     EntityRequest.entity_type := EntityType_value (entity_type e);
     EntityRequest.attributes := attributes e;
     EntityRequest.preferences := Some (preferences e);
     EntityRequest.constraints := Some (constraints e) |}.

Definition sample_request (entities_a entities_b : list Entity) (algorithm : string)
  : MatchingRequest.t :=
  {| MatchingRequest.entities_a := request_of_entity <$> entities_a;
     MatchingRequest.entities_b := request_of_entity <$> entities_b;
     MatchingRequest.criteria :=
       {| CriteriaRequest.weights := [("experience_years", 1%Q)];
          CriteriaRequest.required_attributes := [];
          CriteriaRequest.optional_attributes := [];
          CriteriaRequest.min_score := (1 # 2)%Q;
          CriteriaRequest.max_matches := 1 |};
     MatchingRequest.algorithm := algorithm |}.

(** Every [entity_type] of the requests is the value of a member of
    [EntityType]. *)
Definition valid_entity_types (requests : list EntityRequest.t) : Prop :=
  Forall (λ e, ∃ t, EntityType_value t = EntityRequest.entity_type e) requests.


(** ** The binary64 reading of the scorer

    The definitions so far read a Python [float] as an exact rational.  This
    module reads it as the interpreter does, as an IEEE 754 binary64 number
    with round-to-nearest arithmetic, for the functions whose result depends
    on rounding or overflow: the weight normalisation, the weighted
    aggregate, the per-attribute comparisons and the two scorers.  A numeric
    attribute is a [float] here; a Python [int] below [2^53] in magnitude
    computes to the same results.  The names are those of the exact reading,
    inside [Binary64]. *)

Module Binary64.
Import PrimFloat.

Inductive value :=
| VNone
| VNum (x : float)
| VStr (s : string)
| VList (l : list string).

Record Entity := {
  id : string;
  attributes : list (string * value)
}.

Record Criteria := {
  weights : list (string * float);
  required_attributes : list string;
  min_score : float
}.

Definition get_attribute (e : Entity) (key : string) : value :=
  default VNone (Dict.get key (attributes e)).

(** [sum(xs)]: a left fold from [0] *)
Definition fsum (xs : list float) : float := fold_left PrimFloat.add xs 0%float.

(** [Criteria.__post_init__] *)
Definition Criteria_post_init (c : Criteria) : Criteria :=
  let total_weight := fsum (Dict.values (weights c)) in
  if PrimFloat.ltb 0 total_weight then
    {| weights := (λ kv, (kv.1, (kv.2 / total_weight)%float)) <$> weights c;
       required_attributes := required_attributes c;
       min_score := min_score c |}
  else c.

Definition mkCriteria (w : list (string * float)) (req : list string) (ms : float)
  : Criteria :=
  Criteria_post_init {| weights := w; required_attributes := req; min_score := ms |}.

(** [Criteria.calculate_weighted_score(scores)] *)
Definition calculate_weighted_score (c : Criteria) (scores : list (string * float))
  : float :=
  fold_left
    (λ total_score '(attribute, score),
       let weight := default 0%float (Dict.get attribute (weights c)) in
       (total_score + weight * score)%float)
    scores 0%float.

(** [max(a, b)]: the first argument unless the second is strictly larger *)
Definition py_max (a b : float) : float := if PrimFloat.ltb a b then b else a.

(** [a == b] on attribute values *)
Definition value_eqb (a b : value) : bool :=
  match a, b with
  | VNone, VNone => true
  | VNum x, VNum y => PrimFloat.eqb x y
  | VStr s, VStr t => bool_decide (s = t)
  | VList l, VList m => bool_decide (l = m)
  | _, _ => false
  end.

(** truth value of an attribute value in a condition *)
Definition truthy (a : value) : bool :=
  match a with
  | VNone => false
  | VNum x => negb (PrimFloat.eqb x 0)
  | VStr s => negb (bool_decide (s = ""))
  | VList l => negb (bool_decide (l = []))
  end.

Definition is_number (a : value) : bool :=
  match a with VNum _ => true | _ => false end.

(** [len(s)] as the operand of a true division *)
Definition flen (n : nat) : float := of_uint63 (Uint63.of_Z (Z.of_nat n)).

Definition missing_required (entity_a entity_b : Entity) (criteria : Criteria) : bool :=
  existsb (λ req_attr, negb (Dict.mem req_attr (attributes entity_a))
                       || negb (Dict.mem req_attr (attributes entity_b)))
          (required_attributes criteria).

Definition attribute_scores (cmp : value → value → string → float)
    (entity_a entity_b : Entity) (criteria : Criteria) : list (string * float) :=
  fold_left
    (λ scores attribute,
       Dict.set attribute
         (cmp (get_attribute entity_a attribute) (get_attribute entity_b attribute) attribute)
         scores)
    (Dict.keys (weights criteria)) [].

Module HungarianMatcher.

Definition _compare_attribute (value_a value_b : value) (attribute : string) : float :=
  match value_a, value_b with
  | VNone, _ | _, VNone => 0
  | VNum a, VNum b =>
      let diff := PrimFloat.abs (a - b) in
      let max_diff := 100 in
      py_max 0 (1 - diff / max_diff)
  | VStr a, VStr b =>
      if bool_decide (lower a = lower b) then 1
      else if str_in (lower a) (lower b) || str_in (lower b) (lower a) then 0.5
      else 0
  | VList a, VList b =>
      let set_a : gset string := list_to_set (lower <$> a) in
      let set_b : gset string := list_to_set (lower <$> b) in
      if bool_decide (set_a = ∅) || bool_decide (set_b = ∅) then 0
      else
        let intersection := size (set_a ∩ set_b) in
        let union := size (set_a ∪ set_b) in
        if (0 <? union)%nat then flen intersection / flen union else 0
  | _, _ => if value_eqb value_a value_b then 1 else 0
  end%float.

Definition _calculate_similarity (entity_a entity_b : Entity) (criteria : Criteria)
  : float :=
  let scores := attribute_scores _compare_attribute entity_a entity_b criteria in
  if missing_required entity_a entity_b criteria then 0%float
  else
    let weighted_score := calculate_weighted_score criteria scores in
    if PrimFloat.ltb weighted_score (min_score criteria) then 0%float
    else weighted_score.

End HungarianMatcher.

Module GaleShapleyMatcher.

Definition compare_values (value_a value_b : value) (attribute : string) : float :=
  if value_eqb value_a value_b then 1%float
  else if is_number value_a && is_number value_b then
    match value_a, value_b with
    | VNum a, VNum b =>
        let diff := PrimFloat.abs (a - b) in
        let max_diff := 100%float in
        py_max 0 (1 - diff / max_diff)%float
    | _, _ => 0%float
    end
  else if truthy value_a && truthy value_b then 0.5%float else 0%float.

Definition _calculate_similarity (entity_a entity_b : Entity) (criteria : Criteria)
  : float :=
  let scores := attribute_scores compare_values entity_a entity_b criteria in
  if missing_required entity_a entity_b criteria then 0%float
  else calculate_weighted_score criteria scores.

End GaleShapleyMatcher.

(** The weights and the first candidate of [example_usage.py] *)
Definition example_weights : list (string * float) :=
  [("experience_years", 0.3%float); ("skills", 0.4%float);
   ("education", 0.2%float); ("location", 0.1%float)].

Definition example_criteria : Criteria :=
  mkCriteria example_weights ["experience_years"; "skills"] 0.5%float.

Definition candidate_1 : Entity :=
  {| id := "candidate_1";
     attributes :=
       [("experience_years", VNum 5%float);
        ("skills", VList ["Python"; "Machine Learning"; "Data Science"]);
        ("education", VStr "Master's");
        ("location", VStr "San Francisco")] |}.

(** Two finite, non-negative weights whose binary64 sum overflows *)
Definition huge_weights : list (string * float) :=
  [("a", 1e308%float); ("b", 1e308%float)].

End Binary64.

(** ** The range in which the exact reading follows the interpreter

    A numeric attribute within [double_range] in magnitude is finite, and
    the difference of two such numbers still converts to a binary64 number,
    so the comparisons raise no [OverflowError]. *)
Definition double_range : Q := inject_Z (2 ^ 1022).

Definition finite_number (v : value) : Prop :=
  match v with
  | VNum x => (Qabs x <= double_range)%Q
  | _ => True
  end.

Definition in_double_range (e : Entity) : Prop :=
  Forall (λ kv, finite_number kv.2) (attributes e).

(** The numeric attributes of every entity of a request are in that range. *)
Definition request_in_double_range (request : MatchingRequest.t) : Prop :=
  Forall (λ e, Forall (λ kv, finite_number kv.2) (EntityRequest.attributes e))
    (MatchingRequest.entities_a request ++ MatchingRequest.entities_b request).

(** ** Identifiers shared between the two sides

    The stable matcher keys its preference lists, its engagements and its
    entity lookup by bare identifier, for both sides at once.  The
    definitions below state what happens to an instance whose a-side and
    b-side share an identifier (each side's identifiers being distinct). *)



Definition valued (i : string) (v : Q) : Entity := sample_entity i [("v", VNum v)].

(** Scoring on the one attribute ["v"], with threshold [ms] *)
Definition value_only (ms : Q) : Criteria := mkCriteria [("v", 1%Q)] [] [] ms 1.

(** The identifier ["x"] on both sides *)
Definition shared_x_a : list Entity := [valued "x" 50; valued "y" 0].
Definition shared_x_b : list Entity := [valued "x" 0; valued "w" 50].


(** ** The loop when the two sides share identifiers

    With identifiers that are distinct within each side only, an identifier
    of the b-side that is also on the a-side takes the b-side's preference
    list (the later write), and the loop runs on that dictionary.  The
    definitions below describe the dictionary and the loop's invariant in
    that general case. *)

Section shared_vocabulary.
Variable preferences : list (string * list string).

(** The preference list of [p], the pointer of [p] into it, and the
    identifiers [p] has proposed to so far *)
Definition plist (p : string) : list string := default [] (Dict.get p preferences).

Definition pointer (st : GaleShapleyMatcher.state) (p : string) : nat :=
  default 0%nat (Dict.get p (GaleShapleyMatcher.proposer_index st)).

Definition targets (st : GaleShapleyMatcher.state) (p : string) : list string :=
  take (pointer st p) (plist p).

(** Every b-side identifier ranks the a-side identifiers, and every a-side
    identifier that is not on the b-side ranks the b-side identifiers. *)
Record preferences_shared (proposers acceptors : list string) : Prop := {
  ps_nodup_proposers : NoDup proposers;
  ps_nodup_acceptors : NoDup acceptors;
  ps_acceptor : ∀ a, a ∈ acceptors →
    ∃ l, Dict.get a preferences = Some l ∧ l ≡ₚ proposers;
  ps_proposer : ∀ p, p ∈ proposers → p ∉ acceptors →
    ∃ l, Dict.get p preferences = Some l ∧ l ≡ₚ acceptors
}.

(** The invariant of the loop in the general case.  Its last field is what
    the shared identifiers add: two identifiers that have proposed to each
    other hold each other. *)
Record shared_invariant (proposers : list string)
    (st : GaleShapleyMatcher.state) : Prop := {
  sh_free_nodup : NoDup (GaleShapleyMatcher.free_proposers st);
  sh_free_in : ∀ p, p ∈ GaleShapleyMatcher.free_proposers st → p ∈ proposers;
  sh_engagements_wf : Dict.wf (GaleShapleyMatcher.engagements st);
  sh_index_keys : Dict.keys (GaleShapleyMatcher.proposer_index st) = proposers;
  sh_index_le : ∀ p, (pointer st p ≤ length (plist p))%nat;
  sh_engaged : ∀ a p, Dict.get a (GaleShapleyMatcher.engagements st) = Some p →
    p ∈ proposers ∧ (p ∉ GaleShapleyMatcher.free_proposers st) ∧
    (∃ i, pointer st p = S i ∧ plist p !! i = Some a);
  sh_proposed : ∀ p a, a ∈ targets st p →
    ∃ q, Dict.get a (GaleShapleyMatcher.engagements st) = Some q ∧
         (q = p ∨ prefers preferences a q p);
  sh_mutual : ∀ x y, y ∈ targets st x → x ∈ targets st y →
    Dict.get y (GaleShapleyMatcher.engagements st) = Some x ∧
    Dict.get x (GaleShapleyMatcher.engagements st) = Some y
}.

(** What is left to do: proposals not yet made, proposers still to be
    served, and engagements made. *)
Definition shared_variant (proposers acceptors : list string)
    (st : GaleShapleyMatcher.state) : nat :=
  (length proposers * length acceptors - GaleShapleyMatcher.proposals st
   + length (GaleShapleyMatcher.free_proposers st)
   + length (GaleShapleyMatcher.engagements st))%nat.

End shared_vocabulary.

(** * Properties *)

(** ** Facts about dictionaries *)

Module DictFacts.
Import Dict.
Section facts.
Context {K V : Type} `{EqDecision K}.
Implicit Types (k : K) (v : V) (d : list (K * V)).

Lemma get_set_eq k v d : get k (set k v d) = Some v.
Proof.
  induction d as [|[k' v'] d IH]; simpl.
  - by rewrite decide_True.
  - destruct (decide (k' = k)) as [->|Hne]; simpl.
    + by rewrite decide_True.
    + by rewrite decide_False.
Qed.

Lemma get_set_ne k k' v d : k ≠ k' → get k' (set k v d) = get k' d.
Proof.
  intros Hne. induction d as [|[k0 v0] d IH]; simpl.
  - by rewrite decide_False.
  - destruct (decide (k0 = k)) as [->|Hne0]; simpl.
    + by rewrite !decide_False.
    + destruct (decide (k0 = k')); auto.
Qed.

Lemma get_set k k' v d :
  get k' (set k v d) = if decide (k = k') then Some v else get k' d.
Proof.
  destruct (decide (k = k')) as [->|Hne].
  - apply get_set_eq.
  - by apply get_set_ne.
Qed.

Lemma get_None k d : get k d = None ↔ k ∉ keys d.
Proof.
  unfold keys. induction d as [|[k' v'] d IH]; simpl.
  - split; [intros _; apply not_elem_of_nil | done].
  - rewrite not_elem_of_cons. destruct (decide (k' = k)) as [->|Hne].
    + split; [done | intros [? _]; done].
    + rewrite IH. split; [intros ?; split; [congruence | done] | tauto].
Qed.

Lemma get_Some_elem k v d : get k d = Some v → (k, v) ∈ d.
Proof.
  induction d as [|[k' v'] d IH]; simpl; [done|].
  destruct (decide (k' = k)) as [->|Hne].
  - intros [= ->]. apply list_elem_of_here.
  - intros ?. apply list_elem_of_further. auto.
Qed.

Lemma get_Some_key k v d : get k d = Some v → k ∈ keys d.
Proof.
  intros H. apply get_Some_elem in H.
  unfold keys. apply list_elem_of_fmap. by exists (k, v).
Qed.

Lemma elem_get k v d : wf d → (k, v) ∈ d → get k d = Some v.
Proof.
  unfold wf, keys. induction d as [|[k' v'] d IH]; simpl.
  - intros _ H. by apply elem_of_nil in H.
  - rewrite NoDup_cons. intros [Hnin Hnd] [Heq|Hin]%elem_of_cons.
    + injection Heq as -> ->. by rewrite decide_True.
    + rewrite decide_False; [auto|].
      intros ->. apply Hnin. apply list_elem_of_fmap. by exists (k, v).
Qed.

Lemma keys_set_in k v d : k ∈ keys d → keys (set k v d) = keys d.
Proof.
  unfold keys. induction d as [|[k' v'] d IH]; simpl.
  - intros H. by apply elem_of_nil in H.
  - destruct (decide (k' = k)) as [->|Hne]; simpl; [done|].
    intros [?|Hin]%elem_of_cons; [congruence|]. f_equal. by apply IH.
Qed.

Lemma keys_set_notin k v d : k ∉ keys d → keys (set k v d) = keys d ++ [k].
Proof.
  unfold keys. induction d as [|[k' v'] d IH]; simpl; [done|].
  rewrite not_elem_of_cons. intros [Hne Hnin].
  rewrite decide_False by congruence. simpl. f_equal. by apply IH.
Qed.

Lemma set_notin k v d : k ∉ keys d → set k v d = d ++ [(k, v)].
Proof.
  unfold keys. induction d as [|[k' v'] d IH]; simpl; [done|].
  rewrite not_elem_of_cons. intros [Hne Hnin].
  rewrite decide_False by congruence. f_equal. by apply IH.
Qed.

Lemma wf_set k v d : wf d → wf (set k v d).
Proof.
  unfold wf. intros Hwf. destruct (decide (k ∈ keys d)) as [Hin|Hnin].
  - by rewrite keys_set_in.
  - rewrite keys_set_notin by done.
    apply NoDup_app. split_and!; [done | | apply NoDup_singleton].
    intros x Hx ->%list_elem_of_singleton. done.
Qed.

Lemma elem_keys_set k k' v d :
  k' ∈ keys (set k v d) ↔ k' = k ∨ k' ∈ keys d.
Proof.
  destruct (decide (k ∈ keys d)) as [Hin|Hnin].
  - rewrite keys_set_in by done. split; [auto | intros [->|?]; done].
  - rewrite keys_set_notin by done. rewrite elem_of_app, list_elem_of_singleton.
    tauto.
Qed.
End facts.
End DictFacts.

(** ** Rational sums *)

Section sums.
Local Open Scope Q_scope.

Lemma fold_left_wsum {A} (f : A → Q) (l : list A) (a : Q) :
  fold_left (λ acc x, acc + f x) l a == a + wsum f l.
Proof.
  revert a. induction l as [|x l IH]; intros a; simpl.
  - ring.
  - rewrite IH. ring.
Qed.

Lemma Qsum_wsum (l : list Q) : Qsum l == wsum (λ x, x) l.
Proof.
  unfold Qsum. rewrite (fold_left_wsum (λ x, x) l 0). ring.
Qed.

Lemma wsum_fmap {A B} (g : A → B) (f : B → Q) (l : list A) :
  wsum f (g <$> l) = wsum (λ x, f (g x)) l.
Proof. induction l as [|x l IH]; simpl; [done | f_equal; apply IH]. Qed.

Lemma wsum_ext {A} (f g : A → Q) (l : list A) :
  (∀ x, x ∈ l → f x == g x) → wsum f l == wsum g l.
Proof.
  induction l as [|x l IH]; intros H; simpl; [reflexivity|].
  rewrite (H x) by apply list_elem_of_here.
  rewrite IH; [reflexivity|]. intros y Hy. apply H. by apply list_elem_of_further.
Qed.

Lemma wsum_le {A} (f g : A → Q) (l : list A) :
  (∀ x, x ∈ l → f x <= g x) → wsum f l <= wsum g l.
Proof.
  induction l as [|x l IH]; intros H; simpl; [apply Qle_refl|].
  apply Qplus_le_compat.
  - apply H, list_elem_of_here.
  - apply IH. intros y Hy. apply H. by apply list_elem_of_further.
Qed.

Lemma wsum_nonneg {A} (f : A → Q) (l : list A) :
  (∀ x, x ∈ l → 0 <= f x) → 0 <= wsum f l.
Proof.
  induction l as [|x l IH]; intros H; simpl; [apply Qle_refl|].
  replace 0 with (0 + 0) by reflexivity.
  apply Qplus_le_compat.
  - apply H, list_elem_of_here.
  - apply IH. intros y Hy. apply H. by apply list_elem_of_further.
Qed.

Lemma wsum_div {A} (f : A → Q) (t : Q) (l : list A) :
  wsum (λ x, f x / t) l == wsum f l / t.
Proof.
  induction l as [|x l IH]; simpl.
  - unfold Qdiv. ring.
  - rewrite IH. unfold Qdiv. ring.
Qed.

Lemma wsum_zero {A} (f : A → Q) (l : list A) :
  (∀ x, x ∈ l → f x == 0) → wsum f l == 0.
Proof.
  intros H. rewrite (wsum_ext f (λ _, 0) l H).
  clear H. induction l as [|x l IH]; simpl; [reflexivity|]. rewrite IH. ring.
Qed.

(** Non-negative summands of a zero sum are all zero. *)
Lemma wsum_zero_inv {A} (f : A → Q) (l : list A) :
  (∀ x, x ∈ l → 0 <= f x) → wsum f l <= 0 → ∀ x, x ∈ l → f x == 0.
Proof.
  induction l as [|y l IH]; intros Hpos Hsum x Hx.
  - by apply elem_of_nil in Hx.
  - simpl in Hsum.
    assert (0 <= f y) as Hy by apply Hpos, list_elem_of_here.
    assert (0 <= wsum f l) as Hl.
    { apply wsum_nonneg. intros z Hz. apply Hpos. by apply list_elem_of_further. }
    apply elem_of_cons in Hx as [->|Hx].
    + apply Qle_antisym; [|done].
      apply Qle_trans with (f y + wsum f l); [|done].
      rewrite <- (Qplus_0_r (f y)) at 1. apply Qplus_le_compat; [apply Qle_refl | done].
    + apply IH; [| |done].
      * intros z Hz. apply Hpos. by apply list_elem_of_further.
      * apply Qle_trans with (f y + wsum f l); [|done].
        rewrite <- (Qplus_0_l (wsum f l)) at 1.
        apply Qplus_le_compat; [done | apply Qle_refl].
Qed.
End sums.

(** ** The criteria model *)

Section criteria_facts.
Import Dict DictFacts.
Local Open Scope Q_scope.

Lemma weights_post_init_keys c :
  keys (weights (Criteria_post_init c)) = keys (weights c).
Proof.
  unfold Criteria_post_init. destruct (Qlt_le_dec _ _); [|done]. simpl.
  unfold keys. rewrite <- list_fmap_compose. by apply list_fmap_ext.
Qed.

Lemma weights_post_init_wf c : wf (weights c) → wf (weights (Criteria_post_init c)).
Proof. unfold wf. by rewrite weights_post_init_keys. Qed.

Lemma total_weight_wsum (w : list (string * Q)) :
  Qsum (values w) == wsum snd w.
Proof.
  rewrite Qsum_wsum. unfold values. by rewrite wsum_fmap.
Qed.

Lemma total_weight_nonneg w : nonneg_weights w → 0 <= Qsum (values w).
Proof.
  intros Hw. rewrite total_weight_wsum. apply wsum_nonneg.
  intros x Hx. by eapply (proj1 (Forall_forall _ _) Hw).
Qed.

(** When the sum is positive the rescaled weights sum to one. *)
Lemma weights_post_init_sum_pos c :
  0 < Qsum (values (weights c)) →
  Qsum (values (weights (Criteria_post_init c))) == 1.
Proof.
  intros Hpos. unfold Criteria_post_init.
  destruct (Qlt_le_dec _ _) as [_|Hle]; [|by apply Qle_not_lt in Hle].
  simpl. rewrite total_weight_wsum, wsum_fmap. simpl.
  rewrite (wsum_div snd). rewrite <- total_weight_wsum.
  field. intros H0. rewrite H0 in Hpos. by apply Qlt_irrefl in Hpos.
Qed.

Lemma weights_post_init_nonneg c :
  nonneg_weights (weights c) → nonneg_weights (weights (Criteria_post_init c)).
Proof.
  intros Hw. unfold Criteria_post_init.
  destruct (Qlt_le_dec _ _) as [Hpos|Hle]; [|done]. simpl.
  unfold nonneg_weights. rewrite Forall_fmap. eapply Forall_impl; [exact Hw|].
  intros [k v] Hv. simpl in *. apply Qle_shift_div_l; [done|].
  by rewrite Qmult_0_l.
Qed.

Lemma weights_post_init_sum_le c :
  nonneg_weights (weights c) →
  wsum snd (weights (Criteria_post_init c)) <= 1.
Proof.
  intros Hw. rewrite <- total_weight_wsum.
  destruct (Qlt_le_dec 0 (Qsum (values (weights c)))) as [Hpos|Hle].
  - rewrite weights_post_init_sum_pos by done. apply Qle_refl.
  - unfold Criteria_post_init.
    destruct (Qlt_le_dec _ _) as [Hpos|_]; [by apply Qle_not_lt in Hle|].
    by apply Qle_trans with 0.
Qed.

(** The score dictionary built over the weight keys. *)
Lemma fold_set_fresh {V} (g : string → V) (ks : list string) (acc : list (string * V)) :
  NoDup ks → (∀ k, k ∈ ks → k ∉ keys acc) →
  fold_left (λ d k, set k (g k) d) ks acc = acc ++ ((λ k, (k, g k)) <$> ks).
Proof.
  revert acc. induction ks as [|k ks IH]; intros acc Hnd Hfresh; simpl.
  - by rewrite app_nil_r.
  - apply NoDup_cons in Hnd as [Hk Hnd].
    rewrite set_notin by apply Hfresh, list_elem_of_here.
    rewrite IH; [by rewrite <- app_assoc | done |].
    intros k' Hk'. unfold keys. rewrite fmap_app, elem_of_app. simpl.
    rewrite list_elem_of_singleton. intros [Hin | ->]; [|done].
    revert Hin. apply Hfresh. by apply list_elem_of_further.
Qed.

Lemma attribute_scores_wf cmp ea eb c :
  wf (weights c) →
  attribute_scores cmp ea eb c =
    (λ k, (k, cmp (get_attribute ea k) (get_attribute eb k) k)) <$> keys (weights c).
Proof.
  intros Hwf. unfold attribute_scores.
  rewrite (fold_set_fresh (λ k, cmp (get_attribute ea k) (get_attribute eb k) k));
    [done | done |].
  intros k _. apply not_elem_of_nil.
Qed.

Lemma calculate_weighted_score_wsum c scores :
  calculate_weighted_score c scores ==
    wsum (λ ks, default 0 (get ks.1 (weights c)) * ks.2) scores.
Proof.
  unfold calculate_weighted_score.
  assert (∀ a, fold_left
      (λ total_score '(attribute, score),
         total_score + default 0 (get attribute (weights c)) * score) scores a
      == a + wsum (λ ks, default 0 (get ks.1 (weights c)) * ks.2) scores) as H.
  { induction scores as [|[k s] scores IH]; intros a; simpl.
    - ring.
    - rewrite IH. ring. }
  rewrite H. ring.
Qed.

(** Over a well-formed weight dictionary the aggregate is the weighted sum
    of the per-attribute scores. *)
Lemma weighted_aggregate cmp ea eb c :
  wf (weights c) →
  calculate_weighted_score c (attribute_scores cmp ea eb c) ==
    wsum (λ kv, kv.2 * cmp (get_attribute ea kv.1) (get_attribute eb kv.1) kv.1)
         (weights c).
Proof.
  intros Hwf. rewrite calculate_weighted_score_wsum, attribute_scores_wf by done.
  unfold keys. rewrite !wsum_fmap. apply wsum_ext.
  intros [k v] Hin. simpl. by rewrite (elem_get k v).
Qed.

Lemma weighted_aggregate_bounds cmp ea eb c :
  wf (weights c) → nonneg_weights (weights c) → wsum snd (weights c) <= 1 →
  (∀ a b k, 0 <= cmp a b k <= 1) →
  0 <= calculate_weighted_score c (attribute_scores cmp ea eb c) <= 1.
Proof.
  intros Hwf Hnn Hsum Hcmp. rewrite weighted_aggregate by done. split.
  - apply wsum_nonneg. intros [k v] Hin. simpl.
    apply Qmult_le_0_compat; [|apply Hcmp].
    by apply (proj1 (Forall_forall _ _) Hnn (k, v)).
  - eapply Qle_trans; [|exact Hsum]. apply wsum_le. intros [k v] Hin. simpl.
    rewrite <- (Qmult_1_l v) at 2. rewrite (Qmult_comm v).
    apply Qmult_le_compat_r; [apply Hcmp|].
    by apply (proj1 (Forall_forall _ _) Hnn (k, v)).
Qed.
End criteria_facts.

(** ** The per-attribute comparisons *)

Section compare_facts.
Local Open Scope Q_scope.

Lemma py_max_0_nonneg x : 0 <= py_max 0 x.
Proof.
  unfold py_max. destruct (Qlt_le_dec 0 x); [by apply Qlt_le_weak | apply Qle_refl].
Qed.

Lemma py_max_0_le_1 x : x <= 1 → py_max 0 x <= 1.
Proof. unfold py_max. by destruct (Qlt_le_dec 0 x). Qed.

Lemma numeric_score_bounds a b :
  0 <= py_max 0 (1 - Qabs (a - b) / 100) <= 1.
Proof.
  split; [apply py_max_0_nonneg|]. apply py_max_0_le_1.
  assert (0 <= Qabs (a - b) / 100) as H.
  { apply Qle_shift_div_l; [reflexivity|]. rewrite Qmult_0_l. apply Qabs_nonneg. }
  rewrite <- (Qplus_0_r 1) at 2. unfold Qminus.
  apply Qplus_le_compat; [apply Qle_refl|].
  apply Qopp_le_compat in H. exact H.
Qed.

Lemma ratio_bounds (i u : nat) :
  (i ≤ u)%nat → (0 < u)%nat →
  0 <= inject_Z (Z.of_nat i) / inject_Z (Z.of_nat u) <= 1.
Proof.
  intros Hiu Hu.
  assert (0 < inject_Z (Z.of_nat u)) as Hpos.
  { change 0 with (inject_Z 0). rewrite <- Zlt_Qlt. lia. }
  split.
  - apply Qle_shift_div_l; [done|]. rewrite Qmult_0_l.
    change 0 with (inject_Z 0). rewrite <- Zle_Qle. lia.
  - apply Qle_shift_div_r; [done|]. rewrite Qmult_1_l. rewrite <- Zle_Qle. lia.
Qed.

Lemma Hungarian_compare_bounds a b k :
  0 <= HungarianMatcher._compare_attribute a b k <= 1.
Proof.
  assert (0 <= 0 <= 1) as H0 by (split; discriminate).
  assert (0 <= 1 <= 1) as H1 by (split; discriminate).
  assert (0 <= 1 # 2 <= 1) as Hh by (split; discriminate).
  destruct a as [|x|s|l], b as [|y|t|m]; simpl; try exact H0.
  - apply numeric_score_bounds.
  - case_bool_decide; [exact H1|].
    destruct (_ || _); [exact Hh | exact H0].
  - destruct (_ || _); [exact H0|].
    destruct (0 <? _)%nat eqn:Hu; [|exact H0].
    apply Nat.ltb_lt in Hu. apply ratio_bounds; [|done].
    apply subseteq_size.
    etrans; [apply intersection_subseteq_l | apply union_subseteq_l].
Qed.


Lemma value_eqb_comm a b : value_eqb a b = value_eqb b a.
Proof.
  destruct a, b; simpl; try done.
  - apply Qeq_bool_comm.
  - apply bool_decide_ext. split; congruence.
  - apply bool_decide_ext. split; congruence.
Qed.

Lemma Hungarian_compare_comm a b k :
  HungarianMatcher._compare_attribute a b k = HungarianMatcher._compare_attribute b a k.
Proof.
  unfold HungarianMatcher._compare_attribute.
  destruct a as [|x|s|l], b as [|y|t|m]; cbv beta iota zeta; try done.
  - by rewrite Qabs_Qminus.
  - rewrite (bool_decide_ext (lower s = lower t) (lower t = lower s))
      by (split; congruence).
    by rewrite orb_comm.
  - assert (∀ X Y : gset string, X ∩ Y = Y ∩ X) as Hi
      by (intros; apply (comm_L (∩))).
    assert (∀ X Y : gset string, X ∪ Y = Y ∪ X) as Hu
      by (intros; apply (comm_L (∪))).
    rewrite (Hi (list_to_set (lower <$> l))), (Hu (list_to_set (lower <$> l))).
    by rewrite orb_comm.
Qed.

Lemma GaleShapley_compare_comm a b k :
  GaleShapleyMatcher.compare_values a b k = GaleShapleyMatcher.compare_values b a k.
Proof.
  unfold GaleShapleyMatcher.compare_values.
  rewrite (value_eqb_comm a b). destruct (value_eqb b a); [done|].
  rewrite (andb_comm (is_number a)), (andb_comm (truthy a)).
  destruct a, b; cbv beta iota zeta; try done.
  destruct (_ && _); [|done]. by rewrite Qabs_Qminus.
Qed.

Lemma attribute_scores_comm cmp ea eb c :
  (∀ a b k, cmp a b k = cmp b a k) →
  attribute_scores cmp ea eb c = attribute_scores cmp eb ea c.
Proof.
  intros Hcmp. unfold attribute_scores. generalize (@nil (string * Q)).
  induction (Dict.keys (weights c)) as [|k ks IH]; intros acc; simpl; [done|].
  by rewrite Hcmp, IH.
Qed.

Lemma missing_required_comm ea eb c :
  missing_required ea eb c = missing_required eb ea c.
Proof.
  unfold missing_required.
  induction (required_attributes c) as [|r rs IH]; simpl; [done|].
  by rewrite IH, (orb_comm (negb (Dict.mem r (attributes ea)))).
Qed.

End compare_facts.

(** ** The solver contract and the reference solver *)

Section solver_facts.
Local Open Scope Q_scope.

Lemma elem_of_enumerate {A} (l : list A) (i : nat) (x : A) :
  (i, x) ∈ enumerate l ↔ l !! i = Some x.
Proof.
  unfold enumerate. rewrite elem_of_lookup_zip_with. split.
  - intros (k & i' & x' & [= -> ->] & Hi & Hx).
    apply lookup_seq in Hi as [-> _]. done.
  - intros Hx. exists i, i, x. split_and!; [done | | done].
    apply lookup_seq. split; [done|]. by eapply lookup_lt_Some.
Qed.

Lemma assignment_finite_false cost_matrix cols i j :
  cols !! i = Some j → finite_at cost_matrix i j = false →
  assignment_finite cost_matrix cols = false.
Proof.
  intros Hij Hfin. unfold assignment_finite.
  destruct (forallb _ _) eqn:Hall; [|done].
  rewrite forallb_forall in Hall.
  specialize (Hall (i, j)). simpl in Hall. rewrite Hall in Hfin; [done|].
  apply list_elem_of_In. by apply elem_of_enumerate.
Qed.

Lemma argmin_cost_spec cost_matrix cands best0 :
  match fold_left
          (λ best cols,
             match best with
             | None => Some cols
             | Some b =>
                 if Qlt_le_dec (assignment_cost cost_matrix cols)
                               (assignment_cost cost_matrix b)
                 then Some cols else Some b
             end) cands best0 with
  | None => best0 = None ∧ cands = []
  | Some b =>
      (best0 = Some b ∨ b ∈ cands) ∧
      (∀ b0, best0 = Some b0 →
             assignment_cost cost_matrix b <= assignment_cost cost_matrix b0) ∧
      (∀ c, c ∈ cands →
            assignment_cost cost_matrix b <= assignment_cost cost_matrix c)
  end.
Proof.
  revert best0. induction cands as [|c cands IH]; intros best0; simpl.
  - destruct best0 as [b|]; [|done]. split_and!; [by left | | ].
    + intros b0 [= ->]. apply Qle_refl.
    + intros c Hc. by apply elem_of_nil in Hc.
  - match goal with |- context [fold_left _ cands ?b1] => specialize (IH b1) end.
    destruct (fold_left _ cands _) as [b|] eqn:Hfold.
    + destruct IH as (Hsrc & Hbest & Hall).
      destruct best0 as [b0|].
      * destruct (Qlt_le_dec _ _) as [Hlt|Hle].
        -- split_and!.
           ++ right. destruct Hsrc as [[= ->]|Hin];
                [apply list_elem_of_here | by apply list_elem_of_further].
           ++ intros ? [= <-]. eapply Qle_trans; [by apply Hbest|].
              by apply Qlt_le_weak.
           ++ intros c' [->|Hc']%elem_of_cons; [by apply Hbest | by apply Hall].
        -- split_and!.
           ++ destruct Hsrc as [Hb|Hin]; [by left | right; by apply list_elem_of_further].
           ++ done.
           ++ intros c' [->|Hc']%elem_of_cons; [|by apply Hall].
              eapply Qle_trans; [by apply Hbest | done].
      * split_and!.
        -- right. destruct Hsrc as [[= ->]|Hin];
             [apply list_elem_of_here | by apply list_elem_of_further].
        -- done.
        -- intros c' [->|Hc']%elem_of_cons; [by apply Hbest | by apply Hall].
    + destruct IH as [Hb _]. by destruct best0; [destruct (Qlt_le_dec _ _)|].
Qed.

(** The exhaustive search meets the contract of the library solver. *)
Lemma exhaustive_assignment_contract : solver_contract exhaustive_assignment.
Proof.
  intros n cost_matrix [Hlen _]. unfold exhaustive_assignment. rewrite Hlen.
  pose proof (argmin_cost_spec cost_matrix
                (List.filter (assignment_finite cost_matrix) (permutations (seq 0 n)))
                None) as Hspec.
  unfold argmin_cost.
  assert (∀ cols, feasible n cost_matrix cols ↔
            cols ∈ List.filter (assignment_finite cost_matrix) (permutations (seq 0 n)))
    as Hmem.
  { intros cols. rewrite list_elem_of_In, filter_In, <- list_elem_of_In.
    rewrite permutations_Permutation. unfold feasible.
    split; intros [H1 H2]; (split; [by symmetry | done]). }
  destruct (fold_left _ _ None) as [b|].
  - destruct Hspec as ([Hb|Hb] & _ & Hmin); [done|].
    split_and!; [done | by apply Hmem |].
    intros cols Hcols. apply Hmin. by apply Hmem.
  - destruct Hspec as [_ Hnil]. split; [done|].
    intros cols Hcols%Hmem. rewrite Hnil in Hcols. by apply elem_of_nil in Hcols.
Qed.
End solver_facts.

(** ** The cost matrix of the optimal matcher *)

Section cost_matrix_facts.
Import HungarianMatcher.

Lemma cost_matrix_shape entities_a entities_b criteria :
  has_shape (length entities_a) (length entities_b)
            (_calculate_cost_matrix entities_a entities_b criteria).
Proof.
  unfold has_shape, _calculate_cost_matrix. split; [by rewrite length_fmap|].
  apply Forall_fmap, Forall_forall. intros a _. simpl. by rewrite length_fmap.
Qed.

Lemma cost_matrix_cell entities_a entities_b criteria i j ea eb :
  entities_a !! i = Some ea → entities_b !! j = Some eb →
  cell (_calculate_cost_matrix entities_a entities_b criteria) i j =
    Some (Fin (- _calculate_similarity ea eb criteria)%Q).
Proof.
  intros Ha Hb. unfold cell, _calculate_cost_matrix.
  rewrite list_lookup_fmap, Ha. simpl. by rewrite list_lookup_fmap, Hb.
Qed.

Lemma pad_same n cost_matrix : pad n n cost_matrix = cost_matrix.
Proof. unfold pad. by rewrite Nat.ltb_irrefl. Qed.

Lemma pad_square n m cost_matrix :
  has_shape n m cost_matrix → is_square (n `max` m) (pad n m cost_matrix).
Proof.
  intros [Hlen Hrows]. unfold pad, is_square.
  destruct (m <? n)%nat eqn:Hmn; [apply Nat.ltb_lt in Hmn|apply Nat.ltb_ge in Hmn].
  - rewrite Nat.max_l by lia. split; [by rewrite length_fmap|].
    apply Forall_fmap. eapply Forall_impl; [exact Hrows|].
    intros row Hrow. simpl in *. rewrite length_app, length_replicate. lia.
  - destruct (n <? m)%nat eqn:Hnm; [apply Nat.ltb_lt in Hnm|apply Nat.ltb_ge in Hnm].
    + rewrite Nat.max_r by lia. split.
      * rewrite length_app, length_replicate. lia.
      * apply Forall_app. split; [done|].
        apply Forall_replicate. apply length_replicate.
    + assert (n = m) as -> by lia. rewrite Nat.max_id. by split.
Qed.

(** Whatever the entries of the unpadded matrix, a padded matrix has no
    perfect assignment through finite entries: with more rows than columns
    some row is sent to an added column, with more columns than rows the
    first added row is sent somewhere. *)
Lemma pad_infeasible n m cost_matrix cols :
  has_shape n m cost_matrix → n ≠ m →
  ¬ feasible (n `max` m) (pad n m cost_matrix) cols.
Proof.
  intros [Hlen Hrows] Hne [Hperm Hfin].
  assert (length cols = n `max` m) as Hcols.
  { rewrite Hperm. apply length_seq. }
  unfold pad in Hfin.
  destruct (m <? n)%nat eqn:Hmn; [apply Nat.ltb_lt in Hmn|apply Nat.ltb_ge in Hmn].
  - (* some row takes column [m] *)
    assert (m ∈ cols) as Hm.
    { rewrite Hperm. apply elem_of_seq. lia. }
    apply list_elem_of_lookup in Hm as [i Hi].
    assert (i < n)%nat as Hin.
    { apply lookup_lt_Some in Hi. lia. }
    rewrite (assignment_finite_false _ cols i m Hi) in Hfin; [done|].
    unfold finite_at, cell. rewrite list_lookup_fmap.
    destruct (lookup_lt_is_Some_2 cost_matrix i) as [row Hrow]; [lia|].
    rewrite Hrow. simpl.
    assert (length row = m) as Hrl.
    { apply (proj1 (Forall_forall _ _) Hrows row). by eapply list_elem_of_lookup_2. }
    rewrite lookup_app_r by lia. rewrite Hrl, Nat.sub_diag.
    rewrite lookup_replicate_2 by lia. done.
  - destruct (n <? m)%nat eqn:Hnm; [apply Nat.ltb_lt in Hnm|apply Nat.ltb_ge in Hnm; lia].
    (* row [n], the first added one, takes some column *)
    destruct (lookup_lt_is_Some_2 cols n) as [j Hj]; [lia|].
    assert (j < m)%nat as Hjm.
    { assert (j ∈ seq 0 (n `max` m)) as Hjs.
      { rewrite <- Hperm. by eapply list_elem_of_lookup_2. }
      apply elem_of_seq in Hjs. lia. }
    rewrite (assignment_finite_false _ cols n j Hj) in Hfin; [done|].
    unfold finite_at, cell.
    rewrite lookup_app_r by lia. rewrite Hlen, Nat.sub_diag.
    rewrite lookup_replicate_2 by lia. simpl.
    rewrite lookup_replicate_2 by lia. done.
Qed.

Lemma match_nonempty solver entities_a entities_b criteria :
  entities_a ≠ [] → entities_b ≠ [] →
  match_ solver entities_a entities_b criteria =
    (let cost_matrix :=
       pad (length entities_a) (length entities_b)
           (_calculate_cost_matrix entities_a entities_b criteria) in
     '(row_indices, col_indices) ← solver cost_matrix;
     acc ← extract entities_a entities_b criteria cost_matrix
              (zip row_indices col_indices)
              {| ex_matches := []; ex_matched_a := []; ex_matched_b := [];
                 ex_total_score := 0%Q |};
     Ok {| matches := ex_matches acc;
           unmatched_entities :=
             unmatched_of entities_a (ex_matched_a acc) ++
             unmatched_of entities_b (ex_matched_b acc);
           total_score := ex_total_score acc |}).
Proof.
  intros Ha Hb. unfold match_.
  destruct entities_a; [done|]. destruct entities_b; [done|]. done.
Qed.

(** On lists of different lengths the call ends in the solver's error. *)
Lemma match_size_mismatch solver entities_a entities_b criteria :
  solver_contract solver →
  entities_a ≠ [] → entities_b ≠ [] → length entities_a ≠ length entities_b →
  match_ solver entities_a entities_b criteria = Raise infeasible_error.
Proof.
  intros Hsolver Ha Hb Hne. rewrite match_nonempty by done. simpl.
  pose proof (cost_matrix_shape entities_a entities_b criteria) as Hshape.
  pose proof (Hsolver _ _ (pad_square _ _ _ Hshape)) as Hres.
  destruct (solver _) as [[rows cols]|e|]; [| |done].
  - destruct Hres as (_ & Hfeas & _). by apply pad_infeasible in Hfeas.
  - destruct Hres as [-> _]. done.
Qed.
End cost_matrix_facts.

(** ** The deferred-acceptance loop *)

Section index_facts.
Lemma index_of_Some_lookup x l i : index_of x l = Some i → l !! i = Some x.
Proof.
  revert i. induction l as [|y l IH]; intros i; simpl; [done|].
  destruct (decide (y = x)) as [->|Hne].
  - by intros [= <-].
  - destruct (index_of x l) as [j|]; simpl; [|done].
    intros [= <-]. simpl. by apply IH.
Qed.

Lemma index_of_elem x l : x ∈ l → is_Some (index_of x l).
Proof.
  induction l as [|y l IH]; simpl.
  - intros H. by apply elem_of_nil in H.
  - intros [->|Hin]%elem_of_cons.
    + rewrite decide_True by done. by eexists.
    + destruct (decide (y = x)); [by eexists|].
      destruct (IH Hin) as [j ->]. by eexists.
Qed.

Lemma index_of_inj x y l i :
  index_of x l = Some i → index_of y l = Some i → x = y.
Proof.
  intros Hx%index_of_Some_lookup Hy%index_of_Some_lookup. congruence.
Qed.

Lemma index_of_lookup_NoDup x l i :
  NoDup l → l !! i = Some x → index_of x l = Some i.
Proof.
  intros Hnd Hi.
  destruct (index_of_elem x l) as [j Hj]; [by eapply list_elem_of_lookup_2|].
  pose proof (index_of_Some_lookup _ _ _ Hj) as Hj'.
  by rewrite (NoDup_lookup l i j x Hnd Hi Hj').
Qed.
End index_facts.

Section remaining_facts.
Import Dict DictFacts.

Lemma remaining_other m proposers index p v :
  p ∉ proposers → remaining m proposers (set p v index) = remaining m proposers index.
Proof.
  induction proposers as [|q qs IH]; [done|].
  rewrite not_elem_of_cons. intros [Hne Hnin].
  change (remaining m (q :: qs) ?d)
    with ((m - default 0 (get q d)) + remaining m qs d)%nat.
  rewrite get_set_ne by done. by rewrite IH.
Qed.

Lemma remaining_advance m proposers index p i :
  NoDup proposers → p ∈ proposers → get p index = Some i → (i < m)%nat →
  (remaining m proposers (set p (i + 1)%nat index) + 1 = remaining m proposers index)%nat.
Proof.
  intros Hnd Hp Hget Him.
  induction proposers as [|q qs IH]; [by apply elem_of_nil in Hp|].
  apply NoDup_cons in Hnd as [Hq Hnd].
  change (remaining m (q :: qs) ?d)
    with ((m - default 0 (get q d)) + remaining m qs d)%nat.
  destruct (decide (q = p)) as [->|Hne].
  - rewrite remaining_other by done. rewrite get_set_eq, Hget. simpl. lia.
  - apply elem_of_cons in Hp as [?|Hp]; [congruence|].
    rewrite get_set_ne by done. specialize (IH Hnd Hp). lia.
Qed.

Lemma keys_fmap_pair {A V} (f : A → string) (g : A → V) (l : list A) :
  keys ((λ x, (f x, g x)) <$> l) = f <$> l.
Proof. unfold keys. induction l as [|x l IH]; simpl; [done | f_equal; apply IH]. Qed.

Lemma remaining_initial m (proposers : list string) :
  NoDup proposers →
  remaining m proposers ((λ pid, (pid, 0%nat)) <$> proposers) = (length proposers * m)%nat.
Proof.
  intros Hnd.
  assert (∀ p, p ∈ proposers →
            get p ((λ pid, (pid, 0%nat)) <$> proposers) = Some 0%nat) as Hget.
  { intros p Hp. apply elem_get.
    - unfold wf. by rewrite (keys_fmap_pair (λ x, x)), list_fmap_id.
    - apply list_elem_of_fmap. by exists p. }
  revert Hget. generalize ((λ pid : string, (pid, 0%nat)) <$> proposers).
  intros d Hget. induction proposers as [|q qs IH]; [done|].
  change (remaining m (q :: qs) d)
    with ((m - default 0 (get q d)) + remaining m qs d)%nat.
  rewrite (Hget q) by apply list_elem_of_here.
  rewrite IH; [simpl; lia | by apply NoDup_cons in Hnd as [_ ?] |].
  intros p Hp. apply Hget. by apply list_elem_of_further.
Qed.

Lemma dict_of_NoDup {V} (items : list (string * V)) :
  NoDup items.*1 → dict_of items = items.
Proof.
  intros Hnd. unfold dict_of.
  assert (∀ acc, (∀ k, k ∈ items.*1 → k ∉ keys acc) →
            fold_left (λ d kv, set kv.1 kv.2 d) items acc = acc ++ items) as H.
  { induction items as [|[k v] items IH]; intros acc Hfresh; simpl.
    - by rewrite app_nil_r.
    - simpl in Hnd. apply NoDup_cons in Hnd as [Hk Hnd].
      rewrite set_notin by apply Hfresh, list_elem_of_here.
      rewrite IH; [by rewrite <- app_assoc | done |].
      intros k' Hk'. unfold keys. rewrite fmap_app, elem_of_app. simpl.
      rewrite list_elem_of_singleton. intros [Hin | ->]; [|done].
      revert Hin. apply Hfresh. by apply list_elem_of_further. }
  apply (H []). intros k _. apply not_elem_of_nil.
Qed.
End remaining_facts.

Section loop_facts.
Import Dict DictFacts GaleShapleyMatcher.

Variable preferences : list (string * list string).
Variables proposers acceptors : list string.
Hypothesis Hpc : preferences_complete preferences proposers acceptors.

Local Abbreviation Inv := (loop_invariant preferences proposers acceptors).
Local Abbreviation pref := (prefers preferences).
Local Abbreviation pass_outcome := (pass_outcome preferences acceptors).

Lemma proposer_list p :
  p ∈ proposers →
  ∃ l, get p preferences = Some l ∧ l ≡ₚ acceptors ∧ length l = length acceptors.
Proof.
  intros Hp. destruct (pc_proposer _ _ _ Hpc p Hp) as (l & Hl & Hperm).
  exists l. split_and!; [done | done | by rewrite Hperm].
Qed.

Lemma acceptor_rank a p :
  a ∈ acceptors → p ∈ proposers →
  ∃ la ip, get a preferences = Some la ∧ index_of p la = Some ip.
Proof.
  intros Ha Hp. destruct (pc_acceptor _ _ _ Hpc a Ha) as (la & Hla & Hperm).
  destruct (index_of_elem p la) as [ip Hip]; [by rewrite Hperm|].
  by exists la, ip.
Qed.

Lemma prefers_intro a la q p iq ip :
  get a preferences = Some la → index_of q la = Some iq → index_of p la = Some ip →
  (iq < ip)%nat → pref a q p.
Proof.
  intros Hla Hq Hp Hlt. exists iq, ip. unfold rank. rewrite Hla. simpl.
  split_and!; done.
Qed.

Lemma prefers_trans a x y z : pref a x y → pref a y z → pref a x z.
Proof.
  intros (ix & iy & Hx & Hy & Hxy) (iy' & iz & Hy' & Hz & Hyz).
  assert (iy' = iy) as -> by congruence.
  exists ix, iz. split_and!; [done | done | lia].
Qed.


Lemma loop_body_outcome p rest st :
  Inv st → free_proposers st = p :: rest →
  ∃ st', loop_body preferences p rest st = Ok st' ∧ pass_outcome p rest st st'.
Proof.
  intros HI Hfree.
  assert (p ∈ proposers) as Hp.
  { apply (inv_free_in _ _ _ _ HI). rewrite Hfree. apply list_elem_of_here. }
  destruct (proposer_list p Hp) as (l & Hl & Hperm & Hlen).
  assert (is_Some (get p (proposer_index st))) as [i Hi].
  { destruct (get p (proposer_index st)) eqn:Hg; [by eexists|].
    apply get_None in Hg. by rewrite (inv_index_keys _ _ _ _ HI) in Hg. }
  unfold loop_body, getitem. rewrite Hl, Hi. simpl.
  destruct (length l <=? i)%nat eqn:Hex.
  { apply Nat.leb_le in Hex. eexists. split; [done|].
    eapply pass_exhausted; eauto. lia. }
  apply Nat.leb_gt in Hex.
  destruct (lookup_lt_is_Some_2 l i Hex) as [a Ha].
  unfold list_getitem. rewrite Ha. simpl.
  assert (a ∈ acceptors) as Hacc.
  { rewrite <- Hperm. by eapply list_elem_of_lookup_2. }
  destruct (get a (engagements st)) as [cur|] eqn:Heng.
  2:{ eexists. split; [done|]. eapply pass_engage; eauto. lia. }
  destruct (inv_engaged _ _ _ _ HI a cur Heng) as (_ & Hcur & Hcurfree).
  destruct (acceptor_rank a p Hacc Hp) as (la & ip & Hla & Hip).
  destruct (acceptor_rank a cur Hacc Hcur) as (la' & ic & Hla' & Hic).
  assert (la' = la) as -> by congruence.
  rewrite Hla. simpl. unfold list_index. rewrite Hip, Hic. simpl.
  destruct (ip <? ic)%nat eqn:Hlt.
  - apply Nat.ltb_lt in Hlt. eexists. split; [done|].
    eapply pass_swap; eauto; [lia|]. by eapply prefers_intro.
  - apply Nat.ltb_ge in Hlt. eexists. split; [done|].
    eapply pass_reject; eauto; [lia|].
    eapply prefers_intro; eauto.
    assert (ic ≠ ip); [|lia]. intros ->.
    assert (cur = p) as -> by (by eapply index_of_inj).
    apply Hcurfree. rewrite Hfree. apply list_elem_of_here.
Qed.

Lemma inv_exhausted p rest st l i :
  Inv st → free_proposers st = p :: rest →
  get p preferences = Some l → get p (proposer_index st) = Some i →
  (length acceptors ≤ i)%nat →
  Inv {| free_proposers := rest; engagements := engagements st;
         proposer_index := proposer_index st |}.
Proof.
  intros [H1 H2 H3 H4 H5 H6 H7 H8 H9 H10] Hfree Hl Hi Hle.
  rewrite Hfree in *. apply NoDup_cons in H1 as [Hp Hrest].
  constructor; simpl; try done.
  - intros q Hq. apply H2. by apply list_elem_of_further.
  - intros a q Haq. destruct (H3 a q Haq) as (? & ? & Hnin).
    split_and!; [done | done |]. intros Hq. apply Hnin. by apply list_elem_of_further.
  - intros q Hq. destruct (H10 q Hq) as [[->|Hin]%elem_of_cons | [Heng | Hex]].
    + right. right. by exists i.
    + by left.
    + right. by left.
    + right. by right.
Qed.

Lemma inv_engage p rest st l i a :
  Inv st → free_proposers st = p :: rest →
  get p preferences = Some l → get p (proposer_index st) = Some i →
  (i < length acceptors)%nat → l !! i = Some a → a ∈ acceptors →
  get a (engagements st) = None →
  Inv {| free_proposers := rest;
         engagements := set a p (engagements st);
         proposer_index := set p (i + 1)%nat (proposer_index st) |}.
Proof.
  intros [H1 H2 H3 H4 H5 H6 H7 H8 H9 H10] Hfree Hl Hi Hlt Ha Hacc Heng.
  rewrite Hfree in *. apply NoDup_cons in H1 as [Hp Hrest].
  assert (p ∈ proposers) as Hpp by apply H2, list_elem_of_here.
  assert (∀ a', get a' (engagements st) ≠ Some p) as Hpfree.
  { intros a' Ha'. destruct (H3 a' p Ha') as (_ & _ & Hnin).
    apply Hnin, list_elem_of_here. }
  constructor; simpl.
  - done.
  - intros q Hq. apply H2. by apply list_elem_of_further.
  - intros a' q. rewrite get_set. case_decide as Haa.
    + intros [= <-]. subst a'. done.
    + intros Haq. destruct (H3 a' q Haq) as (? & ? & Hnin).
      split_and!; [done | done |]. intros Hq. apply Hnin. by apply list_elem_of_further.
  - intros a1 a2 q. rewrite !get_set. repeat case_decide; subst.
    + done.
    + intros [= <-] Hq. by apply Hpfree in Hq.
    + intros Hq [= <-]. by apply Hpfree in Hq.
    + apply H4.
  - by apply wf_set.
  - rewrite keys_set_in; [done|]. by eapply get_Some_key.
  - intros q j. rewrite get_set. case_decide.
    + intros [= <-]. lia.
    + apply H7.
  - intros q lq j k a' Hlq. rewrite get_set. case_decide as Hq.
    + subst q. intros [= <-] Hk Hlk.
      assert (lq = l) as -> by congruence.
      destruct (decide (k = i)) as [->|Hki].
      * assert (a' = a) as -> by congruence.
        exists p. rewrite get_set_eq. by split; [|left].
      * destruct (H8 p l i k a' Hl Hi ltac:(lia) Hlk) as (q & Hq & Hpref).
        exists q. split; [|done]. rewrite get_set_ne; [done|]. congruence.
    + intros Hj Hk Hlk.
      destruct (H8 q lq j k a' Hlq Hj Hk Hlk) as (q' & Hq' & Hpref).
      exists q'. split; [|done]. rewrite get_set_ne; [done|]. congruence.
  - intros a' q. rewrite get_set. case_decide as Haa.
    + intros [= <-]. subst a'. exists l, i. rewrite get_set_eq.
      split_and!; [done | f_equal; lia | done].
    + intros Haq. destruct (H9 a' q Haq) as (lq & j & Hlq & Hj & Hlk).
      exists lq, j. split_and!; [done | | done].
      rewrite get_set_ne; [done|]. intros <-. by apply Hpfree in Haq.
  - intros q Hq. destruct (decide (q = p)) as [->|Hne].
    { right. left. exists a. apply get_set_eq. }
    destruct (H10 q Hq) as [[->|Hin]%elem_of_cons | [[a' Heng'] | [j [Hj Hex]]]].
    + done.
    + by left.
    + right. left. exists a'. rewrite get_set_ne; [done|]. congruence.
    + right. right. exists j. by rewrite get_set_ne.
Qed.

Lemma inv_swap p rest st l i a cur :
  Inv st → free_proposers st = p :: rest →
  get p preferences = Some l → get p (proposer_index st) = Some i →
  (i < length acceptors)%nat → l !! i = Some a → a ∈ acceptors →
  get a (engagements st) = Some cur → pref a p cur →
  Inv {| free_proposers := rest ++ [cur];
         engagements := set a p (engagements st);
         proposer_index := set p (i + 1)%nat (proposer_index st) |}.
Proof.
  intros [H1 H2 H3 H4 H5 H6 H7 H8 H9 H10] Hfree Hl Hi Hlt Ha Hacc Heng Hbetter.
  rewrite Hfree in *. apply NoDup_cons in H1 as [Hp Hrest].
  assert (p ∈ proposers) as Hpp by apply H2, list_elem_of_here.
  assert (∀ a', get a' (engagements st) ≠ Some p) as Hpfree.
  { intros a' Ha'. destruct (H3 a' p Ha') as (_ & _ & Hnin).
    apply Hnin, list_elem_of_here. }
  destruct (H3 a cur Heng) as (_ & Hcurp & Hcurfree).
  apply not_elem_of_cons in Hcurfree as [Hcurp' Hcurrest].
  constructor; simpl.
  - apply NoDup_app. split_and!; [done | | apply NoDup_singleton].
    intros x Hx ->%list_elem_of_singleton. done.
  - intros q [Hq | ->%list_elem_of_singleton]%elem_of_app; [|done].
    apply H2. by apply list_elem_of_further.
  - intros a' q. rewrite get_set. case_decide as Haa.
    + intros [= <-]. subst a'. split_and!; [done | done |].
      rewrite elem_of_app, list_elem_of_singleton. intros [Hx | Hx]; [done | congruence].
    + intros Haq. destruct (H3 a' q Haq) as (? & ? & Hnin).
      apply not_elem_of_cons in Hnin as [? ?].
      split_and!; [done | done |].
      rewrite elem_of_app, list_elem_of_singleton. intros [Hx | ->]; [done|].
      apply Haa. by apply (H4 a a' cur).
  - intros a1 a2 q. rewrite !get_set. repeat case_decide; subst.
    + done.
    + intros [= <-] Hq. by apply Hpfree in Hq.
    + intros Hq [= <-]. by apply Hpfree in Hq.
    + apply H4.
  - by apply wf_set.
  - rewrite keys_set_in; [done|]. by eapply get_Some_key.
  - intros q j. rewrite get_set. case_decide.
    + intros [= <-]. lia.
    + apply H7.
  - assert (∀ q lq j k a',
              get q preferences = Some lq → get q (proposer_index st) = Some j →
              (k < j)%nat → lq !! k = Some a' →
              ∃ q', get a' (set a p (engagements st)) = Some q' ∧
                    (q' = q ∨ pref a' q' q)) as Hold.
    { intros q lq j k a' Hlq Hj Hk Hlk.
      destruct (H8 q lq j k a' Hlq Hj Hk Hlk) as (q' & Hq' & Hpref).
      destruct (decide (a' = a)) as [->|Hne].
      - assert (q' = cur) as -> by congruence.
        exists p. rewrite get_set_eq. split; [done|].
        destruct (decide (p = q)) as [?|Hpq]; [by left | right].
        destruct Hpref as [<-|Hpref]; [done|]. by eapply prefers_trans.
      - exists q'. split; [|done]. by rewrite get_set_ne. }
    intros q lq j k a' Hlq. rewrite get_set. case_decide as Hq.
    + subst q. intros [= <-] Hk Hlk.
      assert (lq = l) as -> by congruence.
      destruct (decide (k = i)) as [->|Hki].
      * assert (a' = a) as -> by congruence.
        exists p. rewrite get_set_eq. by split; [|left].
      * apply (Hold p l i k a' Hl Hi); [lia | done].
    + intros Hj Hk Hlk. by apply (Hold q lq j k a').
  - intros a' q. rewrite get_set. case_decide as Haa.
    + intros [= <-]. subst a'. exists l, i. rewrite get_set_eq.
      split_and!; [done | f_equal; lia | done].
    + intros Haq. destruct (H9 a' q Haq) as (lq & j & Hlq & Hj & Hlk).
      exists lq, j. split_and!; [done | | done].
      rewrite get_set_ne; [done|]. intros <-. by apply Hpfree in Haq.
  - intros q Hq. destruct (decide (q = p)) as [->|Hne].
    { right. left. exists a. apply get_set_eq. }
    destruct (H10 q Hq) as [[->|Hin]%elem_of_cons | [[a' Heng'] | [j [Hj Hex]]]].
    + done.
    + left. apply elem_of_app. by left.
    + destruct (decide (a' = a)) as [->|Hna].
      * assert (q = cur) as -> by congruence.
        left. apply elem_of_app. right. apply list_elem_of_here.
      * right. left. exists a'. by rewrite get_set_ne.
    + right. right. exists j. by rewrite get_set_ne.
Qed.

Lemma inv_reject p rest st l i a cur :
  Inv st → free_proposers st = p :: rest →
  get p preferences = Some l → get p (proposer_index st) = Some i →
  (i < length acceptors)%nat → l !! i = Some a → a ∈ acceptors →
  get a (engagements st) = Some cur → pref a cur p →
  Inv {| free_proposers := p :: rest;
         engagements := engagements st;
         proposer_index := set p (i + 1)%nat (proposer_index st) |}.
Proof.
  intros [H1 H2 H3 H4 H5 H6 H7 H8 H9 H10] Hfree Hl Hi Hlt Ha Hacc Heng Hbetter.
  rewrite Hfree in *.
  assert (∀ a', get a' (engagements st) ≠ Some p) as Hpfree.
  { intros a' Ha'. destruct (H3 a' p Ha') as (_ & _ & Hnin).
    apply Hnin, list_elem_of_here. }
  constructor; simpl; try done.
  - rewrite keys_set_in; [done|]. by eapply get_Some_key.
  - intros q j. rewrite get_set. case_decide.
    + intros [= <-]. lia.
    + apply H7.
  - intros q lq j k a' Hlq. rewrite get_set. case_decide as Hq.
    + subst q. intros [= <-] Hk Hlk.
      assert (lq = l) as -> by congruence.
      destruct (decide (k = i)) as [->|Hki].
      * assert (a' = a) as -> by congruence.
        exists cur. by split; [|right].
      * apply (H8 p l i k a' Hl Hi); [lia | done].
    + intros Hj Hk Hlk. by apply (H8 q lq j k a').
  - intros a' q Haq. destruct (H9 a' q Haq) as (lq & j & Hlq & Hj & Hlk).
    exists lq, j. split_and!; [done | | done].
    rewrite get_set_ne; [done|]. intros <-. by apply Hpfree in Haq.
  - intros q Hq. destruct (decide (q = p)) as [->|Hne].
    { left. apply list_elem_of_here. }
    destruct (H10 q Hq) as [Hin | [Heng' | [j [Hj Hex]]]].
    + by left.
    + right. by left.
    + right. right. exists j. by rewrite get_set_ne.
Qed.

(** One pass from a state satisfying the invariant: it ends without
    exception, re-establishes the invariant, and lowers the variant. *)
Lemma loop_body_step p rest st :
  Inv st → free_proposers st = p :: rest →
  ∃ st', loop_body preferences p rest st = Ok st' ∧ Inv st' ∧
         (variant proposers acceptors st' < variant proposers acceptors st)%nat.
Proof.
  intros HI Hfree.
  destruct (loop_body_outcome p rest st HI Hfree) as (st' & Hrun & Hout).
  exists st'. split; [done|].
  assert (p ∈ proposers) as Hp.
  { apply (inv_free_in _ _ _ _ HI). rewrite Hfree. apply list_elem_of_here. }
  pose proof (pc_nodup_proposers _ _ _ Hpc) as Hnd.
  unfold variant. rewrite Hfree.
  destruct Hout as [l i Hl Hi Hle -> | l i a Hl Hi Hlt Ha Hacc Heng ->
                   | l i a cur Hl Hi Hlt Ha Hacc Heng Hpref ->
                   | l i a cur Hl Hi Hlt Ha Hacc Heng Hpref ->]; simpl.
  - split; [by eapply inv_exhausted | lia].
  - split; [by eapply inv_engage|].
    pose proof (remaining_advance (length acceptors) proposers _ p i Hnd Hp Hi Hlt). lia.
  - split; [by eapply inv_swap|].
    pose proof (remaining_advance (length acceptors) proposers _ p i Hnd Hp Hi Hlt).
    rewrite length_app. simpl. lia.
  - split; [by eapply inv_reject|].
    pose proof (remaining_advance (length acceptors) proposers _ p i Hnd Hp Hi Hlt). lia.
Qed.

(** The loop ends within [variant] passes, in a state with no free proposer
    that satisfies the invariant. *)
Lemma main_loop_terminates fuel st :
  Inv st → (variant proposers acceptors st ≤ fuel)%nat →
  ∃ st', main_loop preferences fuel st = Ok st' ∧ Inv st' ∧ free_proposers st' = [].
Proof.
  revert st. induction fuel as [|fuel IH]; intros st HI Hfuel.
  - destruct (free_proposers st) as [|p rest] eqn:Hfree.
    + exists st. simpl. by rewrite Hfree.
    + unfold variant in Hfuel. rewrite Hfree in Hfuel. simpl in Hfuel. lia.
  - destruct (free_proposers st) as [|p rest] eqn:Hfree.
    + exists st. simpl. by rewrite Hfree.
    + destruct (loop_body_step p rest st HI Hfree) as (st1 & Hrun & HI1 & Hdec).
      destruct (IH st1 HI1 ltac:(lia)) as (st' & Hloop & HI' & Hdone).
      exists st'. simpl. rewrite Hfree, Hrun. done.
Qed.

(** More budget than needed does not change the outcome. *)
Lemma main_loop_mono fuel fuel' st st' :
  main_loop preferences fuel st = Ok st' → (fuel ≤ fuel')%nat →
  main_loop preferences fuel' st = Ok st'.
Proof.
  revert fuel' st. induction fuel as [|fuel IH]; intros fuel' st Hrun Hle.
  - destruct fuel'; simpl in *; destruct (free_proposers st); done.
  - destruct fuel' as [|fuel']; [lia|]. simpl in *.
    destruct (free_proposers st) as [|p rest]; [done|].
    destruct (loop_body preferences p rest st) as [st1| |]; simpl in *; try done.
    apply IH; [done | lia].
Qed.

(** A pass never moves a pointer backwards. *)
Lemma loop_body_advances p rest st st' q i :
  loop_body preferences p rest st = Ok st' →
  get q (proposer_index st) = Some i →
  ∃ i', get q (proposer_index st') = Some i' ∧ (i ≤ i')%nat.
Proof.
  unfold loop_body, getitem, list_getitem, list_index. intros Hrun Hq.
  assert (∀ j, get p (proposer_index st) = Some j →
            ∃ i', get q (set p (j + 1)%nat (proposer_index st)) = Some i' ∧ (i ≤ i')%nat)
    as Hset.
  { intros j Hj. rewrite get_set. case_decide as Hpq.
    - subst q. exists (j + 1)%nat. split; [done|].
      assert (i = j) by congruence. lia.
    - by exists i. }
  destruct (get p preferences) as [l|]; [|done]. simpl in Hrun.
  destruct (get p (proposer_index st)) as [j|] eqn:Hj; [|done]. simpl in Hrun.
  destruct (length l <=? j)%nat.
  { injection Hrun as <-. simpl. by exists i. }
  destruct (l !! j) as [a|]; [|done]. simpl in Hrun.
  destruct (get a (engagements st)) as [cur|].
  2:{ injection Hrun as <-. simpl. by apply Hset. }
  destruct (get a preferences) as [la|]; [|done]. simpl in Hrun.
  destruct (index_of p la) as [ip|]; [|done]. simpl in Hrun.
  destruct (index_of cur la) as [ic|]; [|done]. simpl in Hrun.
  destruct (ip <? ic)%nat; injection Hrun as <-; simpl; by apply Hset.
Qed.


(** Every engagement pairs a proposer with an acceptor, and no proposer is
    engaged twice. *)
Lemma invariant_proposals_bound st :
  Inv st → (proposals st ≤ length proposers * length acceptors)%nat.
Proof.
  intros HI. unfold proposals.
  pose proof (inv_index_keys _ _ _ _ HI) as Hkeys.
  assert (wf (proposer_index st)) as Hwf.
  { unfold wf. rewrite Hkeys. apply (pc_nodup_proposers _ _ _ Hpc). }
  assert (∀ kv, kv ∈ proposer_index st → (kv.2 ≤ length acceptors)%nat) as Hle.
  { intros [k v] Hkv. simpl. apply (inv_index_le _ _ _ _ HI k). by apply elem_get. }
  rewrite <- Hkeys. unfold keys, values. rewrite length_fmap. clear Hkeys Hwf.
  induction (proposer_index st) as [|[k v] d IH]; [simpl; lia|].
  pose proof (Hle (k, v) (list_elem_of_here _ _)) as Hv. simpl in Hv.
  assert (sum_list d.*2 ≤ length d * length acceptors)%nat as IH'.
  { apply IH. intros kv Hkv. apply Hle. by apply list_elem_of_further. }
  change (sum_list ((k, v) :: d).*2) with (v + sum_list d.*2)%nat.
  change (length ((k, v) :: d)) with (S (length d)). lia.
Qed.

Lemma initial_state_invariant (entities_a : list Entity) :
  proposers = id <$> entities_a →
  Inv (initial_state entities_a) ∧
  variant proposers acceptors (initial_state entities_a)
    = (length proposers * length acceptors + length proposers)%nat.
Proof.
  intros Hids. pose proof (pc_nodup_proposers _ _ _ Hpc) as Hnd.
  unfold initial_state. rewrite <- Hids.
  assert (((λ pid : string, (pid, 0%nat)) <$> proposers).*1 = proposers) as Hk.
  { pose proof (keys_fmap_pair (λ x : string, x) (λ _, 0%nat) proposers) as H.
    by rewrite list_fmap_id in H. }
  rewrite dict_of_NoDup by by rewrite Hk.
  split.
  - constructor; simpl; try done.
    + apply NoDup_nil_2.
    + intros p i Hi%get_Some_elem. apply list_elem_of_fmap in Hi as (q & [= -> ->] & _). lia.
    + intros p l i k a _ Hi%get_Some_elem Hlt.
      apply list_elem_of_fmap in Hi as (q & [= -> ->] & _). lia.
    + intros p Hp. by left.
  - unfold variant. simpl. by rewrite remaining_initial.
Qed.
End loop_facts.

(** ** The preference lists *)

Section preference_facts.
Import Dict DictFacts GaleShapleyMatcher.

Lemma insert_desc_perm x l : insert_desc x l ≡ₚ x :: l.
Proof.
  induction l as [|y l IH]; simpl; [done|].
  destruct (Qlt_le_dec _ _); [|done].
  rewrite IH. apply Permutation_swap.
Qed.

Lemma sort_desc_perm l : sort_desc l ≡ₚ l.
Proof.
  unfold sort_desc. induction l as [|x l IH]; simpl; [done|].
  by rewrite insert_desc_perm, IH.
Qed.

Lemma ranking_perm e others criteria : ranking e others criteria ≡ₚ id <$> others.
Proof.
  unfold ranking. rewrite sort_desc_perm.
  pose proof (keys_fmap_pair id (λ o, _calculate_similarity e o criteria) others) as H.
  unfold keys in H. by rewrite H.
Qed.

Lemma fold_set_entities {A V} (f : A → string) (g : A → V) (es : list A)
    (acc : list (string * V)) :
  NoDup (f <$> es) → (∀ k, k ∈ f <$> es → k ∉ keys acc) →
  fold_left (λ d e, set (f e) (g e) d) es acc = acc ++ ((λ e, (f e, g e)) <$> es).
Proof.
  revert acc. induction es as [|e es IH]; intros acc Hnd Hfresh; simpl.
  - by rewrite app_nil_r.
  - rewrite fmap_cons in Hnd, Hfresh. apply NoDup_cons in Hnd as [He Hnd].
    rewrite set_notin by apply Hfresh, list_elem_of_here.
    rewrite IH; [by rewrite <- app_assoc | done |].
    intros k' Hk'. unfold keys. rewrite fmap_app, elem_of_app. simpl.
    rewrite list_elem_of_singleton. intros [Hin | ->]; [|done].
    revert Hin. apply Hfresh. by apply list_elem_of_further.
Qed.

(** With identifiers that are pairwise distinct over both lists, the
    dictionary holds one ranking per entity. *)
Lemma build_preference_lists_eq entities_a entities_b criteria :
  NoDup (id <$> (entities_a ++ entities_b)) →
  _build_preference_lists entities_a entities_b criteria =
    ((λ e, (id e, ranking e entities_b criteria)) <$> entities_a) ++
    ((λ e, (id e, ranking e entities_a criteria)) <$> entities_b).
Proof.
  rewrite fmap_app. intros Hnd. apply NoDup_app in Hnd as (Ha & Hab & Hb).
  unfold _build_preference_lists.
  rewrite (fold_set_entities id (λ e, ranking e entities_b criteria) entities_a []);
    [| done | intros k _; apply not_elem_of_nil].
  rewrite (fold_set_entities id (λ e, ranking e entities_a criteria) entities_b);
    [done | done |].
  intros k Hk. simpl. rewrite keys_fmap_pair. intros Hk'. by apply (Hab k).
Qed.

Lemma build_preference_lists_complete entities_a entities_b criteria :
  NoDup (id <$> (entities_a ++ entities_b)) →
  preferences_complete (_build_preference_lists entities_a entities_b criteria)
                       (id <$> entities_a) (id <$> entities_b).
Proof.
  intros Hnd. rewrite build_preference_lists_eq by done.
  assert (wf (((λ e, (id e, ranking e entities_b criteria)) <$> entities_a) ++
              ((λ e, (id e, ranking e entities_a criteria)) <$> entities_b))) as Hwf.
  { unfold wf, keys. rewrite fmap_app.
    pose proof (keys_fmap_pair id (λ e, ranking e entities_b criteria) entities_a) as H1.
    pose proof (keys_fmap_pair id (λ e, ranking e entities_a criteria) entities_b) as H2.
    unfold keys in H1, H2. rewrite H1, H2. by rewrite <- fmap_app. }
  rewrite fmap_app in Hnd. apply NoDup_app in Hnd as (Ha & Hab & Hb).
  constructor; [done | done | |].
  - intros p (e & -> & He)%list_elem_of_fmap.
    exists (ranking e entities_b criteria). split; [|apply ranking_perm].
    apply elem_get; [done|]. apply elem_of_app. left.
    apply list_elem_of_fmap. by exists e.
  - intros a (e & -> & He)%list_elem_of_fmap.
    exists (ranking e entities_a criteria). split; [|apply ranking_perm].
    apply elem_get; [done|]. apply elem_of_app. right.
    apply list_elem_of_fmap. by exists e.
Qed.
End preference_facts.

(** ** Convergence of the stable matcher *)

Section converge_facts.
Import Dict DictFacts GaleShapleyMatcher.

Lemma converge_invariant fuel entities_a entities_b criteria :
  NoDup (id <$> (entities_a ++ entities_b)) →
  (length entities_a * length entities_b + length entities_a ≤ fuel)%nat →
  ∃ st, converge fuel entities_a entities_b criteria = Ok st ∧
        loop_invariant (_build_preference_lists entities_a entities_b criteria)
                       (id <$> entities_a) (id <$> entities_b) st ∧
        free_proposers st = [].
Proof.
  intros Hnd Hfuel.
  pose proof (build_preference_lists_complete _ _ criteria Hnd) as Hpc.
  destruct (initial_state_invariant _ _ _ Hpc entities_a eq_refl) as [HI Hvar].
  rewrite !length_fmap in Hvar.
  unfold converge. apply main_loop_terminates; [done | done | lia].
Qed.
End converge_facts.

(** ** Post-processing of the stable matcher *)

Section post_process_facts.
Import Dict DictFacts GaleShapleyMatcher.
Local Open Scope Q_scope.

Lemma entity_map_get entities_a entities_b e :
  NoDup (id <$> (entities_a ++ entities_b)) → e ∈ entities_a ++ entities_b →
  get (id e) (entity_map entities_a entities_b) = Some e.
Proof.
  intros Hnd He. unfold entity_map.
  pose proof (keys_fmap_pair id (λ e : Entity, e) (entities_a ++ entities_b)) as Hk.
  unfold keys in Hk.
  rewrite dict_of_NoDup by by rewrite Hk.
  apply elem_get; [unfold wf, keys; by rewrite Hk|].
  apply list_elem_of_fmap. by exists e.
Qed.


End post_process_facts.

(** ** Decoding the solver's answer *)

Section extract_facts.
Import HungarianMatcher.
Local Open Scope Q_scope.

Lemma Qopp_opp_eq (q : Q) : - - q = q.
Proof. destruct q as [n d]. unfold Qopp. simpl. f_equal. lia. Qed.

(** A positive score has passed the threshold when it was computed. *)
Lemma similarity_pos_above_threshold ea eb criteria :
  0 < _calculate_similarity ea eb criteria →
  min_score criteria <= _calculate_similarity ea eb criteria.
Proof.
  unfold _calculate_similarity. destruct (missing_required ea eb criteria).
  { intros H. by apply Qlt_irrefl in H. }
  destruct (Qlt_le_dec _ _) as [Hlt|Hle]; [|done].
  intros H. by apply Qlt_irrefl in H.
Qed.

Lemma pair_score_lookup entities_a entities_b criteria i j ea eb :
  entities_a !! i = Some ea → entities_b !! j = Some eb →
  pair_score entities_a entities_b criteria i j = _calculate_similarity ea eb criteria.
Proof. intros Ha Hb. unfold pair_score. by rewrite Ha, Hb. Qed.

Lemma extract_pair_spec entities_a entities_b criteria acc i j ea eb :
  entities_a !! i = Some ea → entities_b !! j = Some eb →
  extract_pair entities_a entities_b criteria
    (_calculate_cost_matrix entities_a entities_b criteria) acc (i, j) =
  Ok (if kept entities_a entities_b criteria (i, j) then
        {| ex_matches := ex_matches acc ++
             [optimal_match ea eb (_calculate_similarity ea eb criteria)];
           ex_matched_a := i :: ex_matched_a acc;
           ex_matched_b := j :: ex_matched_b acc;
           ex_total_score := ex_total_score acc + _calculate_similarity ea eb criteria |}
      else acc).
Proof.
  intros Ha Hb. unfold extract_pair, kept. simpl.
  rewrite (pair_score_lookup _ _ _ _ _ _ _ Ha Hb).
  assert (i < length entities_a)%nat as Hi by by eapply lookup_lt_Some.
  assert (j < length entities_b)%nat as Hj by by eapply lookup_lt_Some.
  apply Nat.ltb_lt in Hi, Hj. rewrite Hi, Hj. simpl.
  rewrite (cost_matrix_cell _ _ _ _ _ _ _ Ha Hb). simpl.
  rewrite Qopp_opp_eq.
  destruct (Qlt_le_dec 0 _) as [Hpos|Hle]; [|done].
  destruct (Qlt_le_dec _ (min_score criteria)) as [Hlt|Hge].
  { apply similarity_pos_above_threshold in Hpos. by apply Qle_not_lt in Hpos. }
  unfold list_getitem. rewrite Ha, Hb. done.
Qed.
End extract_facts.

(** ** Bounds and symmetry of the two scorers *)

Section scorer_facts.
Import Dict DictFacts.
Local Open Scope Q_scope.

Lemma Hungarian_similarity_bounds ea eb c :
  wf (weights c) → nonneg_weights (weights c) → wsum snd (weights c) <= 1 →
  0 <= HungarianMatcher._calculate_similarity ea eb c <= 1.
Proof.
  intros Hwf Hnn Hsum. unfold HungarianMatcher._calculate_similarity.
  destruct (missing_required ea eb c); [split; discriminate|].
  destruct (Qlt_le_dec _ _); [split; discriminate|].
  apply weighted_aggregate_bounds; auto using Hungarian_compare_bounds.
Qed.


Lemma Hungarian_similarity_comm ea eb c :
  HungarianMatcher._calculate_similarity ea eb c =
  HungarianMatcher._calculate_similarity eb ea c.
Proof.
  unfold HungarianMatcher._calculate_similarity.
  rewrite (missing_required_comm ea eb).
  by rewrite (attribute_scores_comm _ ea eb c Hungarian_compare_comm).
Qed.

Lemma GaleShapley_similarity_comm ea eb c :
  GaleShapleyMatcher._calculate_similarity ea eb c =
  GaleShapleyMatcher._calculate_similarity eb ea c.
Proof.
  unfold GaleShapleyMatcher._calculate_similarity.
  rewrite (missing_required_comm ea eb).
  by rewrite (attribute_scores_comm _ ea eb c GaleShapley_compare_comm).
Qed.
End scorer_facts.

Section extract_list_facts.
Import HungarianMatcher.
Local Open Scope Q_scope.

Lemma extract_spec entities_a entities_b criteria pairs acc :
  (∀ i j, (i, j) ∈ pairs →
     (i < length entities_a)%nat ∧ (j < length entities_b)%nat) →
  ∃ acc',
    extract entities_a entities_b criteria
      (_calculate_cost_matrix entities_a entities_b criteria) pairs acc = Ok acc' ∧
    (λ m, (entity_a_id m, entity_b_id m)) <$> ex_matches acc' =
      ((λ m, (entity_a_id m, entity_b_id m)) <$> ex_matches acc) ++
      (pair_ids entities_a entities_b <$>
         List.filter (kept entities_a entities_b criteria) pairs) ∧
    ex_total_score acc' ==
      ex_total_score acc +
      assignment_score entities_a entities_b criteria
        (List.filter (kept entities_a entities_b criteria) pairs) ∧
    (∀ i, i ∈ ex_matched_a acc' ↔
          i ∈ ex_matched_a acc ∨
          ∃ j, (i, j) ∈ pairs ∧ kept entities_a entities_b criteria (i, j) = true) ∧
    (∀ j, j ∈ ex_matched_b acc' ↔
          j ∈ ex_matched_b acc ∨
          ∃ i, (i, j) ∈ pairs ∧ kept entities_a entities_b criteria (i, j) = true).
Proof.
  revert acc. induction pairs as [|[i j] pairs IH]; intros acc Hrange.
  - exists acc. simpl. split_and!.
    + done.
    + by rewrite app_nil_r.
    + unfold assignment_score. simpl. ring.
    + intros i. split; [by left|]. intros [?|(? & ?%elem_of_nil & _)]; done.
    + intros j. split; [by left|]. intros [?|(? & ?%elem_of_nil & _)]; done.
  - destruct (Hrange i j (list_elem_of_here _ _)) as [Hi Hj].
    destruct (lookup_lt_is_Some_2 entities_a i Hi) as [ea Hea].
    destruct (lookup_lt_is_Some_2 entities_b j Hj) as [eb Heb].
    assert (∀ i' j', (i', j') ∈ pairs →
              (i' < length entities_a)%nat ∧ (j' < length entities_b)%nat) as Hrange'.
    { intros i' j' Hin. apply Hrange. by apply list_elem_of_further. }
    cbn [extract]. rewrite (extract_pair_spec _ _ _ acc i j ea eb Hea Heb).
    cbn [mbind result_bind].
    match goal with |- context [extract _ _ _ _ pairs ?acc1] =>
      destruct (IH acc1 Hrange') as (acc' & Hrun & Hms & Htot & Hma & Hmb) end.
    exists acc'. split; [exact Hrun|].
    cbn [List.filter].
    destruct (kept entities_a entities_b criteria (i, j)) eqn:Hk.
    + cbn [ex_matches ex_total_score ex_matched_a ex_matched_b] in *.
      split_and!.
      * rewrite Hms, fmap_app, <- app_assoc. f_equal. simpl.
        unfold pair_ids. simpl. by rewrite Hea, Heb.
      * rewrite Htot. unfold assignment_score. simpl.
        rewrite (pair_score_lookup _ _ _ _ _ _ _ Hea Heb). ring.
      * intros i'. rewrite Hma, elem_of_cons. split.
        -- intros [[->|?]|(j' & Hin & Hk')].
           ++ right. exists j. split; [apply list_elem_of_here | done].
           ++ by left.
           ++ right. exists j'. split; [by apply list_elem_of_further | done].
        -- intros [?|(j' & [[= -> ->]|Hin]%elem_of_cons & Hk')].
           ++ left. by right.
           ++ left. by left.
           ++ right. by exists j'.
      * intros j'. rewrite Hmb, elem_of_cons. split.
        -- intros [[->|?]|(i' & Hin & Hk')].
           ++ right. exists i. split; [apply list_elem_of_here | done].
           ++ by left.
           ++ right. exists i'. split; [by apply list_elem_of_further | done].
        -- intros [?|(i' & [[= -> ->]|Hin]%elem_of_cons & Hk')].
           ++ left. by right.
           ++ left. by left.
           ++ right. by exists i'.
    + split_and!; [done | done | |].
      * intros i'. rewrite Hma. split.
        -- intros [?|(j' & Hin & Hk')]; [by left|].
           right. exists j'. split; [by apply list_elem_of_further | done].
        -- intros [?|(j' & [[= -> ->]|Hin]%elem_of_cons & Hk')]; [by left | congruence |].
           right. by exists j'.
      * intros j'. rewrite Hmb. split.
        -- intros [?|(i' & Hin & Hk')]; [by left|].
           right. exists i'. split; [by apply list_elem_of_further | done].
        -- intros [?|(i' & [[= -> ->]|Hin]%elem_of_cons & Hk')]; [by left | congruence |].
           right. by exists i'.
Qed.
End extract_list_facts.

(** ** Costs, scores and perfect assignments *)

Section assignment_facts.
Import HungarianMatcher.
Local Open Scope Q_scope.

Lemma wsum_opp {A} (f : A → Q) (l : list A) : wsum (λ x, - f x) l == - wsum f l.
Proof. induction l as [|x l IH]; simpl; [reflexivity | rewrite IH; ring]. Qed.

Lemma wsum_sub {A} (f g : A → Q) (l : list A) :
  wsum (λ x, f x - g x) l == wsum f l - wsum g l.
Proof. induction l as [|x l IH]; simpl; [reflexivity | rewrite IH; ring]. Qed.

Lemma wsum_app {A} (f : A → Q) (l k : list A) :
  wsum f (l ++ k) == wsum f l + wsum f k.
Proof. induction l as [|x l IH]; simpl; [ring | rewrite IH; ring]. Qed.

Lemma wsum_perm {A} (f : A → Q) (l k : list A) : l ≡ₚ k → wsum f l == wsum f k.
Proof.
  induction 1 as [|x l k _ IH|x y l|l k m _ IH1 _ IH2]; simpl.
  - reflexivity.
  - by rewrite IH.
  - ring.
  - by rewrite IH1.
Qed.

Lemma wsum_submseteq {A} (f : A → Q) (l k : list A) :
  (∀ x, x ∈ k → 0 <= f x) → l ⊆+ k → wsum f l <= wsum f k.
Proof.
  intros Hpos Hsub. apply submseteq_Permutation in Hsub as [k' Hk'].
  rewrite (wsum_perm f k (l ++ k') Hk'), wsum_app.
  rewrite <- (Qplus_0_r (wsum f l)) at 1.
  apply Qplus_le_compat; [apply Qle_refl|].
  apply wsum_nonneg. intros x Hx. apply Hpos. rewrite Hk'. apply elem_of_app. by right.
Qed.

Lemma cost_of_pair_score entities_a entities_b criteria i j :
  cost_of (_calculate_cost_matrix entities_a entities_b criteria) i j =
    - pair_score entities_a entities_b criteria i j.
Proof.
  unfold cost_of, pair_score, cell, _calculate_cost_matrix.
  rewrite list_lookup_fmap. destruct (entities_a !! i) as [ea|]; simpl; [|done].
  rewrite list_lookup_fmap. by destruct (entities_b !! j) as [eb|].
Qed.

Lemma assignment_cost_score entities_a entities_b criteria cols :
  assignment_cost (_calculate_cost_matrix entities_a entities_b criteria) cols ==
    - assignment_score entities_a entities_b criteria (enumerate cols).
Proof.
  unfold assignment_cost, assignment_score.
  rewrite Qsum_wsum, wsum_fmap, <- wsum_opp.
  apply wsum_ext. intros [i j] _. simpl. by rewrite cost_of_pair_score.
Qed.

Lemma enumerate_range (cols : list nat) n i j :
  cols ≡ₚ seq 0 n → (i, j) ∈ enumerate cols → (i < n)%nat ∧ (j < n)%nat.
Proof.
  intros Hperm Hij%elem_of_enumerate. split.
  - apply lookup_lt_Some in Hij. by rewrite Hperm, length_seq in Hij.
  - assert (j ∈ seq 0 n) as Hj by (rewrite <- Hperm; by eapply list_elem_of_lookup_2).
    apply elem_of_seq in Hj. lia.
Qed.

(** Without padding every permutation is a perfect assignment through finite
    entries. *)
Lemma square_all_feasible entities_a entities_b criteria cols :
  length entities_a = length entities_b →
  cols ≡ₚ seq 0 (length entities_a) →
  feasible (length entities_a)
    (_calculate_cost_matrix entities_a entities_b criteria) cols.
Proof.
  intros Hlen Hperm. split; [done|].
  unfold assignment_finite. apply forallb_forall. intros [i j] Hij%list_elem_of_In.
  destruct (enumerate_range cols _ i j Hperm Hij) as [Hi Hj]. simpl.
  destruct (lookup_lt_is_Some_2 entities_a i Hi) as [ea Hea].
  destruct (lookup_lt_is_Some_2 entities_b j ltac:(lia)) as [eb Heb].
  unfold finite_at. by rewrite (cost_matrix_cell _ _ _ _ _ _ _ Hea Heb).
Qed.

Lemma enumerate_fst {A} (l : list A) : (enumerate l).*1 = seq 0 (length l).
Proof. unfold enumerate. apply fst_zip. by rewrite length_seq. Qed.

Lemma enumerate_snd {A} (l : list A) : (enumerate l).*2 = l.
Proof. unfold enumerate. apply snd_zip. by rewrite length_seq. Qed.

Lemma zip_diag {A} (l : list A) : zip l l = (λ x, (x, x)) <$> l.
Proof. induction l as [|x l IH]; simpl; [done | f_equal; apply IH]. Qed.

Lemma enumerate_seq n : enumerate (seq 0 n) = (λ i, (i, i)) <$> seq 0 n.
Proof. unfold enumerate. rewrite length_seq. apply zip_diag. Qed.
End assignment_facts.

Section square_facts.
Import HungarianMatcher.
Local Open Scope Q_scope.

(** The call on two lists of equal length, decoded. *)
Lemma match_square solver entities_a entities_b criteria :
  solver_contract solver →
  entities_a ≠ [] → length entities_a = length entities_b →
  ∃ cols res matched_a matched_b,
    cols ≡ₚ seq 0 (length entities_a) ∧
    (∀ cols', cols' ≡ₚ seq 0 (length entities_a) →
       assignment_score entities_a entities_b criteria (enumerate cols') <=
       assignment_score entities_a entities_b criteria (enumerate cols)) ∧
    match_ solver entities_a entities_b criteria = Ok res ∧
    matching_pairs res =
      pair_ids entities_a entities_b <$>
        List.filter (kept entities_a entities_b criteria) (enumerate cols) ∧
    total_score res ==
      assignment_score entities_a entities_b criteria
        (List.filter (kept entities_a entities_b criteria) (enumerate cols)) ∧
    unmatched_entities res =
      unmatched_of entities_a matched_a ++ unmatched_of entities_b matched_b ∧
    (∀ i, i ∈ matched_a ↔
          ∃ j, (i, j) ∈ enumerate cols ∧ kept entities_a entities_b criteria (i, j) = true) ∧
    (∀ j, j ∈ matched_b ↔
          ∃ i, (i, j) ∈ enumerate cols ∧ kept entities_a entities_b criteria (i, j) = true).
Proof.
  intros Hsolver Ha Hlen.
  assert (entities_b ≠ []) as Hb.
  { intros ->. destruct entities_a; [done | simpl in Hlen; lia]. }
  rewrite match_nonempty by done. rewrite <- Hlen, pad_same. cbn zeta.
  pose proof (cost_matrix_shape entities_a entities_b criteria) as Hshape.
  rewrite <- Hlen in Hshape.
  pose proof (Hsolver _ _ Hshape) as Hres.
  destruct (solver _) as [[rows cols]|e|]; [| |done].
  2:{ destruct Hres as [_ Hno]. exfalso.
      apply (Hno (seq 0 (length entities_a))). by apply square_all_feasible. }
  destruct Hres as (-> & [Hperm Hfin] & Hmin).
  assert (zip (seq 0 (length entities_a)) cols = enumerate cols) as Hzip.
  { unfold enumerate. assert (length cols = length entities_a) as ->; [|done].
    by rewrite Hperm, length_seq. }
  cbn [mbind result_bind]. rewrite Hzip.
  destruct (extract_spec entities_a entities_b criteria (enumerate cols)
              {| ex_matches := []; ex_matched_a := []; ex_matched_b := [];
                 ex_total_score := 0 |})
    as (acc & Hrun & Hms & Htot & Hma & Hmb).
  { intros i j Hij. destruct (enumerate_range cols _ i j Hperm Hij). lia. }
  rewrite Hrun. cbn [mbind result_bind].
  exists cols. eexists. exists (ex_matched_a acc), (ex_matched_b acc).
  split_and!; [done | | done | exact Hms | | done | |].
  - intros cols' Hperm'.
    specialize (Hmin cols' (square_all_feasible _ _ criteria cols' Hlen Hperm')).
    rewrite !assignment_cost_score in Hmin.
    apply Qopp_le_compat in Hmin. by rewrite !Qopp_involutive in Hmin.
  - cbn [total_score]. rewrite Htot. cbn [ex_total_score]. ring.
  - intros i. rewrite Hma. cbn [ex_matched_a]. split.
    + intros [?%elem_of_nil|?]; done.
    + by right.
  - intros j. rewrite Hmb. cbn [ex_matched_b]. split.
    + intros [?%elem_of_nil|?]; done.
    + by right.
Qed.
End square_facts.

(** ** Completing a partial assignment *)

Section extension_facts.
Import Dict DictFacts.

Lemma complement_perm (l : list nat) (n : nat) :
  NoDup l → (∀ x, x ∈ l → (x < n)%nat) →
  l ++ filter (λ x, x ∉ l) (seq 0 n) ≡ₚ seq 0 n.
Proof.
  intros Hnd Hlt. apply NoDup_Permutation.
  - apply NoDup_app. split_and!; [done | | apply NoDup_filter, NoDup_seq].
    intros x Hx [Hnx _]%list_elem_of_filter. done.
  - apply NoDup_seq.
  - intros x. rewrite elem_of_app, list_elem_of_filter, elem_of_seq. split.
    + intros [Hx | [_ Hx]]; [|done]. specialize (Hlt x Hx). lia.
    + intros Hx. destruct (decide (x ∈ l)); [by left | by right].
Qed.

(** A one-to-one set of pairs inside an [n x n] grid is part of (the graph
    of) a permutation of [0 .. n-1]. *)
Lemma extend_to_permutation (pairs : list (nat * nat)) (n : nat) :
  NoDup pairs.*1 → NoDup pairs.*2 →
  (∀ i j, (i, j) ∈ pairs → (i < n)%nat ∧ (j < n)%nat) →
  ∃ cols, cols ≡ₚ seq 0 n ∧ ∀ i j, (i, j) ∈ pairs → cols !! i = Some j.
Proof.
  intros Hrows Hcols Hrange.
  set (R := filter (λ x, x ∉ pairs.*1) (seq 0 n)).
  set (C := filter (λ x, x ∉ pairs.*2) (seq 0 n)).
  assert (pairs.*1 ++ R ≡ₚ seq 0 n) as HR.
  { apply complement_perm; [done|].
    intros x ([i j] & -> & Hin)%list_elem_of_fmap. by apply (Hrange i j). }
  assert (pairs.*2 ++ C ≡ₚ seq 0 n) as HC.
  { apply complement_perm; [done|].
    intros x ([i j] & -> & Hin)%list_elem_of_fmap. by apply (Hrange i j). }
  assert (length R = length C) as Hlen.
  { apply Permutation_length in HR, HC.
    rewrite length_app, length_fmap in HR. rewrite length_app, length_fmap in HC. lia. }
  set (P' := pairs ++ zip R C).
  assert (P'.*1 = pairs.*1 ++ R) as H1.
  { unfold P'. rewrite fmap_app. f_equal. apply fst_zip. lia. }
  assert (P'.*2 = pairs.*2 ++ C) as H2.
  { unfold P'. rewrite fmap_app. f_equal. apply snd_zip. lia. }
  assert (wf P') as Hwf.
  { unfold wf, keys. rewrite H1, HR. apply NoDup_seq. }
  set (Q := (λ i, (i, default 0%nat (get i P'))) <$> seq 0 n).
  assert (Q ≡ₚ P') as HQ.
  { apply NoDup_Permutation.
    - apply (NoDup_fmap_1 fst). unfold Q. rewrite <- list_fmap_compose.
      assert (fst ∘ (λ i, (i, default 0%nat (get i P'))) <$> seq 0 n = seq 0 n) as ->.
      { clear. induction (seq 0 n) as [|x l IH]; simpl; [done | f_equal; apply IH]. }
      apply NoDup_seq.
    - by apply (NoDup_fmap_1 fst).
    - intros [i j]. unfold Q. rewrite list_elem_of_fmap. split.
      + intros (i' & [= -> ->] & Hi).
        assert (i' ∈ keys P') as Hk.
        { unfold keys. by rewrite H1, HR. }
        destruct (get i' P') as [j|] eqn:Hg.
        * simpl. by apply get_Some_elem.
        * by apply get_None in Hg.
      + intros Hin. exists i. split.
        * by rewrite (elem_get i j P' Hwf Hin).
        * rewrite <- HR, <- H1. apply list_elem_of_fmap. by exists (i, j). }
  exists (Q.*2). split.
  - rewrite HQ, H2. exact HC.
  - intros i j Hin. unfold Q. rewrite <- list_fmap_compose, list_lookup_fmap.
    destruct (Hrange i j Hin) as [Hi _].
    rewrite lookup_seq_lt by done. simpl.
    rewrite (elem_get i j P' Hwf); [done|]. unfold P'. apply elem_of_app. by left.
Qed.
End extension_facts.

Section optimality_facts.
Import HungarianMatcher.
Local Open Scope Q_scope.

Lemma assignment_score_kept entities_a entities_b criteria pairs :
  (∀ i j, 0 <= pair_score entities_a entities_b criteria i j) →
  assignment_score entities_a entities_b criteria
    (List.filter (kept entities_a entities_b criteria) pairs) ==
  assignment_score entities_a entities_b criteria pairs.
Proof.
  intros Hpos. unfold assignment_score.
  induction pairs as [|[i j] pairs IH]; [reflexivity|].
  cbn [List.filter]. unfold kept at 1. cbn [fst snd].
  destruct (Qlt_le_dec _ _) as [Hlt|Hle]; cbn [wsum fst snd].
  - by rewrite IH.
  - rewrite IH. assert (pair_score entities_a entities_b criteria i j == 0) as ->.
    { by apply Qle_antisym. }
    ring.
Qed.

Lemma pair_score_nonneg entities_a entities_b criteria i j :
  Dict.wf (weights criteria) → nonneg_weights (weights criteria) →
  wsum snd (weights criteria) <= 1 →
  0 <= pair_score entities_a entities_b criteria i j.
Proof.
  intros Hwf Hnn Hsum. unfold pair_score.
  destruct (entities_a !! i) as [ea|]; [|apply Qle_refl].
  destruct (entities_b !! j) as [eb|]; [|apply Qle_refl].
  by apply Hungarian_similarity_bounds.
Qed.

(** On lists of equal length the reported total is the largest total any
    one-to-one set of pairs can reach. *)
Lemma match_square_optimal solver entities_a entities_b criteria :
  solver_contract solver →
  Dict.wf (weights criteria) → nonneg_weights (weights criteria) →
  wsum snd (weights criteria) <= 1 →
  entities_a ≠ [] → length entities_a = length entities_b →
  ∃ res, match_ solver entities_a entities_b criteria = Ok res ∧
    ∀ pairs, feasible_assignment entities_a entities_b criteria pairs →
      assignment_score entities_a entities_b criteria pairs <= total_score res.
Proof.
  intros Hsolver Hwf Hnn Hsum Ha Hlen.
  destruct (match_square solver entities_a entities_b criteria Hsolver Ha Hlen)
    as (cols & res & ma & mb & Hperm & Hmax & Hrun & _ & Htot & _).
  exists res. split; [done|]. intros pairs [Hrows Hcols Hrange _].
  assert (∀ i j, 0 <= pair_score entities_a entities_b criteria i j) as Hpos.
  { intros i j. by apply pair_score_nonneg. }
  rewrite Htot, assignment_score_kept by done.
  destruct (extend_to_permutation pairs (length entities_a) Hrows Hcols)
    as (cols' & Hperm' & Hext).
  { intros i j Hij. destruct (Hrange i j Hij). lia. }
  eapply Qle_trans; [|by apply Hmax].
  apply wsum_submseteq.
  - intros [i j] _. apply Hpos.
  - apply NoDup_submseteq; [by apply (NoDup_fmap_1 fst)|].
    intros [i j] Hij. apply elem_of_enumerate. by apply Hext.
Qed.
End optimality_facts.

(** ** Diagonally dominant instances: the optimal matcher *)

Section dominant_optimal_facts.
Import HungarianMatcher.
Local Open Scope Q_scope.

Lemma diagonal_ids (entities_a entities_b : list Entity) :
  length entities_a = length entities_b →
  pair_ids entities_a entities_b <$> enumerate (seq 0 (length entities_a)) =
    zip (id <$> entities_a) (id <$> entities_b).
Proof.
  intros Hlen. rewrite enumerate_seq, <- list_fmap_compose.
  apply list_eq. intros i. rewrite list_lookup_fmap.
  destruct (decide (i < length entities_a)%nat) as [Hi|Hi].
  - rewrite lookup_seq_lt by done. simpl. unfold pair_ids. simpl.
    destruct (lookup_lt_is_Some_2 entities_a i Hi) as [ea Hea].
    destruct (lookup_lt_is_Some_2 entities_b i ltac:(lia)) as [eb Heb].
    rewrite Hea, Heb. simpl. symmetry. apply lookup_zip_with_Some.
    exists (id ea), (id eb). by rewrite !list_lookup_fmap, Hea, Heb.
  - rewrite lookup_seq_ge by lia. simpl. symmetry.
    apply lookup_zip_with_None. left.
    rewrite list_lookup_fmap, lookup_ge_None_2; [done | lia].
Qed.

(** Under diagonal dominance the identity is the only best assignment. *)
Lemma dominant_assignment_identity entities_a entities_b criteria cols :
  diagonally_dominant (λ ea eb, _calculate_similarity ea eb criteria)
                      entities_a entities_b →
  cols ≡ₚ seq 0 (length entities_a) →
  assignment_score entities_a entities_b criteria (enumerate (seq 0 (length entities_a)))
    <= assignment_score entities_a entities_b criteria (enumerate cols) →
  cols = seq 0 (length entities_a).
Proof.
  intros [Hlen Hdom] Hperm Hle.
  assert (length cols = length entities_a) as Hcl by by rewrite Hperm, length_seq.
  set (S := pair_score entities_a entities_b criteria).
  assert (wsum (λ ij, S ij.1 ij.1 - S ij.1 ij.2) (enumerate cols) <= 0) as Hsum.
  { rewrite wsum_sub.
    assert (wsum (λ ij : nat * nat, S ij.1 ij.1) (enumerate cols) ==
            assignment_score entities_a entities_b criteria
              (enumerate (seq 0 (length entities_a)))) as ->.
    { unfold assignment_score. rewrite enumerate_seq, wsum_fmap. simpl.
      rewrite <- (wsum_fmap fst (λ i, S i i)), enumerate_fst, Hcl. reflexivity. }
    change (wsum (λ ij : nat * nat, S ij.1 ij.2) (enumerate cols))
      with (assignment_score entities_a entities_b criteria (enumerate cols)).
    lra. }
  assert (∀ i j, (i, j) ∈ enumerate cols → i ≠ j → S i j < S i i) as Hstrict.
  { intros i j Hij Hne.
    destruct (enumerate_range cols _ i j Hperm Hij) as [Hi Hj].
    destruct (lookup_lt_is_Some_2 entities_a i Hi) as [ea Hea].
    destruct (lookup_lt_is_Some_2 entities_b i ltac:(lia)) as [eb Heb].
    destruct (lookup_lt_is_Some_2 entities_a j Hj) as [ea' Hea'].
    destruct (lookup_lt_is_Some_2 entities_b j ltac:(lia)) as [eb' Heb'].
    unfold S. rewrite (pair_score_lookup _ _ _ _ _ _ _ Hea Heb').
    rewrite (pair_score_lookup _ _ _ _ _ _ _ Hea Heb).
    by apply (Hdom i j ea eb ea' eb'). }
  assert (∀ ij, ij ∈ enumerate cols → ij.2 = ij.1) as Hdiag.
  { intros [i j] Hij. simpl.
    destruct (decide (i = j)) as [|Hne]; [done|]. exfalso.
    assert (∀ ij, ij ∈ enumerate cols → 0 <= S ij.1 ij.1 - S ij.1 ij.2) as Hpos.
    { intros [i' j'] Hin. simpl.
      destruct (decide (i' = j')) as [->|Hne']; [lra|].
      pose proof (Hstrict i' j' Hin Hne'). lra. }
    pose proof (wsum_zero_inv (λ ij, S ij.1 ij.1 - S ij.1 ij.2) (enumerate cols)
                  Hpos Hsum (i, j) Hij) as Hz.
    simpl in Hz. specialize (Hstrict i j Hij Hne). lra. }
  apply list_eq. intros i.
  destruct (cols !! i) as [j|] eqn:Hi.
  - pose proof (Hdiag (i, j) (proj2 (elem_of_enumerate cols i j) Hi)) as Hj.
    simpl in Hj. subst j. symmetry. apply lookup_seq. split; [done|].
    apply lookup_lt_Some in Hi. lia.
  - symmetry. apply lookup_seq_ge. apply lookup_ge_None in Hi. lia.
Qed.
End dominant_optimal_facts.

Section dominant_optimal_result.
Import HungarianMatcher.
Local Open Scope Q_scope.

Lemma filter_all_true {A} (f : A → bool) (l : list A) :
  (∀ x, x ∈ l → f x = true) → List.filter f l = l.
Proof.
  induction l as [|x l IH]; intros H; simpl; [done|].
  rewrite (H x) by apply list_elem_of_here. f_equal. apply IH.
  intros y Hy. apply H. by apply list_elem_of_further.
Qed.

Lemma filter_all_false {A} (f : A → bool) (l : list A) :
  (∀ x, x ∈ l → f x = false) → List.filter f l = [].
Proof.
  induction l as [|x l IH]; intros H; simpl; [done|].
  rewrite (H x) by apply list_elem_of_here. apply IH.
  intros y Hy. apply H. by apply list_elem_of_further.
Qed.

Lemma unmatched_of_all (entities : list Entity) (matched : list nat) :
  (∀ i, (i < length entities)%nat → i ∈ matched) → unmatched_of entities matched = [].
Proof.
  intros Hall. unfold unmatched_of. rewrite filter_all_false; [done|].
  intros [i e] Hie%elem_of_enumerate. simpl.
  rewrite bool_decide_eq_true_2; [done|]. apply Hall. by eapply lookup_lt_Some.
Qed.

(** The optimal matcher on a diagonally dominant instance whose diagonal
    scores are positive: every entity is paired with its counterpart. *)
Lemma dominant_optimal_matching solver entities_a entities_b criteria :
  solver_contract solver → entities_a ≠ [] →
  diagonally_dominant (λ ea eb, _calculate_similarity ea eb criteria)
                      entities_a entities_b →
  (∀ i ea eb, entities_a !! i = Some ea → entities_b !! i = Some eb →
     0 < _calculate_similarity ea eb criteria) →
  ∃ res, match_ solver entities_a entities_b criteria = Ok res ∧
         matching_pairs res = zip (id <$> entities_a) (id <$> entities_b) ∧
         unmatched_entities res = [].
Proof.
  intros Hsolver Ha Hdom Hpos. pose proof (proj1 Hdom) as Hlen.
  destruct (match_square solver entities_a entities_b criteria Hsolver Ha Hlen)
    as (cols & res & ma & mb & Hperm & Hmax & Hrun & Hpairs & _ & Hun & Hma & Hmb).
  assert (cols = seq 0 (length entities_a)) as ->.
  { apply (dominant_assignment_identity entities_a entities_b criteria);
      [done | done |].
    apply Hmax. done. }
  assert (∀ i, (i < length entities_a)%nat →
            (i, i) ∈ enumerate (seq 0 (length entities_a)) ∧
            kept entities_a entities_b criteria (i, i) = true) as Hkept.
  { intros i Hi. split.
    - apply elem_of_enumerate. by apply lookup_seq_lt.
    - destruct (lookup_lt_is_Some_2 entities_a i Hi) as [ea Hea].
      destruct (lookup_lt_is_Some_2 entities_b i ltac:(lia)) as [eb Heb].
      unfold kept. simpl. rewrite (pair_score_lookup _ _ _ _ _ _ _ Hea Heb).
      destruct (Qlt_le_dec _ _) as [_|Hle]; [done|].
      specialize (Hpos i ea eb Hea Heb). by apply Qle_not_lt in Hle. }
  exists res. split_and!; [done | |].
  - rewrite Hpairs, filter_all_true; [by apply diagonal_ids|].
    intros [i j] Hij. pose proof Hij as Hij'.
    apply elem_of_enumerate, lookup_seq in Hij' as [-> Hi]. simpl.
    by apply Hkept.
  - rewrite Hun, !unmatched_of_all; [done | |].
    + intros j Hj. apply Hmb. exists j. apply Hkept. lia.
    + intros i Hi. apply Hma. exists i. by apply Hkept.
Qed.
End dominant_optimal_result.

(** ** Diagonally dominant instances: the stable matcher *)

Section dominant_stable_facts.
Import Dict DictFacts GaleShapleyMatcher.
Local Open Scope Q_scope.

Lemma insert_desc_top x l :
  (∀ y, y ∈ l → y.2 < x.2) → insert_desc x l = x :: l.
Proof.
  destruct l as [|z l]; [done|]. intros Hlt. simpl.
  destruct (Qlt_le_dec _ _) as [Hxz|_]; [|done].
  specialize (Hlt z (list_elem_of_here _ _)). lra.
Qed.

(** The entry with the strictly largest score heads the sorted list. *)
Lemma sort_desc_top l i x :
  l !! i = Some x → (∀ j y, j ≠ i → l !! j = Some y → y.2 < x.2) →
  ∃ rest, sort_desc l = x :: rest.
Proof.
  revert i. induction l as [|y l IH]; intros i Hi Hlt; [done|].
  change (sort_desc (y :: l)) with (insert_desc y (sort_desc l)).
  destruct i as [|i]; simpl in Hi.
  - injection Hi as ->. exists (sort_desc l). apply insert_desc_top.
    intros z Hz. rewrite sort_desc_perm in Hz.
    apply list_elem_of_lookup in Hz as [j Hj]. by apply (Hlt (S j) z).
  - destruct (IH i Hi) as [rest Hrest].
    { intros j z Hne Hj. apply (Hlt (S j) z); [lia | done]. }
    rewrite Hrest. simpl.
    destruct (Qlt_le_dec _ _) as [_|Hle]; [by eexists|].
    specialize (Hlt 0%nat y ltac:(lia) eq_refl). lra.
Qed.

Lemma ranking_top e others criteria i o :
  others !! i = Some o →
  (∀ j o', j ≠ i → others !! j = Some o' →
     _calculate_similarity e o' criteria < _calculate_similarity e o criteria) →
  ∃ rest, ranking e others criteria = id o :: rest.
Proof.
  intros Hi Hlt. unfold ranking.
  destruct (sort_desc_top
              ((λ o, (id o, _calculate_similarity e o criteria)) <$> others) i
              (id o, _calculate_similarity e o criteria)) as [rest Hrest].
  - by rewrite list_lookup_fmap, Hi.
  - intros j y Hne. rewrite list_lookup_fmap.
    destruct (others !! j) as [o'|] eqn:Hj; [|done]. intros [= <-]. simpl.
    by apply (Hlt j).
  - rewrite Hrest. by eexists.
Qed.

Lemma preferences_get_proposer entities_a entities_b criteria e :
  NoDup (id <$> (entities_a ++ entities_b)) → e ∈ entities_a →
  get (id e) (_build_preference_lists entities_a entities_b criteria) =
    Some (ranking e entities_b criteria).
Proof.
  intros Hnd He.
  pose proof (build_preference_lists_complete _ _ criteria Hnd) as Hpc.
  rewrite build_preference_lists_eq by done.
  apply elem_get.
  - unfold wf, keys. rewrite fmap_app.
    pose proof (keys_fmap_pair id (λ e, ranking e entities_b criteria) entities_a) as H1.
    pose proof (keys_fmap_pair id (λ e, ranking e entities_a criteria) entities_b) as H2.
    unfold keys in H1, H2. rewrite H1, H2. by rewrite <- fmap_app.
  - apply elem_of_app. left. apply list_elem_of_fmap. by exists e.
Qed.

Lemma main_loop_step preferences fuel st p rest :
  free_proposers st = p :: rest →
  main_loop preferences (S fuel) st =
    loop_body preferences p rest st ≫= main_loop preferences fuel.
Proof. intros Hfree. simpl. by rewrite Hfree. Qed.

Lemma loop_body_engage preferences p rest st l a :
  get p preferences = Some (a :: l) → get p (proposer_index st) = Some 0%nat →
  get a (engagements st) = None →
  loop_body preferences p rest st =
    Ok {| free_proposers := rest;
          engagements := set a p (engagements st);
          proposer_index := set p (0 + 1)%nat (proposer_index st) |}.
Proof.
  intros Hl Hi Hfree. unfold loop_body, getitem, list_getitem.
  rewrite Hl, Hi. simpl. by rewrite Hfree.
Qed.

(** When every queued proposer has a still-free first choice of its own, the
    loop engages them one after the other. *)
Lemma dominant_run preferences (A1 A2 B1 B2 : list Entity) index fuel :
  NoDup (id <$> (A1 ++ A2)) → NoDup (id <$> (B1 ++ B2)) →
  length A1 = length B1 → length A2 = length B2 →
  (∀ k a b, A2 !! k = Some a → B2 !! k = Some b →
     ∃ rest, get (id a) preferences = Some (id b :: rest)) →
  (∀ a, a ∈ A2 → get (id a) index = Some 0%nat) →
  (length A2 ≤ fuel)%nat →
  ∃ index',
    main_loop preferences fuel
      {| free_proposers := id <$> A2;
         engagements := zip (id <$> B1) (id <$> A1);
         proposer_index := index |}
    = Ok {| free_proposers := [];
            engagements := zip (id <$> (B1 ++ B2)) (id <$> (A1 ++ A2));
            proposer_index := index' |}.
Proof.
  revert A1 B1 B2 index fuel.
  induction A2 as [|a A2 IH]; intros A1 B1 B2 index fuel HndA HndB Hl1 Hl2 Htop Hidx Hfuel.
  - destruct B2; [|done]. exists index. rewrite !app_nil_r.
    by destruct fuel.
  - destruct B2 as [|b B2]; [done|]. destruct fuel as [|fuel]; [simpl in Hfuel; lia|].
    destruct (Htop 0%nat a b eq_refl eq_refl) as [rest Hrest].
    assert (get (id b) (zip (id <$> B1) (id <$> A1)) = None) as Hfree.
    { apply get_None. unfold keys. rewrite fst_zip by (rewrite !length_fmap; lia).
      rewrite fmap_app in HndB. apply NoDup_app in HndB as (_ & Hd & _).
      intros Hin. apply (Hd (id b) Hin). rewrite fmap_cons. apply list_elem_of_here. }
    rewrite (main_loop_step preferences fuel _ (id a) (id <$> A2)) by done.
    rewrite (loop_body_engage preferences (id a) (id <$> A2) _ rest (id b));
      [| done | apply Hidx, list_elem_of_here | done].
    cbn [mbind result_bind engagements proposer_index].
    rewrite set_notin by by apply get_None.
    assert (zip (id <$> B1) (id <$> A1) ++ [(id b, id a)] =
            zip (id <$> (B1 ++ [b])) (id <$> (A1 ++ [a]))) as ->.
    { rewrite !fmap_app. rewrite zip_with_app by (rewrite !length_fmap; lia). done. }
    destruct (IH (A1 ++ [a]) (B1 ++ [b]) B2
                (set (id a) (0 + 1)%nat index) fuel) as [index' Hrun].
    + by rewrite <- app_assoc.
    + by rewrite <- app_assoc.
    + rewrite !length_app. simpl. lia.
    + simpl in Hl2. lia.
    + intros k a' b' Ha' Hb'. by apply (Htop (S k) a' b').
    + intros a' Ha'. rewrite get_set_ne; [apply Hidx; by apply list_elem_of_further|].
      rewrite fmap_app in HndA. apply NoDup_app in HndA as (_ & _ & Hd).
      rewrite fmap_cons in Hd. apply NoDup_cons in Hd as [Hnin _].
      intros Heq. apply Hnin. rewrite Heq. apply list_elem_of_fmap. by exists a'.
    + simpl in Hfuel. lia.
    + exists index'. rewrite <- !app_assoc in Hrun. exact Hrun.
Qed.
End dominant_stable_facts.

Section dominant_stable_result.
Import Dict DictFacts GaleShapleyMatcher.
Local Open Scope Q_scope.

Lemma build_matches_all_kept emap criteria items acc :
  (∀ a p, (a, p) ∈ items →
     ∃ ea eb, get p emap = Some ea ∧ get a emap = Some eb ∧
              min_score criteria <= _calculate_similarity ea eb criteria) →
  ∃ ms total,
    build_matches emap criteria items acc = Ok (acc.1 ++ ms, total) ∧
    (λ m, (entity_a_id m, entity_b_id m)) <$> ms = (λ ap, (ap.2, ap.1)) <$> items.
Proof.
  revert acc. induction items as [|[a p] items IH]; intros acc Hall.
  - exists [], acc.2. simpl. rewrite app_nil_r. by destruct acc.
  - destruct (Hall a p (list_elem_of_here _ _)) as (ea & eb & Hea & Heb & Hle).
    cbn [build_matches]. unfold getitem. rewrite Hea, Heb. cbn [mbind result_bind].
    destruct (Qlt_le_dec _ _) as [Hlt|_]; [by apply Qle_not_lt in Hle|].
    match goal with |- context [build_matches _ _ items ?acc1] =>
      destruct (IH acc1) as (ms & total & Hrun & Hms) end.
    { intros a' p' Hin. apply Hall. by apply list_elem_of_further. }
    cbn [fst] in Hrun. rewrite <- app_assoc in Hrun.
    eexists (_ :: ms), total. split; [exact Hrun|].
    rewrite !fmap_cons. by rewrite Hms.
Qed.

Lemma swap_zip {A B} (l : list A) (k : list B) :
  (λ ap, (ap.2, ap.1)) <$> zip l k = zip k l.
Proof.
  revert k. induction l as [|x l IH]; intros [|y k]; simpl; try done.
  f_equal. apply IH.
Qed.

(** The stable matcher on a diagonally dominant instance whose diagonal
    scores reach the threshold: every entity is paired with its
    counterpart. *)
Lemma dominant_stable_matching fuel entities_a entities_b criteria :
  NoDup (id <$> (entities_a ++ entities_b)) → entities_a ≠ [] →
  diagonally_dominant (λ ea eb, _calculate_similarity ea eb criteria)
                      entities_a entities_b →
  (∀ i ea eb, entities_a !! i = Some ea → entities_b !! i = Some eb →
     min_score criteria <= _calculate_similarity ea eb criteria) →
  (length entities_a ≤ fuel)%nat →
  ∃ res, match_ fuel entities_a entities_b criteria = Ok res ∧
         matching_pairs res = zip (id <$> entities_a) (id <$> entities_b) ∧
         unmatched_entities res = [].
Proof.
  intros Hnd Ha [Hlen Hdom] Hmin Hfuel.
  assert (entities_b ≠ []) as Hb.
  { intros ->. destruct entities_a; [done | simpl in Hlen; lia]. }
  pose proof Hnd as Hnd'. rewrite fmap_app in Hnd'.
  apply NoDup_app in Hnd' as (HndA & Hdisj & HndB).
  (* the loop *)
  destruct (dominant_run (_build_preference_lists entities_a entities_b criteria)
              [] entities_a [] entities_b
              (dict_of ((λ pid, (pid, 0%nat)) <$> (id <$> entities_a))) fuel)
    as [index' Hloop]; try done.
  { intros k a b Hka Hkb.
    rewrite (preferences_get_proposer entities_a entities_b criteria a Hnd)
      by by eapply list_elem_of_lookup_2.
    destruct (ranking_top a entities_b criteria k b Hkb) as [rest Hrest].
    - intros j o' Hne Hj.
      destruct (lookup_lt_is_Some_2 entities_a j) as [ea' Hea'].
      { apply lookup_lt_Some in Hj. lia. }
      by apply (Hdom k j a b ea' o').
    - exists rest. by rewrite Hrest. }
  { intros a Hin.
    pose proof (keys_fmap_pair (λ x : string, x) (λ _, 0%nat) (id <$> entities_a)) as Hk.
    rewrite list_fmap_id in Hk. unfold keys in Hk.
    rewrite dict_of_NoDup by by rewrite Hk.
    apply elem_get; [unfold wf, keys; by rewrite Hk|].
    apply list_elem_of_fmap. exists (id a). split; [done|].
    apply list_elem_of_fmap. by exists a. }
  (* the filter *)
  destruct (build_matches_all_kept (entity_map entities_a entities_b) criteria
              (zip (id <$> entities_b) (id <$> entities_a)) ([], 0))
    as (ms & total & Hrun & Hms).
  { intros a p (i & a' & p' & [= <- <-] & Hia & Hip)%elem_of_lookup_zip_with.
    rewrite list_lookup_fmap in Hia, Hip.
    destruct (entities_b !! i) as [eb|] eqn:Heb; [|done].
    destruct (entities_a !! i) as [ea|] eqn:Hea; [|done].
    simpl in Hia, Hip. injection Hia as <-. injection Hip as <-.
    exists ea, eb. split_and!.
    - apply entity_map_get; [done|]. apply elem_of_app. left.
      by eapply list_elem_of_lookup_2.
    - apply entity_map_get; [done|]. apply elem_of_app. right.
      by eapply list_elem_of_lookup_2.
    - by apply (Hmin i). }
  unfold match_. destruct entities_a as [|a0 A]; [done|].
  destruct entities_b as [|b0 B]; [done|].
  cbn [is_empty orb]. unfold converge, initial_state.
  cbn [app] in Hloop.
  change (zip (id <$> []) (id <$> [])) with (@nil (string * string)) in Hloop.
  rewrite Hloop. cbn [mbind result_bind].
  unfold post_process. cbn [engagements]. rewrite Hrun. cbn [mbind result_bind fst].
  eexists. split; [done|]. unfold matching_pairs. cbn [matches unmatched_entities].
  rewrite app_nil_l, Hms, swap_zip. split; [done|].
  rewrite filter_all_false; [done|]. intros e He.
  rewrite bool_decide_eq_true_2; [done|].
  unfold matched_ids.
  assert (entity_a_id <$> ms = id <$> (a0 :: A)) as ->.
  { transitivity (((λ m, (entity_a_id m, entity_b_id m)) <$> ms).*1).
    - by rewrite <- list_fmap_compose.
    - rewrite Hms, swap_zip. apply fst_zip. rewrite !length_fmap. lia. }
  assert (entity_b_id <$> ms = id <$> (b0 :: B)) as ->.
  { transitivity (((λ m, (entity_a_id m, entity_b_id m)) <$> ms).*2).
    - by rewrite <- list_fmap_compose.
    - rewrite Hms, swap_zip. apply snd_zip. rewrite !length_fmap. lia. }
  rewrite <- fmap_app. apply list_elem_of_fmap. by exists e.
Qed.
End dominant_stable_result.

(** ** Concrete runs *)

Section examples.
Import Dict.

(** The one-pair case of the design document: equal experience, weight 1,
    threshold 0.5. *)
Example obvious_pair_optimal :
  let X := sample_entity "X" [("experience_years", VNum 5)] in
  let Y := sample_entity "Y" [("experience_years", VNum 5)] in
  (λ r, (matching_pairs r, unmatched_entities r)) <$>
    HungarianMatcher.match_ exhaustive_assignment [X] [Y] experience_only
  = Ok ([("X", "Y")], []).
Proof. vm_compute. reflexivity. Qed.

Example obvious_pair_stable :
  let X := sample_entity "X" [("experience_years", VNum 5)] in
  let Y := sample_entity "Y" [("experience_years", VNum 5)] in
  (λ r, (matching_pairs r, unmatched_entities r)) <$>
    GaleShapleyMatcher.match_ 2 [X] [Y] experience_only
  = Ok ([("X", "Y")], []).
Proof. vm_compute. reflexivity. Qed.

(** Three proposers for one acceptor: the closest one is kept. *)
Example three_for_one_stable :
  (λ r, (matching_pairs r, unmatched_entities r)) <$>
    GaleShapleyMatcher.match_ 6 three_candidates one_job experience_only
  = Ok ([("a2", "b1")], ["a1"; "a3"]).
Proof. vm_compute. reflexivity. Qed.

(** The budget counts passes: too small a budget is reported as such. *)
Example three_for_one_short_budget :
  GaleShapleyMatcher.match_ 3 three_candidates one_job experience_only = OutOfFuel.
Proof. vm_compute. reflexivity. Qed.

(** The comparisons of the two scorers on text differing in case only. *)
Example text_case_optimal :
  HungarianMatcher._compare_attribute (VStr "Python") (VStr "python") "language" = 1%Q.
Proof. reflexivity. Qed.

Example text_case_stable :
  GaleShapleyMatcher.compare_values (VStr "Python") (VStr "python") "language" = (1 # 2)%Q.
Proof. reflexivity. Qed.

Example text_partial_optimal :
  HungarianMatcher._compare_attribute (VStr "Python") (VStr "python developer") "title"
  = (1 # 2)%Q.
Proof. reflexivity. Qed.

Example both_absent_stable :
  GaleShapleyMatcher.compare_values VNone VNone "language" = 1%Q.
Proof. reflexivity. Qed.

(** Blocking pairs exist: engagements that cross two mutual first choices. *)
Example crossed_engagements_blocked :
  let preferences :=
    [("p1", ["a1"; "a2"]); ("p2", ["a1"; "a2"]);
     ("a1", ["p1"; "p2"]); ("a2", ["p1"; "p2"])] in
  blocking_pair preferences ["p1"; "p2"] ["a1"; "a2"]
                [("a1", "p2"); ("a2", "p1")] "p1" "a1".
Proof.
  intros preferences. unfold blocking_pair. split_and!.
  - set_solver.
  - set_solver.
  - discriminate.
  - intros a' Ha'. simpl in Ha'.
    destruct (decide ("a1" = a')) as [<-|_]; [done|].
    destruct (decide ("a2" = a')) as [<-|_]; [|done].
    exists 0%nat, 1%nat. split_and!; [reflexivity | reflexivity | lia].
  - intros p' Hp'. simpl in Hp'. injection Hp' as <-.
    exists 0%nat, 1%nat. split_and!; [reflexivity | reflexivity | lia].
Qed.
End examples.

(** * Further facts used by the claims *)

(** ** Preference lists of the stable matcher *)

Section preference_properties.
Import Dict DictFacts GaleShapleyMatcher.
Local Open Scope Q_scope.

Local Abbreviation by_desc_score := (λ x y : string * Q, y.2 <= x.2).

Lemma insert_desc_sorted x l :
  StronglySorted by_desc_score l → StronglySorted by_desc_score (insert_desc x l).
Proof.
  induction 1 as [|y l Hl IH Hy]; simpl.
  - repeat constructor.
  - destruct (Qlt_le_dec x.2 y.2) as [Hlt|Hle].
    + constructor; [done|].
      rewrite insert_desc_perm. constructor; [simpl; lra | done].
    + constructor; [by constructor|].
      constructor; [done|].
      eapply Forall_impl; [exact Hy|]. simpl. intros z Hz. lra.
Qed.

Lemma sort_desc_sorted l : StronglySorted by_desc_score (sort_desc l).
Proof.
  induction l as [|x l IH]; [constructor|].
  change (sort_desc (x :: l)) with (insert_desc x (sort_desc l)).
  by apply insert_desc_sorted.
Qed.

Lemma sorted_lookup_order (l : list (string * Q)) i j x y :
  StronglySorted by_desc_score l → (i < j)%nat →
  l !! i = Some x → l !! j = Some y → y.2 <= x.2.
Proof.
  intros Hs. revert i j. induction Hs as [|z l Hl IH Hz]; intros i j Hij Hi Hj.
  - done.
  - destruct j as [|j]; [lia|]. simpl in Hj.
    destruct i as [|i]; simpl in Hi.
    + injection Hi as ->.
      rewrite Forall_forall in Hz. apply Hz. by eapply list_elem_of_lookup_2.
    + eapply (IH i j); [lia | done | done].
Qed.

Lemma ranking_order e others criteria o1 o2 :
  NoDup (id <$> others) → o1 ∈ others → o2 ∈ others →
  _calculate_similarity e o2 criteria < _calculate_similarity e o1 criteria →
  ∃ k1 k2, index_of (id o1) (ranking e others criteria) = Some k1 ∧
           index_of (id o2) (ranking e others criteria) = Some k2 ∧
           (k1 < k2)%nat.
Proof.
  intros Hnd H1 H2 Hlt.
  set (scored := (λ o, (id o, _calculate_similarity e o criteria)) <$> others).
  assert (Hin : ∀ o, o ∈ others →
            ∃ k, sort_desc scored !! k = Some (id o, _calculate_similarity e o criteria)).
  { intros o Ho. apply list_elem_of_lookup_1. rewrite sort_desc_perm.
    apply list_elem_of_fmap. by exists o. }
  destruct (Hin o1 H1) as [k1 Hk1]. destruct (Hin o2 H2) as [k2 Hk2].
  assert (Hrnd : NoDup (ranking e others criteria)) by (by rewrite ranking_perm).
  assert (Hr : ∀ k o, sort_desc scored !! k = Some (id o, _calculate_similarity e o criteria) →
                 index_of (id o) (ranking e others criteria) = Some k).
  { intros k o Hk. apply index_of_lookup_NoDup; [done|].
    unfold ranking. fold scored. by rewrite list_lookup_fmap, Hk. }
  exists k1, k2. split; [by apply Hr | split; [by apply Hr|]].
  destruct (decide (k1 < k2)%nat) as [|Hge]; [done|]. exfalso.
  destruct (decide (k1 = k2)) as [->|Hne].
  - rewrite Hk1 in Hk2. injection Hk2 as _ Heq. rewrite Heq in Hlt. lra.
  - pose proof (sorted_lookup_order _ k2 k1 _ _ (sort_desc_sorted scored)
                  ltac:(lia) Hk2 Hk1) as Hle.
    simpl in Hle. lra.
Qed.

Lemma preferences_get_acceptor entities_a entities_b criteria e :
  NoDup (id <$> (entities_a ++ entities_b)) → e ∈ entities_b →
  get (id e) (_build_preference_lists entities_a entities_b criteria) =
    Some (ranking e entities_a criteria).
Proof.
  intros Hnd He.
  rewrite build_preference_lists_eq by done.
  apply elem_get.
  - unfold wf, keys. rewrite fmap_app.
    pose proof (keys_fmap_pair id (λ e, ranking e entities_b criteria) entities_a) as H1.
    pose proof (keys_fmap_pair id (λ e, ranking e entities_a criteria) entities_b) as H2.
    unfold keys in H1, H2. rewrite H1, H2. by rewrite <- fmap_app.
  - apply elem_of_app. right. apply list_elem_of_fmap. by exists e.
Qed.

End preference_properties.

(** ** Blocking entities and blocking identifiers

    With identifiers distinct over both lists, two entities that block the
    engagements are a blocking pair of identifiers under the preference
    dictionary. *)

Section blocking_properties.
Import Dict DictFacts GaleShapleyMatcher.



End blocking_properties.

(** ** Counting lemmas *)

Section counting.

Lemma sum_list_with_le {A} (f : A → nat) (l : list A) (n : nat) :
  (∀ x, x ∈ l → (f x ≤ n)%nat) → (sum_list_with f l ≤ length l * n)%nat.
Proof.
  induction l as [|x l IH]; intros H; simpl; [lia|].
  pose proof (H x (list_elem_of_here _ _)).
  assert (sum_list_with f l ≤ length l * n)%nat.
  { apply IH. intros y Hy. apply H. by apply list_elem_of_further. }
  lia.
Qed.

Lemma sum_list_with_ext_in {A} (f g : A → nat) (l : list A) :
  (∀ x, x ∈ l → f x = g x) → sum_list_with f l = sum_list_with g l.
Proof.
  induction l as [|x l IH]; intros H; simpl; [done|].
  rewrite (H x) by apply list_elem_of_here.
  rewrite IH; [done|]. intros y Hy. apply H. by apply list_elem_of_further.
Qed.

Lemma sum_list_with_add {A} (f g : A → nat) (l : list A) :
  sum_list_with (λ x, f x + g x)%nat l = (sum_list_with f l + sum_list_with g l)%nat.
Proof. induction l as [|x l IH]; simpl; lia. Qed.

Lemma sum_list_with_split {A} (f : A → nat) (P : A → Prop) `{!∀ x, Decision (P x)}
    (l : list A) :
  sum_list_with f l
  = (sum_list_with f (filter P l) + sum_list_with f (filter (λ x, ¬ P x) l))%nat.
Proof.
  induction l as [|x l IH]; simpl; [done|].
  rewrite !filter_cons. destruct (decide (P x)) as [HP|HP].
  - rewrite decide_False by tauto. simpl. lia.
  - rewrite decide_True by done. simpl. lia.
Qed.

Lemma sum_list_with_filter {A} (f : A → nat) (P : A → Prop) `{!∀ x, Decision (P x)}
    (l : list A) :
  sum_list_with f (filter P l) = sum_list_with (λ x, if decide (P x) then f x else 0%nat) l.
Proof.
  induction l as [|x l IH]; simpl; [done|].
  rewrite filter_cons. destruct (decide (P x)); simpl; lia.
Qed.

Lemma length_filter_sum {A} (P : A → Prop) `{!∀ x, Decision (P x)} (l : list A) :
  length (filter P l) = sum_list_with (λ x, if decide (P x) then 1 else 0)%nat l.
Proof.
  induction l as [|x l IH]; simpl; [done|].
  rewrite filter_cons. destruct (decide (P x)); simpl; lia.
Qed.

(** Counting the pairs of a relation by rows or by columns *)
Lemma double_counting {A B} (R : A → B → Prop) `{!∀ x y, Decision (R x y)}
    (xs : list A) (ys : list B) :
  sum_list_with (λ x, length (filter (λ y, R x y) ys)) xs
  = sum_list_with (λ y, length (filter (λ x, R x y) xs)) ys.
Proof.
  induction xs as [|x xs IH]; simpl.
  - induction ys as [|y ys IHy]; simpl; [done | by rewrite <- IHy].
  - rewrite IH. rewrite length_filter_sum, <- sum_list_with_add.
    apply sum_list_with_ext_in. intros y _.
    rewrite filter_cons. destruct (decide (R x y)); simpl; lia.
Qed.

Lemma sum_list_with_perm {A} (f : A → nat) (l l' : list A) :
  l ≡ₚ l' → sum_list_with f l = sum_list_with f l'.
Proof. induction 1; simpl; lia. Qed.

Lemma NoDup_subseteq_length (l k : list string) :
  NoDup l → l ⊆ k → (length l ≤ length k)%nat.
Proof. intros Hnd Hsub. apply submseteq_length. by apply NoDup_submseteq. Qed.

Lemma length_filter_mem (s k : list string) :
  NoDup s → NoDup k → s ⊆ k → length (filter (λ y, y ∈ s) k) = length s.
Proof.
  intros Hs Hk Hsub. apply Permutation_length. apply NoDup_Permutation.
  - by apply NoDup_filter.
  - done.
  - intros x. rewrite list_elem_of_filter. split; [tauto|]. intros Hx. split; [done|].
    by apply Hsub.
Qed.

Lemma filter_all (P : string → Prop) `{!∀ x, Decision (P x)} (l : list string) :
  (∀ x, x ∈ l → P x) → filter P l = l.
Proof.
  induction l as [|x l IH]; intros Hall; [done|].
  rewrite filter_cons, decide_True by apply Hall, list_elem_of_here.
  f_equal. apply IH. intros y Hy. apply Hall. by apply list_elem_of_further.
Qed.

Lemma length_filter_ne (a : string) (l : list string) :
  NoDup l → a ∈ l → length l = S (length (filter (λ x, x ≠ a) l)).
Proof.
  induction l as [|x l IH]; intros Hnd Ha; [by apply elem_of_nil in Ha|].
  apply NoDup_cons in Hnd as [Hx Hnd]. rewrite filter_cons.
  destruct (decide (x = a)) as [->|Hne].
  - rewrite decide_False by tauto. simpl. f_equal.
    rewrite filter_all; [done|]. intros y Hy ->. done.
  - rewrite decide_True by done. simpl. f_equal. apply IH; [done|].
    apply elem_of_cons in Ha as [->|Ha]; done.
Qed.

End counting.

(** ** Further facts about dictionaries *)

Section dictionary_sizes.
Import Dict DictFacts.

Lemma length_set_in {V} (k : string) (v : V) (d : list (string * V)) :
  k ∈ keys d → length (set k v d) = length d.
Proof.
  intros Hk. rewrite <- (length_fmap fst (set k v d)), <- (length_fmap fst d).
  change (length (keys (set k v d)) = length (keys d)). by rewrite keys_set_in.
Qed.

Lemma length_set_notin {V} (k : string) (v : V) (d : list (string * V)) :
  k ∉ keys d → length (set k v d) = S (length d).
Proof. intros Hk. rewrite set_notin by done. rewrite length_app. simpl. lia. Qed.

Lemma sum_values_advance (d : list (string * nat)) (p : string) (i : nat) :
  get p d = Some i →
  sum_list (values (set p (i + 1)%nat d)) = (sum_list (values d) + 1)%nat.
Proof.
  unfold values. induction d as [|[k v] d IH]; [done|].
  cbn [get set]. destruct (decide (k = p)) as [->|Hne].
  - intros [= ->]. rewrite !fmap_cons. simpl. lia.
  - intros Hg. rewrite !fmap_cons. cbn [snd sum_list_with].
    rewrite IH by done. lia.
Qed.

Lemma sum_values_keys (d : list (string * nat)) :
  wf d → sum_list (values d) = sum_list_with (λ k, default 0%nat (get k d)) (keys d).
Proof.
  unfold wf, keys, values. induction d as [|[k v] d IH]; [done|].
  rewrite !fmap_cons. cbn [fst snd]. rewrite NoDup_cons. intros [Hk Hnd].
  cbn [sum_list_with get]. rewrite decide_True by done. cbn [default id]. f_equal.
  rewrite IH by done. apply sum_list_with_ext_in.
  intros k' Hk'. rewrite decide_False; [done|]. by intros ->.
Qed.

Lemma fold_set_get_other {A V} (f : A → string) (g : A → V) (es : list A)
    (acc : list (string * V)) (k : string) :
  k ∉ f <$> es →
  get k (fold_left (λ d e, set (f e) (g e) d) es acc) = get k acc.
Proof.
  revert acc. induction es as [|e es IH]; intros acc Hk; simpl; [done|].
  rewrite fmap_cons in Hk. apply not_elem_of_cons in Hk as [Hne Hk].
  rewrite IH by done. by apply get_set_ne.
Qed.

Lemma fold_set_get {A V} (f : A → string) (g : A → V) (es : list A)
    (acc : list (string * V)) (e : A) :
  NoDup (f <$> es) → e ∈ es →
  get (f e) (fold_left (λ d e, set (f e) (g e) d) es acc) = Some (g e).
Proof.
  revert acc. induction es as [|e0 es IH]; intros acc Hnd He; simpl.
  - by apply elem_of_nil in He.
  - rewrite fmap_cons in Hnd. apply NoDup_cons in Hnd as [Hfresh Hnd].
    apply elem_of_cons in He as [-> | He].
    + rewrite fold_set_get_other by done. apply get_set_eq.
    + by apply IH.
Qed.

End dictionary_sizes.

(** ** The loop on shared identifiers *)

Section shared_loop.
Import Dict DictFacts GaleShapleyMatcher.

Variable preferences : list (string * list string).
Variables proposers acceptors : list string.
Hypothesis Hps : preferences_shared preferences proposers acceptors.

Local Abbreviation Inv := (shared_invariant preferences proposers).
Local Abbreviation pl := (plist preferences).
Local Abbreviation tg := (targets preferences).
Local Abbreviation pref := (prefers preferences).

Lemma plist_acceptor a :
  a ∈ acceptors → get a preferences = Some (pl a) ∧ pl a ≡ₚ proposers.
Proof.
  intros Ha. destruct (ps_acceptor _ _ _ Hps a Ha) as (l & Hl & Hperm).
  unfold plist. rewrite Hl. done.
Qed.

Lemma plist_proposer p :
  p ∈ proposers →
  get p preferences = Some (pl p) ∧
  ((p ∈ acceptors ∧ pl p ≡ₚ proposers) ∨ ((p ∉ acceptors) ∧ pl p ≡ₚ acceptors)).
Proof.
  intros Hp. destruct (decide (p ∈ acceptors)) as [Ha|Ha].
  - destruct (plist_acceptor p Ha) as [Hl Hperm]. split; [done|]. by left.
  - destruct (ps_proposer _ _ _ Hps p Hp Ha) as (l & Hl & Hperm).
    unfold plist. rewrite Hl. simpl. split; [done|]. by right.
Qed.

Lemma plist_NoDup p : p ∈ proposers ∨ p ∈ acceptors → NoDup (pl p).
Proof.
  intros [Hp | Ha].
  - destruct (plist_proposer p Hp) as [_ [[_ Hperm] | [_ Hperm]]]; rewrite Hperm.
    + apply (ps_nodup_proposers _ _ _ Hps).
    + apply (ps_nodup_acceptors _ _ _ Hps).
  - destruct (plist_acceptor p Ha) as [_ Hperm]. rewrite Hperm.
    apply (ps_nodup_proposers _ _ _ Hps).
Qed.

(** Whoever is ranked by a proposer is an entity that ranks the proposer. *)
Lemma plist_back p q :
  p ∈ proposers → q ∈ pl p →
  (q ∈ proposers ∨ q ∈ acceptors) ∧ get q preferences = Some (pl q) ∧ p ∈ pl q.
Proof.
  intros Hp Hq.
  destruct (plist_proposer p Hp) as [_ [[Ha Hperm] | [Ha Hperm]]]; rewrite Hperm in Hq.
  - split; [by left|].
    destruct (plist_proposer q Hq) as [Hl [[_ Hperm'] | [_ Hperm']]];
      (split; [done|]); by rewrite Hperm'.
  - split; [by right|].
    destruct (plist_acceptor q Hq) as [Hl Hperm']. split; [done|]. by rewrite Hperm'.
Qed.

Lemma prefers_index a x y i j :
  get a preferences = Some (pl a) →
  index_of x (pl a) = Some i → index_of y (pl a) = Some j → (i < j)%nat →
  pref a x y.
Proof.
  intros Hl Hx Hy Hlt. exists i, j. unfold rank. rewrite Hl. simpl. done.
Qed.

Lemma prefers_index_inv a x y :
  get a preferences = Some (pl a) → pref a x y →
  ∃ i j, index_of x (pl a) = Some i ∧ index_of y (pl a) = Some j ∧ (i < j)%nat.
Proof.
  intros Hl (i & j & Hx & Hy & Hlt). unfold rank in Hx, Hy.
  rewrite Hl in Hx, Hy. simpl in Hx, Hy. by exists i, j.
Qed.

Lemma prefers_shared_trans a x y z : pref a x y → pref a y z → pref a x z.
Proof.
  intros (ix & iy & Hx & Hy & Hxy) (iy' & iz & Hy' & Hz & Hyz).
  assert (iy' = iy) as -> by congruence.
  exists ix, iz. split_and!; [done | done | lia].
Qed.

Lemma prefers_shared_asym a x y : pref a x y → pref a y x → False.
Proof.
  intros (ix & iy & Hx & Hy & Hxy) (iy' & ix' & Hy' & Hx' & Hyx).
  assert (iy' = iy) as -> by congruence.
  assert (ix' = ix) as -> by congruence. lia.
Qed.

(** *** Pointers and targets *)

Lemma pointer_get st p :
  Inv st → p ∈ proposers → get p (proposer_index st) = Some (pointer st p).
Proof.
  intros HI Hp. unfold pointer.
  destruct (get p (proposer_index st)) eqn:Hg; [done|].
  apply get_None in Hg. by rewrite (sh_index_keys _ _ _ HI) in Hg.
Qed.

Lemma targets_elem st p q :
  Inv st → q ∈ tg st p →
  p ∈ proposers ∧ q ∈ pl p ∧ ∃ k, pl p !! k = Some q ∧ (k < pointer st p)%nat.
Proof.
  intros HI Hq. unfold targets in Hq.
  apply elem_of_take in Hq as (k & Hk & Hlt).
  split_and!.
  - unfold pointer in Hlt.
    destruct (get p (proposer_index st)) eqn:Hg; [|simpl in Hlt; lia].
    rewrite <- (sh_index_keys _ _ _ HI). by eapply get_Some_key.
  - by eapply list_elem_of_lookup_2.
  - by exists k.
Qed.

Lemma targets_intro st p q k :
  pl p !! k = Some q → (k < pointer st p)%nat → q ∈ tg st p.
Proof. intros Hk Hlt. unfold targets. apply elem_of_take. by exists k. Qed.

Lemma targets_NoDup st p : Inv st → NoDup (tg st p).
Proof.
  intros HI. unfold targets.
  destruct (decide (p ∈ proposers)) as [Hp|Hp].
  - eapply sublist_NoDup; [|apply sublist_take]. apply plist_NoDup. by left.
  - unfold pointer.
    destruct (get p (proposer_index st)) eqn:Hg.
    + apply get_Some_key in Hg. by rewrite (sh_index_keys _ _ _ HI) in Hg.
    + simpl. rewrite take_0. apply NoDup_nil_2.
Qed.

(** The last proposal of an engaged proposer is to its holder. *)
Lemma engaged_target st a p :
  Inv st → get a (engagements st) = Some p → a ∈ tg st p.
Proof.
  intros HI Hap. destruct (sh_engaged _ _ _ HI a p Hap) as (_ & _ & i & Hi & Hlk).
  apply (targets_intro st p a i); [done | lia].
Qed.

Lemma engaged_injective st a a' p :
  Inv st → get a (engagements st) = Some p → get a' (engagements st) = Some p → a = a'.
Proof.
  intros HI H1 H2.
  destruct (sh_engaged _ _ _ HI a p H1) as (_ & _ & i & Hi & Hlk).
  destruct (sh_engaged _ _ _ HI a' p H2) as (_ & _ & i' & Hi' & Hlk').
  assert (i' = i) as -> by lia. congruence.
Qed.

Lemma free_not_engaged st p rest a :
  Inv st → free_proposers st = p :: rest → get a (engagements st) ≠ Some p.
Proof.
  intros HI Hfree Hap. destruct (sh_engaged _ _ _ HI a p Hap) as (_ & Hnin & _).
  apply Hnin. rewrite Hfree. apply list_elem_of_here.
Qed.

(** An entity ranked above the next target has been proposed to. *)
Lemma better_is_target st p q z :
  Inv st → p ∈ proposers → pl p !! pointer st p = Some q → pref p z q → z ∈ tg st p.
Proof.
  intros HI Hp Hq Hpref.
  destruct (plist_proposer p Hp) as [Hl _].
  destruct (prefers_index_inv p z q Hl Hpref) as (i & j & Hz & Hq' & Hlt).
  rewrite (index_of_lookup_NoDup q (pl p) (pointer st p)) in Hq';
    [| apply plist_NoDup; by left | done].
  injection Hq' as <-.
  apply (targets_intro st p z i); [by apply index_of_Some_lookup | done].
Qed.

(** The next target of a free proposer that has proposed to it holds it
    already. *)
Lemma mutual_next st p rest q :
  Inv st → free_proposers st = p :: rest →
  pl p !! pointer st p = Some q → p ∈ tg st q →
  get p (engagements st) = Some q.
Proof.
  intros HI Hfree Hq Hpq.
  assert (p ∈ proposers) as Hp.
  { apply (sh_free_in _ _ _ HI). rewrite Hfree. apply list_elem_of_here. }
  destruct (sh_proposed _ _ _ HI q p Hpq) as (z & Hz & [-> | Hpref]); [done|].
  exfalso.
  pose proof (better_is_target st p q z HI Hp Hq Hpref) as Hzt.
  pose proof (engaged_target st p z HI Hz) as Hpz.
  destruct (sh_mutual _ _ _ HI p z Hzt Hpz) as [Hzp _].
  by eapply free_not_engaged.
Qed.

(** A proposal that makes two entities mutual is accepted. *)
Lemma mutual_accepted st p rest q cur :
  Inv st → free_proposers st = p :: rest →
  pl p !! pointer st p = Some q → get q (engagements st) = Some cur →
  p ∈ tg st q ∨ q = p → pref q p cur.
Proof.
  intros HI Hfree Hq Hcur Hmut.
  assert (p ∈ proposers) as Hp.
  { apply (sh_free_in _ _ _ HI). rewrite Hfree. apply list_elem_of_here. }
  destruct (sh_engaged _ _ _ HI q cur Hcur) as (Hcurp & Hcurfree & _).
  pose proof (engaged_target st q cur HI Hcur) as Hqcur.
  destruct (targets_elem st cur q HI Hqcur) as (_ & Hqin & _).
  destruct (plist_back cur q Hcurp Hqin) as (Hqwho & Hlq & Hcurin).
  assert (NoDup (pl q)) as Hnd by by apply plist_NoDup.
  destruct (index_of_elem cur (pl q) Hcurin) as [ic Hic].
  assert (cur ∉ tg st q) as Hnot.
  { intros Hcurq.
    destruct (sh_mutual _ _ _ HI q cur Hcurq Hqcur) as [Hcq _].
    destruct Hmut as [Hpq | ->].
    - pose proof (mutual_next st p rest q HI Hfree Hq Hpq) as Hpq'.
      assert (cur = p) as -> by (by eapply engaged_injective).
      apply Hcurfree. rewrite Hfree. apply list_elem_of_here.
    - by eapply free_not_engaged. }
  assert (pointer st q ≤ ic)%nat as Hge.
  { destruct (decide (pointer st q ≤ ic)%nat); [done|]. exfalso. apply Hnot.
    apply (targets_intro st q cur ic); [by apply index_of_Some_lookup | lia]. }
  destruct Hmut as [Hpq | ->].
  - destruct (targets_elem st q p HI Hpq) as (_ & _ & k & Hk & Hlt).
    apply (prefers_index q p cur k ic); [done | | done | lia].
    by apply index_of_lookup_NoDup.
  - apply (prefers_index p p cur (pointer st p) ic); [done | | done |].
    + by apply index_of_lookup_NoDup.
    + assert (ic ≠ pointer st p); [|lia]. intros ->.
      apply index_of_Some_lookup in Hic.
      assert (cur = p) as -> by congruence.
      apply Hcurfree. rewrite Hfree. apply list_elem_of_here.
Qed.


(** An entity ranked above one that has been proposed to has been proposed
    to. *)
Lemma better_than_target st q x y :
  Inv st → get q preferences = Some (pl q) → NoDup (pl q) →
  pref q x y → y ∈ tg st q → x ∈ tg st q.
Proof.
  intros HI Hl Hnd Hpref Hy.
  destruct (prefers_index_inv q x y Hl Hpref) as (i & j & Hx & Hy' & Hlt).
  destruct (targets_elem st q y HI Hy) as (_ & _ & k & Hk & Hklt).
  rewrite (index_of_lookup_NoDup y (pl q) k Hnd Hk) in Hy'. injection Hy' as <-.
  apply (targets_intro st q x i); [by apply index_of_Some_lookup | lia].
Qed.

(** *** One pass re-establishes the invariant *)

Lemma pointer_advance st st' p :
  proposer_index st' = set p (pointer st p + 1)%nat (proposer_index st) →
  ∀ p', pointer st' p' = if decide (p' = p) then S (pointer st p) else pointer st p'.
Proof.
  intros Hidx p'. unfold pointer at 1. rewrite Hidx, get_set.
  destruct (decide (p = p')) as [->|Hne].
  - rewrite decide_True by done. simpl. lia.
  - rewrite decide_False by congruence. done.
Qed.

Lemma targets_advance st st' p q :
  pl p !! pointer st p = Some q →
  proposer_index st' = set p (pointer st p + 1)%nat (proposer_index st) →
  ∀ p' a, a ∈ tg st' p' ↔ a ∈ tg st p' ∨ (p' = p ∧ a = q).
Proof.
  intros Hq Hidx p' a. unfold targets. rewrite (pointer_advance st st' p Hidx).
  destruct (decide (p' = p)) as [->|Hne].
  - rewrite (take_S_r _ _ q Hq), elem_of_app, list_elem_of_singleton. tauto.
  - split; [by left | by intros [? | [? _]]].
Qed.

Lemma inv_shared_exhausted p rest st :
  Inv st → free_proposers st = p :: rest →
  Inv {| free_proposers := rest; engagements := engagements st;
         proposer_index := proposer_index st |}.
Proof.
  intros [H1 H2 H3 H4 H5 H6 H7 H8] Hfree.
  rewrite Hfree in *. apply NoDup_cons in H1 as [Hp Hrest].
  constructor; simpl; try done.
  - intros q Hq. apply H2. by apply list_elem_of_further.
  - intros a q Haq. destruct (H6 a q Haq) as (? & Hnin & ?).
    split_and!; [done | | done]. intros Hq. apply Hnin. by apply list_elem_of_further.
Qed.

Lemma inv_shared_accept p rest st q free' :
  Inv st → free_proposers st = p :: rest →
  pl p !! pointer st p = Some q →
  (get q (engagements st) = None ∧ free' = rest) ∨
  (∃ cur, get q (engagements st) = Some cur ∧ pref q p cur ∧ free' = rest ++ [cur]) →
  Inv {| free_proposers := free';
         engagements := set q p (engagements st);
         proposer_index := set p (pointer st p + 1)%nat (proposer_index st) |}.
Proof.
  intros HI Hfree Hq Hcase.
  set (st' := {| free_proposers := free';
                 engagements := set q p (engagements st);
                 proposer_index := set p (pointer st p + 1)%nat (proposer_index st) |}).
  assert (p ∈ proposers) as Hp.
  { apply (sh_free_in _ _ _ HI). rewrite Hfree. apply list_elem_of_here. }
  assert (∀ a, get a (engagements st) ≠ Some p) as Hpfree.
  { intros a. by eapply free_not_engaged. }
  pose proof (sh_free_nodup _ _ _ HI) as Hnd. rewrite Hfree in Hnd.
  apply NoDup_cons in Hnd as [Hprest Hrest].
  pose proof (pointer_advance st st' p eq_refl) as Hptr.
  pose proof (targets_advance st st' p q Hq eq_refl) as Htg.
  assert (∀ x, x ∈ free' → x ∈ rest ∨ get q (engagements st) = Some x) as Hfree'.
  { intros x Hx. destruct Hcase as [[_ ->] | (cur & Hcur & _ & ->)]; [by left|].
    apply elem_of_app in Hx as [Hx | ->%list_elem_of_singleton]; [by left | by right]. }
  destruct (plist_back p q Hp (list_elem_of_lookup_2 _ _ _ Hq)) as (Hqwho & Hlq & Hpq).
  assert (NoDup (pl q)) as Hndq by by apply plist_NoDup.
  assert (Hfirst : ∀ x y, y ∈ tg st' x → x ∈ tg st' y →
            get y (set q p (engagements st)) = Some x).
  { intros x y Hy Hx. apply Htg in Hy as [Hy | [-> ->]]; [|apply get_set_eq].
    apply Htg in Hx as [Hx | [-> ->]].
    - destruct (sh_mutual _ _ _ HI x y Hy Hx) as [Hyx Hxy].
      rewrite get_set. case_decide as Hqy; [|done]. subst y. exfalso.
      destruct Hcase as [[Hnone _] | (cur & Hcur & Hbetter & _)]; [congruence|].
      assert (cur = x) as -> by congruence.
      pose proof (better_than_target st q p x HI Hlq Hndq Hbetter Hx) as Hpt.
      pose proof (mutual_next st p rest q HI Hfree Hq Hpt) as Hpq'.
      assert (x = p) as -> by (by eapply engaged_injective).
      by apply (Hpfree q).
    - pose proof (mutual_next st p rest q HI Hfree Hq Hy) as Hpq'.
      rewrite get_set_ne; [done|]. intros ->. by apply (Hpfree p). }
  constructor; simpl.
  - destruct Hcase as [[_ ->] | (cur & Hcur & _ & ->)]; [done|].
    apply NoDup_app. split_and!; [done | | apply NoDup_singleton].
    intros x Hx ->%list_elem_of_singleton.
    destruct (sh_engaged _ _ _ HI q cur Hcur) as (_ & Hnin & _).
    apply Hnin. rewrite Hfree. by apply list_elem_of_further.
  - intros x Hx. destruct (Hfree' x Hx) as [Hin | Heng].
    + apply (sh_free_in _ _ _ HI). rewrite Hfree. by apply list_elem_of_further.
    + by destruct (sh_engaged _ _ _ HI q x Heng) as (? & _).
  - apply wf_set, (sh_engagements_wf _ _ _ HI).
  - rewrite keys_set_in; [apply (sh_index_keys _ _ _ HI)|].
    by rewrite (sh_index_keys _ _ _ HI).
  - intros p'. change (pointer st' p' ≤ length (pl p'))%nat. rewrite Hptr.
    case_decide as Hpp.
    + subst p'. apply lookup_lt_Some in Hq. lia.
    + apply (sh_index_le _ _ _ HI).
  - intros a p'. rewrite get_set. case_decide as Hqa.
    + intros [= <-]. subst a. split_and!; [done | |].
      * intros Hx. destruct (Hfree' p Hx) as [Hin | Heng]; [done|]. by apply (Hpfree q).
      * exists (pointer st p). change (pointer st' p = S (pointer st p) ∧ pl p !! pointer st p = Some q).
        rewrite Hptr, decide_True by done. done.
    + intros Hap. destruct (sh_engaged _ _ _ HI a p' Hap) as (Hp' & Hnin & i & Hi & Hlk).
      rewrite Hfree in Hnin. apply not_elem_of_cons in Hnin as [Hne Hnin].
      split_and!; [done | |].
      * intros Hx. destruct (Hfree' p' Hx) as [Hin | Heng]; [done|].
        apply Hqa. by eapply engaged_injective.
      * exists i. change (pointer st' p' = S i ∧ pl p' !! i = Some a).
        rewrite Hptr, decide_False by done. done.
  - intros p' a Ha. change (a ∈ tg st' p') in Ha.
    apply Htg in Ha as [Ha | [-> ->]].
    2:{ exists p. rewrite get_set_eq. split; [done | by left]. }
    destruct (sh_proposed _ _ _ HI p' a Ha) as (z & Hz & Hzp).
    rewrite get_set. case_decide as Hqa; [|by exists z].
    subst a. exists p. split; [done|].
    destruct Hcase as [[Hnone _] | (cur & Hcur & Hbetter & _)]; [congruence|].
    assert (z = cur) as -> by congruence.
    destruct (decide (p = p')) as [?|Hne]; [by left | right].
    destruct Hzp as [<- | Hzp]; [done|]. by eapply prefers_shared_trans.
  - intros x y Hy Hx. split; by apply Hfirst.
Qed.

Lemma inv_shared_reject p rest st q cur :
  Inv st → free_proposers st = p :: rest →
  pl p !! pointer st p = Some q →
  get q (engagements st) = Some cur → pref q cur p →
  Inv {| free_proposers := p :: rest;
         engagements := engagements st;
         proposer_index := set p (pointer st p + 1)%nat (proposer_index st) |}.
Proof.
  intros HI Hfree Hq Hcur Hworse.
  set (st' := {| free_proposers := p :: rest;
                 engagements := engagements st;
                 proposer_index := set p (pointer st p + 1)%nat (proposer_index st) |}).
  assert (p ∈ proposers) as Hp.
  { apply (sh_free_in _ _ _ HI). rewrite Hfree. apply list_elem_of_here. }
  assert (∀ a, get a (engagements st) ≠ Some p) as Hpfree.
  { intros a. by eapply free_not_engaged. }
  pose proof (pointer_advance st st' p eq_refl) as Hptr.
  pose proof (targets_advance st st' p q Hq eq_refl) as Htg.
  assert (¬ (p ∈ tg st q ∨ q = p)) as Hnot.
  { intros Hmut. eapply prefers_shared_asym; [exact Hworse|].
    by eapply mutual_accepted. }
  assert (Hfirst : ∀ x y, y ∈ tg st' x → x ∈ tg st' y →
            get y (engagements st) = Some x).
  { intros x y Hy Hx. apply Htg in Hy as [Hy | [-> ->]].
    - apply Htg in Hx as [Hx | [-> ->]].
      + by destruct (sh_mutual _ _ _ HI x y Hy Hx).
      + exfalso. apply Hnot. by left.
    - exfalso. apply Hnot. apply Htg in Hx as [Hx | [-> _]]; [by left | by right]. }
  constructor; simpl.
  - rewrite <- Hfree. apply (sh_free_nodup _ _ _ HI).
  - rewrite <- Hfree. apply (sh_free_in _ _ _ HI).
  - apply (sh_engagements_wf _ _ _ HI).
  - rewrite keys_set_in; [apply (sh_index_keys _ _ _ HI)|].
    by rewrite (sh_index_keys _ _ _ HI).
  - intros p'. change (pointer st' p' ≤ length (pl p'))%nat. rewrite Hptr.
    case_decide as Hpp.
    + subst p'. apply lookup_lt_Some in Hq. lia.
    + apply (sh_index_le _ _ _ HI).
  - intros a p' Hap.
    destruct (sh_engaged _ _ _ HI a p' Hap) as (Hp' & Hnin & i & Hi & Hlk).
    rewrite Hfree in Hnin. split_and!; [done | done |].
    exists i. change (pointer st' p' = S i ∧ pl p' !! i = Some a).
    rewrite Hptr, decide_False; [done|]. intros ->. by apply (Hpfree a).
  - intros p' a Ha. change (a ∈ tg st' p') in Ha.
    apply Htg in Ha as [Ha | [-> ->]].
    + apply (sh_proposed _ _ _ HI p' a Ha).
    + exists cur. split; [done | by right].
  - intros x y Hy Hx. split; by apply Hfirst.
Qed.


(** One pass from a state satisfying the invariant ends without exception
    and re-establishes the invariant; it either makes one proposal, the
    free proposers and the engagements together keeping their number, or
    makes none and retires one free proposer. *)
Lemma shared_body_step p rest st :
  Inv st → free_proposers st = p :: rest →
  ∃ st', loop_body preferences p rest st = Ok st' ∧ Inv st' ∧
         (proposals st ≤ proposals st')%nat ∧
         (length (free_proposers st') + length (engagements st') + proposals st + 1
          = length (free_proposers st) + length (engagements st) + proposals st')%nat.
Proof.
  intros HI Hfree.
  assert (p ∈ proposers) as Hp.
  { apply (sh_free_in _ _ _ HI). rewrite Hfree. apply list_elem_of_here. }
  destruct (plist_proposer p Hp) as [Hl _].
  pose proof (pointer_get st p HI Hp) as Hi.
  unfold loop_body, getitem. rewrite Hl, Hi. simpl.
  destruct (length (pl p) <=? pointer st p)%nat eqn:Hex.
  { eexists. split; [done|]. split; [by apply (inv_shared_exhausted p)|].
    unfold proposals. simpl. rewrite Hfree. simpl. lia. }
  apply Nat.leb_gt in Hex.
  destruct (lookup_lt_is_Some_2 (pl p) (pointer st p) Hex) as [q Hq].
  unfold list_getitem. rewrite Hq. simpl.
  destruct (plist_back p q Hp (list_elem_of_lookup_2 _ _ _ Hq)) as (Hqwho & Hlq & Hpq).
  assert (Hadv : sum_list (values (set p (pointer st p + 1)%nat (proposer_index st)))
                 = (proposals st + 1)%nat) by by apply sum_values_advance.
  destruct (get q (engagements st)) as [cur|] eqn:Heng.
  2:{ eexists. split; [done|].
      split; [apply (inv_shared_accept p rest st q rest HI Hfree Hq); by left|].
      unfold proposals at 2 4. simpl. rewrite Hadv, Hfree.
      rewrite length_set_notin by by apply get_None. unfold proposals. simpl. lia. }
  rewrite Hlq. simpl. unfold list_index.
  destruct (index_of_elem p (pl q) Hpq) as [ip Hip].
  destruct (sh_engaged _ _ _ HI q cur Heng) as (Hcurp & Hcurfree & _).
  pose proof (engaged_target st q cur HI Heng) as Hqcur.
  destruct (targets_elem st cur q HI Hqcur) as (_ & Hqin & _).
  destruct (plist_back cur q Hcurp Hqin) as (_ & _ & Hcurin).
  destruct (index_of_elem cur (pl q) Hcurin) as [ic Hic].
  rewrite Hip, Hic. simpl.
  destruct (ip <? ic)%nat eqn:Hlt.
  - apply Nat.ltb_lt in Hlt. eexists. split; [done|].
    split.
    { apply (inv_shared_accept p rest st q (rest ++ [cur]) HI Hfree Hq). right.
      exists cur. split_and!; [done | | done]. by eapply prefers_index. }
    unfold proposals at 2 4. simpl. rewrite Hadv, Hfree.
    rewrite length_set_in by by eapply get_Some_key.
    rewrite length_app. unfold proposals. simpl. lia.
  - apply Nat.ltb_ge in Hlt. eexists. split; [done|].
    split.
    { apply (inv_shared_reject p rest st q cur HI Hfree Hq Heng).
      eapply prefers_index; eauto.
      assert (ic ≠ ip); [|lia]. intros ->.
      assert (cur = p) as -> by (by eapply index_of_inj).
      apply Hcurfree. rewrite Hfree. apply list_elem_of_here. }
    unfold proposals at 2 4. simpl. rewrite Hadv, Hfree. unfold proposals. simpl. lia.
Qed.

(** *** The number of proposals *)

Lemma proposals_sum st :
  Inv st → proposals st = sum_list_with (λ p, length (tg st p)) proposers.
Proof.
  intros HI. unfold proposals.
  rewrite sum_values_keys.
  2:{ unfold wf. rewrite (sh_index_keys _ _ _ HI). apply (ps_nodup_proposers _ _ _ Hps). }
  rewrite (sh_index_keys _ _ _ HI). apply sum_list_with_ext_in.
  intros p _. unfold targets. rewrite length_take_le; [done|].
  apply (sh_index_le _ _ _ HI).
Qed.

(** The proposals received by [y] from the proposers that are on the a-side
    only, and those made by [y] when it is a proposer itself, are together
    at most one per proposer. *)
Lemma column_bound st y :
  Inv st → y ∈ acceptors →
  (length (filter (λ a, y ∈ tg st a) (filter (λ p, p ∉ acceptors) proposers))
   + (if decide (y ∈ proposers) then length (tg st y) else 0)
   ≤ length proposers)%nat.
Proof.
  intros HI Hy.
  pose proof (ps_nodup_proposers _ _ _ Hps) as Hnd.
  set (U := filter (λ a, y ∈ tg st a) (filter (λ p, p ∉ acceptors) proposers)).
  assert (NoDup U) as HU by (by do 2 apply NoDup_filter).
  assert (∀ a, a ∈ U → a ∈ proposers ∧ (a ∉ acceptors) ∧ y ∈ tg st a) as HUin.
  { intros a Ha. unfold U in Ha.
    apply list_elem_of_filter in Ha as [Hya Ha].
    apply list_elem_of_filter in Ha as [Hna Ha]. done. }
  destruct (decide (y ∈ proposers)) as [Hyp|Hyp].
  2:{ rewrite Nat.add_0_r. apply NoDup_subseteq_length; [done|].
      intros a Ha. by apply HUin. }
  set (made := tg st y).
  assert (NoDup made) as HS by by apply targets_NoDup.
  assert (made ⊆ proposers) as HSin.
  { intros x Hx. destruct (targets_elem st y x HI Hx) as (_ & Hx' & _).
    destruct (plist_acceptor y Hy) as [_ Hperm]. by rewrite Hperm in Hx'. }
  destruct (decide (Exists (λ a, a ∈ made) U)) as [Hex|Hex].
  - apply Exists_exists in Hex as (a0 & Ha0 & Ha0S).
    destruct (HUin a0 Ha0) as (Ha0p & Ha0n & Hya0).
    destruct (sh_mutual _ _ _ HI a0 y Hya0 Ha0S) as [Hheld _].
    assert (y ∉ made) as HyS.
    { intros HyS. destruct (sh_mutual _ _ _ HI y y HyS HyS) as [Hself _].
      assert (a0 = y) as -> by congruence. done. }
    assert (∀ a, a ∈ U → a ∈ made → a = a0) as Huniq.
    { intros a Ha HaS. destruct (HUin a Ha) as (_ & _ & Hya).
      destruct (sh_mutual _ _ _ HI a y Hya HaS) as [Hheld' _]. congruence. }
    rewrite (length_filter_ne a0 U HU Ha0).
    assert (NoDup (y :: filter (λ x, x ≠ a0) U ++ made)) as HX.
    { apply NoDup_cons. split.
      - rewrite elem_of_app. intros [Hin | Hin]; [|done].
        apply list_elem_of_filter in Hin as [_ Hin].
        destruct (HUin y Hin) as (_ & Hn & _). done.
      - apply NoDup_app. split_and!; [by apply NoDup_filter | | done].
        intros x Hx HxS. apply list_elem_of_filter in Hx as [Hne Hx].
        apply Hne. by apply Huniq. }
    assert (y :: filter (λ x, x ≠ a0) U ++ made ⊆ proposers) as HXin.
    { intros x [-> | Hx]%elem_of_cons; [done|].
      apply elem_of_app in Hx as [Hx | Hx]; [|by apply HSin].
      apply list_elem_of_filter in Hx as [_ Hx]. by apply HUin. }
    pose proof (NoDup_subseteq_length _ _ HX HXin) as Hlen.
    simpl in Hlen. rewrite length_app in Hlen. fold made. lia.
  - assert (NoDup (U ++ made)) as HX.
    { apply NoDup_app. split_and!; [done | | done].
      intros x Hx HxS. apply Hex. apply Exists_exists. by exists x. }
    assert (U ++ made ⊆ proposers) as HXin.
    { intros x [Hx | Hx]%elem_of_app; [by apply HUin | by apply HSin]. }
    pose proof (NoDup_subseteq_length _ _ HX HXin) as Hlen.
    rewrite length_app in Hlen. fold made. lia.
Qed.

(** At most [n * m] proposals have been made. *)
Lemma shared_proposals_bound st :
  Inv st → (proposals st ≤ length proposers * length acceptors)%nat.
Proof.
  intros HI.
  pose proof (ps_nodup_proposers _ _ _ Hps) as HndP.
  pose proof (ps_nodup_acceptors _ _ _ Hps) as HndB.
  rewrite (proposals_sum st HI).
  rewrite (sum_list_with_split _ (λ p, p ∈ acceptors) proposers).
  assert (sum_list_with (λ p, length (tg st p)) (filter (λ p, p ∈ acceptors) proposers)
          = sum_list_with (λ y, if decide (y ∈ proposers) then length (tg st y) else 0%nat)
              acceptors) as ->.
  { rewrite <- sum_list_with_filter. apply sum_list_with_perm.
    apply NoDup_Permutation; [by apply NoDup_filter | by apply NoDup_filter |].
    intros x. rewrite !list_elem_of_filter. tauto. }
  assert (sum_list_with (λ p, length (tg st p)) (filter (λ p, p ∉ acceptors) proposers)
          = sum_list_with
              (λ y, length (filter (λ a, y ∈ tg st a)
                              (filter (λ p, p ∉ acceptors) proposers)))
              acceptors) as ->.
  { rewrite <- (double_counting (λ a y, y ∈ tg st a)).
    apply sum_list_with_ext_in. intros a Ha.
    apply list_elem_of_filter in Ha as [Hna Ha].
    symmetry. apply length_filter_mem; [by apply targets_NoDup | done |].
    intros x Hx. destruct (targets_elem st a x HI Hx) as (_ & Hx' & _).
    destruct (plist_proposer a Ha) as [_ [[? _] | [_ Hperm]]]; [done|].
    by rewrite Hperm in Hx'. }
  rewrite Nat.add_comm, <- sum_list_with_add, Nat.mul_comm.
  apply sum_list_with_le. intros y Hy. by apply column_bound.
Qed.

(** *** Termination *)

Lemma shared_loop_terminates fuel st :
  Inv st → (shared_variant proposers acceptors st ≤ fuel)%nat →
  ∃ st', main_loop preferences fuel st = Ok st' ∧ Inv st' ∧ free_proposers st' = [].
Proof.
  revert st. induction fuel as [|fuel IH]; intros st HI Hfuel.
  - destruct (free_proposers st) as [|p rest] eqn:Hfree.
    + exists st. simpl. by rewrite Hfree.
    + unfold shared_variant in Hfuel. rewrite Hfree in Hfuel. simpl in Hfuel. lia.
  - destruct (free_proposers st) as [|p rest] eqn:Hfree.
    + exists st. simpl. by rewrite Hfree.
    + destruct (shared_body_step p rest st HI Hfree) as (st1 & Hrun & HI1 & Hmono & Hstep).
      pose proof (shared_proposals_bound st1 HI1) as Hb1.
      destruct (IH st1 HI1) as (st' & Hloop & HI' & Hdone).
      { unfold shared_variant in *. lia. }
      exists st'. simpl. rewrite Hfree, Hrun. done.
Qed.

Lemma shared_initial_state (entities_a : list Entity) :
  proposers = id <$> entities_a →
  Inv (initial_state entities_a) ∧
  shared_variant proposers acceptors (initial_state entities_a)
    = (length proposers * length acceptors + length proposers)%nat.
Proof.
  intros Hids. pose proof (ps_nodup_proposers _ _ _ Hps) as Hnd.
  unfold initial_state. rewrite <- Hids.
  assert (((λ pid : string, (pid, 0%nat)) <$> proposers).*1 = proposers) as Hk.
  { pose proof (keys_fmap_pair (λ x : string, x) (λ _, 0%nat) proposers) as H.
    by rewrite list_fmap_id in H. }
  rewrite dict_of_NoDup by by rewrite Hk.
  set (st0 := {| free_proposers := proposers; engagements := [];
                 proposer_index := (λ pid, (pid, 0%nat)) <$> proposers |}).
  assert (∀ p, pointer st0 p = 0%nat) as Hptr.
  { intros p. unfold pointer. simpl.
    destruct (get p _) as [i|] eqn:Hg; [|done].
    apply get_Some_elem in Hg. apply list_elem_of_fmap in Hg as (q & [= -> ->] & _). done. }
  assert (∀ p, tg st0 p = []) as Htg.
  { intros p. unfold targets. by rewrite Hptr, take_0. }
  split.
  - constructor; simpl.
    + done.
    + done.
    + apply NoDup_nil_2.
    + exact Hk.
    + intros p. change (pointer st0 p ≤ length (pl p))%nat. rewrite Hptr. lia.
    + done.
    + intros p a Ha. change (a ∈ tg st0 p) in Ha. rewrite Htg in Ha.
      by apply elem_of_nil in Ha.
    + intros x y Hy. change (y ∈ tg st0 x) in Hy. rewrite Htg in Hy.
      by apply elem_of_nil in Hy.
  - unfold shared_variant, proposals. simpl.
    assert (sum_list (values ((λ pid : string, (pid, 0%nat)) <$> proposers)) = 0%nat) as ->.
    { unfold values. rewrite <- list_fmap_compose. clear.
      induction proposers as [|x l IH]; [done|].
      rewrite fmap_cons. cbn [sum_list_with]. by rewrite IH. }
    lia.
Qed.

End shared_loop.

(** ** The preference dictionary on shared identifiers *)

Section shared_preferences.
Import Dict DictFacts GaleShapleyMatcher.

Lemma build_preference_lists_shared entities_a entities_b criteria :
  NoDup (id <$> entities_a) → NoDup (id <$> entities_b) →
  preferences_shared (_build_preference_lists entities_a entities_b criteria)
                     (id <$> entities_a) (id <$> entities_b).
Proof.
  intros Ha Hb. constructor; [done | done | |].
  - intros a (e & -> & He)%list_elem_of_fmap.
    exists (ranking e entities_a criteria). split; [|apply ranking_perm].
    unfold _build_preference_lists.
    by apply (fold_set_get id (λ e, ranking e entities_a criteria)).
  - intros p (e & -> & He)%list_elem_of_fmap Hnb.
    exists (ranking e entities_b criteria). split; [|apply ranking_perm].
    unfold _build_preference_lists.
    rewrite (fold_set_get_other id (λ e, ranking e entities_a criteria)) by done.
    by apply (fold_set_get id (λ e, ranking e entities_b criteria)).
Qed.

(** With identifiers distinct within each side, the loop ends within
    [n * m + n] passes, in a state with no free proposer, after at most
    [n * m] proposals. *)
Lemma converge_shared fuel entities_a entities_b criteria :
  NoDup (id <$> entities_a) → NoDup (id <$> entities_b) →
  (length entities_a * length entities_b + length entities_a ≤ fuel)%nat →
  ∃ st, converge fuel entities_a entities_b criteria = Ok st ∧
        shared_invariant (_build_preference_lists entities_a entities_b criteria)
                         (id <$> entities_a) st ∧
        free_proposers st = [] ∧
        (proposals st ≤ length entities_a * length entities_b)%nat.
Proof.
  intros Ha Hb Hfuel.
  pose proof (build_preference_lists_shared _ _ criteria Ha Hb) as Hps.
  destruct (shared_initial_state _ _ _ Hps entities_a eq_refl) as [HI Hvar].
  rewrite !length_fmap in Hvar.
  destruct (shared_loop_terminates _ _ _ Hps fuel (initial_state entities_a) HI)
    as (st & Hrun & HI' & Hfree); [lia|].
  exists st. split_and!; [done | done | done |].
  pose proof (shared_proposals_bound _ _ _ Hps st HI') as Hb'.
  by rewrite !length_fmap in Hb'.
Qed.

End shared_preferences.

(** * The claims of the design document *)


(** C5, as stated, fails: computed in binary64, as the interpreter does, the
    scorer of either matcher returns [1.0000000000000002] for the first
    candidate of the usage example against itself under the example's
    weights (non-negative, normalised by the constructor), a number above
    1. *)
Section binary64_similarity.
Import PrimFloat.


End binary64_similarity.



(** C7, as stated, fails: the weights 1e308 and 1e308 are non-negative and
    their sum is positive, but in binary64 the sum overflows to infinity;
    the constructor then stores 0.0 for both, and the stored weights sum to
    0, not to 1. *)
Section binary64_weights.
Import PrimFloat.

Lemma C7_counterexample :
  Binary64.fsum (Dict.values Binary64.huge_weights) = infinity ∧
  (0 <? Binary64.fsum (Dict.values Binary64.huge_weights))%float = true ∧
  Binary64.weights (Binary64.mkCriteria Binary64.huge_weights [] 0%float)
    = [("a", 0%float); ("b", 0%float)] ∧
  Binary64.fsum
    (Dict.values (Binary64.weights (Binary64.mkCriteria Binary64.huge_weights [] 0%float)))
    = 0%float.
Proof. split_and!; vm_compute; reflexivity. Qed.

End binary64_weights.

(** C7, amended.  Constructing a criteria object from finite non-negative
    weights: when the weights have a positive sum that stays within
    [double_range], every weight is divided by that sum and the stored
    weights sum to 1 (exactly, in rational arithmetic; within rounding in
    binary64); when the sum is 0 the weights are stored unchanged, and they
    are all 0. *)
Theorem C7_weights_normalised
    (w : list (string * Q)) (req opt : list string) (ms : Q) (mm : Z) :
  nonneg_weights w →
  let criteria := mkCriteria w req opt ms mm in
  let total := Qsum (Dict.values w) in
  ((0 < total)%Q → (total <= double_range)%Q →
     weights criteria = (λ kv, (kv.1, (kv.2 / total)%Q)) <$> w ∧
     (Qsum (Dict.values (weights criteria)) == 1)%Q) ∧
  ((total == 0)%Q →
     weights criteria = w ∧ Forall (λ kv, (kv.2 == 0)%Q) w).
Proof.
  intros Hnn criteria total. split.
  - intros Hpos _. split.
    + unfold criteria, mkCriteria, Criteria_post_init. simpl.
      destruct (Qlt_le_dec _ _) as [_|Hle]; [done|].
      by apply Qle_not_lt in Hle.
    + by apply (weights_post_init_sum_pos
                  {| weights := w; required_attributes := req;
                     optional_attributes := opt; min_score := ms; max_matches := mm |}).
  - intros Hzero. split.
    + unfold criteria, mkCriteria, Criteria_post_init. simpl.
      destruct (Qlt_le_dec _ _) as [Hpos|_]; [|done].
      fold total in Hpos. rewrite Hzero in Hpos. by apply Qlt_irrefl in Hpos.
    + apply Forall_forall. intros kv Hkv.
      apply (wsum_zero_inv snd w); [| |done].
      * intros x Hx. by apply (proj1 (Forall_forall _ _) Hnn).
      * rewrite <- total_weight_wsum. fold total. rewrite Hzero. apply Qle_refl.
Qed.

Lemma C7_witness :
  let criteria := mkCriteria [("experience_years", 3); ("skills", 1)]%Q [] [] 0 1 in
  weights criteria = [("experience_years", 3 / (0 + 3 + 1)); ("skills", 1 / (0 + 3 + 1))]%Q ∧
  (Qsum (Dict.values (weights criteria)) == 1)%Q.
Proof.
  intros criteria.
  apply (C7_weights_normalised [("experience_years", 3); ("skills", 1)]%Q [] [] 0 1).
  - repeat constructor; discriminate.
  - reflexivity.
  - vm_compute. discriminate.
Defined.

(** C10.  Each matcher's scorer is symmetric in its two entity arguments,
    for every criteria and every pair of entities. *)
Theorem C10_similarity_symmetric (entity_a entity_b : Entity) (criteria : Criteria) :
  HungarianMatcher._calculate_similarity entity_a entity_b criteria =
    HungarianMatcher._calculate_similarity entity_b entity_a criteria ∧
  GaleShapleyMatcher._calculate_similarity entity_a entity_b criteria =
    GaleShapleyMatcher._calculate_similarity entity_b entity_a criteria.
Proof.
  split; [apply Hungarian_similarity_comm | apply GaleShapley_similarity_comm].
Qed.

(** C9.  When one of the two entity lists is empty, either matcher returns
    normally (whatever the solver, whatever the loop budget) with no match,
    the identifiers of all entities of both lists as unmatched, and a total
    score of 0. *)
Theorem C9_empty_side
    (solver : list (list cost) → result (list nat * list nat)) (fuel : nat)
    (entities_a entities_b : list Entity) (criteria : Criteria) :
  entities_a = [] ∨ entities_b = [] →
  let empty_result :=
    {| matches := []; unmatched_entities := id <$> (entities_a ++ entities_b);
       total_score := 0%Q |} in
  HungarianMatcher.match_ solver entities_a entities_b criteria = Ok empty_result ∧
  GaleShapleyMatcher.match_ fuel entities_a entities_b criteria = Ok empty_result.
Proof.
  intros Hempty res.
  unfold HungarianMatcher.match_, GaleShapleyMatcher.match_.
  destruct Hempty as [-> | ->]; simpl; [done|].
  by rewrite orb_true_r.
Qed.

Lemma C9_witness :
  let Y := sample_entity "Y" [("experience_years", VNum 5)] in
  let criteria := mkCriteria [("experience_years", 1%Q)] [] [] (1 # 2) 1 in
  HungarianMatcher.match_ (λ _, Raise IndexError) [] [Y] criteria =
    Ok {| matches := []; unmatched_entities := ["Y"]; total_score := 0%Q |} ∧
  GaleShapleyMatcher.match_ 0 [] [Y] criteria =
    Ok {| matches := []; unmatched_entities := ["Y"]; total_score := 0%Q |}.
Proof.
  intros Y criteria.
  apply (C9_empty_side (λ _, Raise IndexError) 0 [] [Y] criteria).
  left. reflexivity.
Defined.


(** C3.  What the code does at a size mismatch.  The optimal matcher pads the
    cost matrix to a square with [+inf]; every perfect assignment of the
    padded matrix then runs through an added entry, so a solver honouring
    its contract reports an infeasible matrix and the call ends with that
    [ValueError] instead of a result.  This holds for all non-empty lists of
    different lengths, in particular for three entities against one. *)
Theorem C3_size_mismatch_raises
    (solver : list (list cost) → result (list nat * list nat))
    (entities_a entities_b : list Entity) (criteria : Criteria) :
  solver_contract solver →
  entities_a ≠ [] → entities_b ≠ [] → length entities_a ≠ length entities_b →
  (∀ cols, ¬ feasible (length entities_a `max` length entities_b)
               (HungarianMatcher.pad (length entities_a) (length entities_b)
                  (HungarianMatcher._calculate_cost_matrix entities_a entities_b criteria))
               cols) ∧
  HungarianMatcher.match_ solver entities_a entities_b criteria = Raise infeasible_error.
Proof.
  intros Hsolver Ha Hb Hne. split.
  - intros cols. apply pad_infeasible; [apply cost_matrix_shape | done].
  - by apply match_size_mismatch.
Qed.

Lemma C3_witness :
  HungarianMatcher.match_ exhaustive_assignment three_candidates one_job experience_only
  = Raise (ValueError "cost matrix is infeasible").
Proof.
  apply (C3_size_mismatch_raises exhaustive_assignment three_candidates one_job
           experience_only exhaustive_assignment_contract).
  - discriminate.
  - discriminate.
  - simpl. lia.
Defined.

(** C4.  For entity lists whose identifiers are distinct within each list
    (the two lists may share identifiers), with [n] proposers and [m]
    acceptors, the deferred-acceptance loop ends without exception, after at
    most [n*m + n] passes through its body, in a state with no free
    proposer, having made at most [n*m] proposals; and no pass through the
    body ever lowers a proposer's pointer into its preference list. *)
Theorem C4_loop_terminates_within_nm_proposals
    (fuel : nat) (entities_a entities_b : list Entity) (criteria : Criteria) :
  NoDup (id <$> entities_a) → NoDup (id <$> entities_b) →
  (length entities_a * length entities_b + length entities_a ≤ fuel)%nat →
  (∃ st, GaleShapleyMatcher.converge fuel entities_a entities_b criteria = Ok st ∧
         GaleShapleyMatcher.free_proposers st = [] ∧
         (GaleShapleyMatcher.proposals st ≤ length entities_a * length entities_b)%nat) ∧
  (∀ preferences p rest st st' q i,
     GaleShapleyMatcher.loop_body preferences p rest st = Ok st' →
     Dict.get q (GaleShapleyMatcher.proposer_index st) = Some i →
     ∃ i', Dict.get q (GaleShapleyMatcher.proposer_index st') = Some i' ∧ (i ≤ i')%nat).
Proof.
  intros Ha Hb Hfuel. split.
  - destruct (converge_shared fuel entities_a entities_b criteria Ha Hb Hfuel)
      as (st & Hrun & _ & Hfree & Hbound).
    by exists st.
  - intros preferences p rest st st' q i. apply loop_body_advances.
Qed.

Lemma C4_witness :
  ∃ st, GaleShapleyMatcher.converge 6 shared_x_a shared_x_b (value_only 0) = Ok st ∧
        GaleShapleyMatcher.free_proposers st = [] ∧
        (GaleShapleyMatcher.proposals st ≤ 2 * 2)%nat.
Proof.
  apply (C4_loop_terminates_within_nm_proposals 6 shared_x_a shared_x_b (value_only 0)).
  - apply (bool_decide_unpack _). reflexivity.
  - apply (bool_decide_unpack _). reflexivity.
  - simpl. lia.
Defined.







(** C1.  What the optimal matcher returns, by the lengths of its inputs.  For
    a criteria object constructed from non-negative weights and a solver
    honouring its contract: on non-empty lists of equal length the call
    returns, and its [total_score] is at least the total score of every
    one-to-one set of pairs whose scores reach [min_score]; on non-empty
    lists of different lengths the call produces no [total_score] at all,
    it ends with the solver's [ValueError]. *)
Theorem C1_optimal_on_equal_lengths_error_otherwise
    (solver : list (list cost) → result (list nat * list nat))
    (entities_a entities_b : list Entity)
    (w : list (string * Q)) (req opt : list string) (ms : Q) (mm : Z) :
  solver_contract solver → Dict.wf w → nonneg_weights w →
  entities_a ≠ [] → entities_b ≠ [] →
  let criteria := mkCriteria w req opt ms mm in
  (length entities_a = length entities_b →
     ∃ res, HungarianMatcher.match_ solver entities_a entities_b criteria = Ok res ∧
       ∀ pairs, feasible_assignment entities_a entities_b criteria pairs →
         (assignment_score entities_a entities_b criteria pairs <= total_score res)%Q) ∧
  (length entities_a ≠ length entities_b →
     HungarianMatcher.match_ solver entities_a entities_b criteria = Raise infeasible_error).
Proof.
  intros Hsolver Hwf Hnn Ha Hb criteria. split.
  - intros Hlen. apply match_square_optimal; try done.
    + by apply weights_post_init_wf.
    + by apply weights_post_init_nonneg.
    + by apply weights_post_init_sum_le.
  - intros Hne. by apply match_size_mismatch.
Qed.

Lemma C1_witness :
  HungarianMatcher.match_ exhaustive_assignment two_candidates one_job
    (mkCriteria [("experience_years", 1%Q)] [] [] (1 # 2) 1)
  = Raise (ValueError "cost matrix is infeasible").
Proof.
  refine (proj2 (C1_optimal_on_equal_lengths_error_otherwise exhaustive_assignment
                   two_candidates one_job [("experience_years", 1%Q)] [] [] (1 # 2) 1
                   exhaustive_assignment_contract _ _ _ _) _).
  - apply (bool_decide_unpack _). reflexivity.
  - repeat constructor; discriminate.
  - discriminate.
  - discriminate.
  - simpl. lia.
Defined.

(** C8, as stated, fails.  On the instance below (a text attribute differing
    in letter case only, and a numeric one) the score matrix is diagonally
    dominant under the scorer of either matcher, yet the optimal matcher
    pairs both candidates while the stable matcher reports one pair only:
    the two scorers are different functions, and the stable matcher's score
    of the first diagonal pair stays below [min_score]. *)
Lemma C8_counterexample :
  solver_contract exhaustive_assignment ∧
  diagonally_dominant
    (λ ea eb, HungarianMatcher._calculate_similarity ea eb case_criteria)
    case_candidates case_jobs ∧
  diagonally_dominant
    (λ ea eb, GaleShapleyMatcher._calculate_similarity ea eb case_criteria)
    case_candidates case_jobs ∧
  ∃ rh rg,
    HungarianMatcher.match_ exhaustive_assignment case_candidates case_jobs case_criteria
      = Ok rh ∧
    GaleShapleyMatcher.match_ 6 case_candidates case_jobs case_criteria = Ok rg ∧
    matching_pairs rh = [("a1", "b1"); ("a2", "b2")] ∧
    matching_pairs rg = [("a2", "b2")] ∧
    matching_pairs rh ≠ matching_pairs rg.
Proof.
  split; [apply exhaustive_assignment_contract|].
  split; [|split].
  - split; [reflexivity|].
    intros i j ea eb ea' eb' Hne Ha Hb Ha' Hb'. unfold case_candidates, case_jobs in *.
    destruct i as [|[|i]]; destruct j as [|[|j]]; simpl in *; try done;
      simplify_eq; split; reflexivity.
  - split; [reflexivity|].
    intros i j ea eb ea' eb' Hne Ha Hb Ha' Hb'. unfold case_candidates, case_jobs in *.
    destruct i as [|[|i]]; destruct j as [|[|j]]; simpl in *; try done;
      simplify_eq; split; reflexivity.
  - eexists _, _. split; [vm_compute; reflexivity|].
    split; [vm_compute; reflexivity|].
    split; [reflexivity|]. split; [reflexivity|]. discriminate.
Qed.

(** C8, amended.  On an instance with as many entities on one side as on
    the other and pairwise distinct identifiers, whose score matrix is
    diagonally dominant under the scorer of each matcher, and whose diagonal
    pairs score above 0 under the optimal matcher's scorer and at least
    [min_score] under the stable matcher's, both matchers report the same
    list of pairs, each entity with its counterpart, and leave no entity
    unmatched. *)
Theorem C8_identical_matching_when_dominant_for_both_scorers
    (solver : list (list cost) → result (list nat * list nat)) (fuel : nat)
    (entities_a entities_b : list Entity) (criteria : Criteria) :
  solver_contract solver →
  NoDup (id <$> (entities_a ++ entities_b)) → entities_a ≠ [] →
  diagonally_dominant
    (λ ea eb, HungarianMatcher._calculate_similarity ea eb criteria)
    entities_a entities_b →
  diagonally_dominant
    (λ ea eb, GaleShapleyMatcher._calculate_similarity ea eb criteria)
    entities_a entities_b →
  (∀ i ea eb, entities_a !! i = Some ea → entities_b !! i = Some eb →
     (0 < HungarianMatcher._calculate_similarity ea eb criteria)%Q ∧
     (min_score criteria <= GaleShapleyMatcher._calculate_similarity ea eb criteria)%Q) →
  (length entities_a ≤ fuel)%nat →
  ∃ rh rg,
    HungarianMatcher.match_ solver entities_a entities_b criteria = Ok rh ∧
    GaleShapleyMatcher.match_ fuel entities_a entities_b criteria = Ok rg ∧
    matching_pairs rh = matching_pairs rg ∧
    matching_pairs rg = zip (id <$> entities_a) (id <$> entities_b) ∧
    unmatched_entities rh = [] ∧ unmatched_entities rg = [].
Proof.
  intros Hsolver Hnd Ha HdomH HdomG Hdiag Hfuel.
  destruct (dominant_optimal_matching solver entities_a entities_b criteria
              Hsolver Ha HdomH) as (rh & Hrh & Hph & Huh).
  { intros i ea eb Hea Heb. by apply (Hdiag i ea eb). }
  assert (∀ i ea eb, entities_a !! i = Some ea → entities_b !! i = Some eb →
            (min_score criteria
               <= GaleShapleyMatcher._calculate_similarity ea eb criteria)%Q) as Hmin.
  { intros i ea eb Hea Heb. by apply (Hdiag i ea eb). }
  destruct (dominant_stable_matching fuel entities_a entities_b criteria
              Hnd Ha HdomG Hmin Hfuel) as (rg & Hrg & Hpg & Hug).
  exists rh, rg. split_and!; try done. by rewrite Hph, Hpg.
Qed.

Lemma C8_witness :
  ∃ rh rg,
    HungarianMatcher.match_ exhaustive_assignment case_candidates case_jobs
      case_criteria_low = Ok rh ∧
    GaleShapleyMatcher.match_ 2 case_candidates case_jobs case_criteria_low = Ok rg ∧
    matching_pairs rh = matching_pairs rg ∧
    matching_pairs rg = zip (id <$> case_candidates) (id <$> case_jobs) ∧
    unmatched_entities rh = [] ∧ unmatched_entities rg = [].
Proof.
  apply (C8_identical_matching_when_dominant_for_both_scorers exhaustive_assignment 2
           case_candidates case_jobs case_criteria_low exhaustive_assignment_contract).
  - apply (bool_decide_unpack _). reflexivity.
  - discriminate.
  - split; [reflexivity|].
    intros i j ea eb ea' eb' Hne Ha Hb Ha' Hb'. unfold case_candidates, case_jobs in *.
    destruct i as [|[|i]]; destruct j as [|[|j]]; simpl in *; try done;
      simplify_eq; split; reflexivity.
  - split; [reflexivity|].
    intros i j ea eb ea' eb' Hne Ha Hb Ha' Hb'. unfold case_candidates, case_jobs in *.
    destruct i as [|[|i]]; destruct j as [|[|j]]; simpl in *; try done;
      simplify_eq; split; reflexivity.
  - intros i ea eb Ha Hb. unfold case_candidates, case_jobs in *.
    destruct i as [|[|i]]; simpl in *; try done; simplify_eq.
    all: split; [reflexivity | discriminate].
  - simpl. lia.
Defined.

(** * Further properties of the code *)

(** ** The per-attribute comparisons *)

Section comparison_properties.
Local Open Scope Q_scope.

Lemma py_max_0_of_nonpos x : x <= 0 → py_max 0 x = 0.
Proof.
  intros Hx. unfold py_max. destruct (Qlt_le_dec 0 x) as [Hlt|_]; [|done].
  exfalso. lra.
Qed.

Lemma py_max_0_of_nonneg x : 0 <= x → py_max 0 x == x.
Proof.
  intros Hx. unfold py_max. destruct (Qlt_le_dec 0 x) as [_|Hle]; [reflexivity|].
  lra.
Qed.

Lemma numeric_score_far a b : 100 <= Qabs (a - b) → py_max 0 (1 - Qabs (a - b) / 100) = 0.
Proof.
  intros Hfar. apply py_max_0_of_nonpos.
  assert (1 <= Qabs (a - b) / 100); [|lra].
  apply Qle_shift_div_l; [reflexivity | lra].
Qed.

Lemma numeric_score_near a b :
  Qabs (a - b) <= 100 → py_max 0 (1 - Qabs (a - b) / 100) == 1 - Qabs (a - b) / 100.
Proof.
  intros Hnear. apply py_max_0_of_nonneg.
  assert (Qabs (a - b) / 100 <= 1); [|lra].
  apply Qle_shift_div_r; [reflexivity | lra].
Qed.

Lemma Qabs_sub_zero a b : a == b → Qabs (a - b) == 0.
Proof.
  intros Hab. assert (a - b == 0) as -> by lra. reflexivity.
Qed.
End comparison_properties.

(** X1.  On two finite numeric values within [double_range] the
    per-attribute comparisons of the two matchers agree (although the stable
    matcher short-cuts equal values), the common score is [1 - |a-b|/100]
    up to a distance of 100, and exactly 0 from a distance of 100 on. *)
Theorem X1_numeric_comparison_agrees_and_clamps (a b : Q) (attribute : string) :
  finite_number (VNum a) → finite_number (VNum b) →
  (GaleShapleyMatcher.compare_values (VNum a) (VNum b) attribute ==
   HungarianMatcher._compare_attribute (VNum a) (VNum b) attribute)%Q ∧
  ((Qabs (a - b) <= 100)%Q →
     (HungarianMatcher._compare_attribute (VNum a) (VNum b) attribute
      == 1 - Qabs (a - b) / 100)%Q) ∧
  ((100 <= Qabs (a - b))%Q →
     HungarianMatcher._compare_attribute (VNum a) (VNum b) attribute = 0%Q).
Proof.
  intros _ _. split; [|split].
  - unfold GaleShapleyMatcher.compare_values, HungarianMatcher._compare_attribute.
    simpl value_eqb. destruct (Qeq_bool a b) eqn:Heq; [|reflexivity].
    apply Qeq_bool_eq in Heq.
    rewrite numeric_score_near.
    + rewrite (Qabs_sub_zero a b Heq). reflexivity.
    + rewrite (Qabs_sub_zero a b Heq). discriminate.
  - intros Hnear. by apply numeric_score_near.
  - intros Hfar. by apply numeric_score_far.
Qed.

Lemma X1_witness :
  (HungarianMatcher._compare_attribute (VNum 5) (VNum 7) "experience_years"
   == 1 - Qabs (5 - 7) / 100)%Q.
Proof.
  apply (X1_numeric_comparison_agrees_and_clamps 5 7 "experience_years").
  - vm_compute. discriminate.
  - vm_compute. discriminate.
  - discriminate.
Defined.

Section text_properties.
Lemma lower_ascii_idemp (c : ascii) : lower_ascii (lower_ascii c) = lower_ascii c.
Proof. destruct c as [[] [] [] [] [] [] [] []]; reflexivity. Qed.

Lemma lower_idemp (s : string) : lower (lower s) = lower s.
Proof.
  induction s as [|c s IH]; simpl; [done|]. by rewrite lower_ascii_idemp, IH.
Qed.

Lemma fmap_lower_idemp (l : list string) : lower <$> (lower <$> l) = lower <$> l.
Proof.
  induction l as [|x l IH]; simpl; [done|]. rewrite lower_idemp. f_equal. apply IH.
Qed.

Lemma lowered_set_ext (l l' : list string) :
  (∀ x, x ∈ lower <$> l ↔ x ∈ lower <$> l') →
  (list_to_set (lower <$> l) : gset string) = list_to_set (lower <$> l').
Proof.
  intros H. apply set_eq. intros x. rewrite !elem_of_list_to_set. apply H.
Qed.
End text_properties.

(** X2.  The optimal matcher's comparison of two texts, and of two lists of
    texts, does not depend on letter case: lower-casing the operands first
    gives the same score. *)
Theorem X2_text_comparison_ignores_case (a b : string) (l m : list string)
    (attribute : string) :
  HungarianMatcher._compare_attribute (VStr a) (VStr b) attribute =
    HungarianMatcher._compare_attribute (VStr (lower a)) (VStr (lower b)) attribute ∧
  HungarianMatcher._compare_attribute (VList l) (VList m) attribute =
    HungarianMatcher._compare_attribute (VList (lower <$> l)) (VList (lower <$> m)) attribute.
Proof.
  unfold HungarianMatcher._compare_attribute. split.
  - by rewrite !lower_idemp.
  - by rewrite !fmap_lower_idemp.
Qed.

(** X3.  The optimal matcher's comparison of two lists sees each list as the
    set of its lower-cased entries: two lists with the same lower-cased
    entries, in whatever order and multiplicity, score the same against any
    third list. *)
Theorem X3_list_comparison_reads_sets (l l' m : list string) (attribute : string) :
  (∀ x, x ∈ lower <$> l ↔ x ∈ lower <$> l') →
  HungarianMatcher._compare_attribute (VList l) (VList m) attribute =
    HungarianMatcher._compare_attribute (VList l') (VList m) attribute.
Proof.
  intros H. unfold HungarianMatcher._compare_attribute.
  by rewrite (lowered_set_ext l l' H).
Qed.

Lemma X3_witness :
  HungarianMatcher._compare_attribute
    (VList ["Python"; "SQL"; "python"]) (VList ["sql"; "Java"]) "skills" =
  HungarianMatcher._compare_attribute
    (VList ["sql"; "PYTHON"]) (VList ["sql"; "Java"]) "skills".
Proof.
  apply (X3_list_comparison_reads_sets
           ["Python"; "SQL"; "python"] ["sql"; "PYTHON"] ["sql"; "Java"] "skills").
  intros x. simpl. rewrite !elem_of_cons, !elem_of_nil. tauto.
Defined.

Section self_comparison.
Local Open Scope Q_scope.


End self_comparison.

(** X4.  Under the optimal matcher's comparison every value other than
    [None], the empty list and a number that is not finite or lies outside
    [double_range] scores 1 against itself. *)
Theorem X4_self_comparison_is_one (v : value) (attribute : string) :
  v ≠ VNone → v ≠ VList [] → finite_number v →
  (HungarianMatcher._compare_attribute v v attribute == 1)%Q.
Proof.
  intros Hnone Hnil _. destruct v as [|x|s|l]; [done | | |].
  - unfold HungarianMatcher._compare_attribute.
    rewrite numeric_score_near.
    + rewrite (Qabs_sub_zero x x) by reflexivity. reflexivity.
    + rewrite (Qabs_sub_zero x x) by reflexivity. discriminate.
  - unfold HungarianMatcher._compare_attribute.
    by rewrite bool_decide_eq_true_2.
  - unfold HungarianMatcher._compare_attribute. cbv zeta.
    destruct l as [|x l]; [done|].
    assert ((list_to_set (lower <$> x :: l) : gset string) ≠ ∅) as Hne.
    { rewrite fmap_cons, list_to_set_cons. intros Hempty.
      apply (not_elem_of_empty (C:=gset string) (lower x)). rewrite <- Hempty.
      apply elem_of_union. left. by apply elem_of_singleton. }
    rewrite (bool_decide_eq_false_2 _ Hne). cbn [orb].
    assert (∀ X : gset string, X ∩ X = X) as -> by (intros; apply (idemp_L (∩))).
    assert (∀ X : gset string, X ∪ X = X) as -> by (intros; apply (idemp_L (∪))).
    generalize (list_to_set (lower <$> x :: l) : gset string) Hne. intros X HX.
    assert (0 < size X)%nat as Hpos.
    { destruct (size X) eqn:Hs; [|lia]. by apply size_empty_inv, leibniz_equiv in Hs. }
    rewrite (proj2 (Nat.ltb_lt _ _) Hpos).
    generalize (size X) Hpos. intros n Hn.
    field. intros H0.
    unfold Qeq in H0. simpl in H0. lia.
Qed.

Lemma X4_witness :
  (HungarianMatcher._compare_attribute (VList ["Python"; "SQL"]) (VList ["Python"; "SQL"])
     "skills" == 1)%Q.
Proof.
  apply (X4_self_comparison_is_one (VList ["Python"; "SQL"]) "skills");
    [discriminate | discriminate | exact I].
Defined.



(** ** The criteria model *)

(** X7.  A score recorded for an attribute that has no weight does not
    change the weighted aggregate. *)
Theorem X7_unweighted_attribute_ignored
    (c : Criteria) (scores scores' : list (string * Q)) (attribute : string) (s : Q) :
  attribute ∉ Dict.keys (weights c) →
  (calculate_weighted_score c (scores ++ (attribute, s) :: scores')
   == calculate_weighted_score c (scores ++ scores'))%Q.
Proof.
  intros Hk. rewrite !calculate_weighted_score_wsum, !wsum_app. simpl.
  apply DictFacts.get_None in Hk. rewrite Hk. simpl. ring.
Qed.

Lemma X7_witness :
  (calculate_weighted_score experience_only
     ([("experience_years", 1 # 2)] ++ ("shoe_size", 1) :: [])
   == calculate_weighted_score experience_only ([("experience_years", 1 # 2)] ++ []))%Q.
Proof.
  apply (X7_unweighted_attribute_ignored experience_only
           [("experience_years", 1 # 2)%Q] [] "shoe_size" 1).
  apply (bool_decide_unpack _). reflexivity.
Defined.

(** ** The optimal matcher *)

Section optimal_properties.
Import HungarianMatcher.
Local Open Scope Q_scope.

Lemma cell_pad_real n m cost_matrix i j :
  has_shape n m cost_matrix → (i < n)%nat → (j < m)%nat →
  cell (pad n m cost_matrix) i j = cell cost_matrix i j.
Proof.
  intros [Hlen Hrows] Hi Hj. unfold pad, cell.
  destruct (m <? n)%nat.
  - rewrite list_lookup_fmap.
    destruct (cost_matrix !! i) as [row|] eqn:Hrow; [|done]. simpl.
    apply lookup_app_l.
    rewrite (proj1 (Forall_forall _ _) Hrows row); [done|].
    by eapply list_elem_of_lookup_2.
  - destruct (n <? m)%nat; [|done]. by rewrite lookup_app_l by lia.
Qed.

Lemma cell_pad_added n m cost_matrix i j :
  has_shape n m cost_matrix →
  (i < n `max` m)%nat → (j < n `max` m)%nat → (n ≤ i ∨ m ≤ j)%nat →
  cell (pad n m cost_matrix) i j = Some Inf.
Proof.
  intros [Hlen Hrows] Hi Hj Hout. unfold pad, cell.
  destruct (m <? n)%nat eqn:Hmn; [apply Nat.ltb_lt in Hmn|apply Nat.ltb_ge in Hmn].
  - rewrite list_lookup_fmap.
    destruct (lookup_lt_is_Some_2 cost_matrix i ltac:(lia)) as [row Hrow].
    rewrite Hrow. simpl.
    assert (length row = m) as Hrl.
    { apply (proj1 (Forall_forall _ _) Hrows row). by eapply list_elem_of_lookup_2. }
    rewrite lookup_app_r by lia. apply lookup_replicate_2. lia.
  - destruct (n <? m)%nat eqn:Hnm; [apply Nat.ltb_lt in Hnm|apply Nat.ltb_ge in Hnm; lia].
    rewrite lookup_app_r by lia. rewrite lookup_replicate_2 by lia. simpl.
    apply lookup_replicate_2. lia.
Qed.

Lemma extract_pair_pad entities_a entities_b criteria acc ij :
  extract_pair entities_a entities_b criteria
    (pad (length entities_a) (length entities_b)
         (_calculate_cost_matrix entities_a entities_b criteria)) acc ij =
  extract_pair entities_a entities_b criteria
    (_calculate_cost_matrix entities_a entities_b criteria) acc ij.
Proof.
  destruct ij as [i j]. unfold extract_pair.
  destruct (i <? length entities_a)%nat eqn:Hi; [|done].
  destruct (j <? length entities_b)%nat eqn:Hj; [|done].
  apply Nat.ltb_lt in Hi, Hj. cbn [andb].
  by rewrite (cell_pad_real _ _ _ i j (cost_matrix_shape _ _ criteria) Hi Hj).
Qed.

(** One decoded pair: never an exception; the accumulator is unchanged, or
    grows by one valid match whose score is added to the total. *)
Lemma extract_pair_any entities_a entities_b criteria acc ij :
  ∃ acc',
    extract_pair entities_a entities_b criteria
      (_calculate_cost_matrix entities_a entities_b criteria) acc ij = Ok acc' ∧
    (acc' = acc ∨
     ∃ m, valid_optimal_match entities_a entities_b criteria m ∧
          ex_matches acc' = ex_matches acc ++ [m] ∧
          ex_total_score acc' = ex_total_score acc + score m).
Proof.
  destruct ij as [i j].
  destruct (entities_a !! i) as [ea|] eqn:Hea.
  - destruct (entities_b !! j) as [eb|] eqn:Heb.
    + rewrite (extract_pair_spec _ _ _ acc i j ea eb Hea Heb).
      eexists. split; [done|].
      destruct (kept entities_a entities_b criteria (i, j)) eqn:Hk; [|by left].
      right. eexists. split_and!; [|done|done].
      unfold kept in Hk. simpl in Hk.
      rewrite (pair_score_lookup _ _ _ _ _ _ _ Hea Heb) in Hk.
      destruct (Qlt_le_dec _ _) as [Hpos|]; [|done].
      exists i, j, ea, eb. split_and!; try done.
      by apply similarity_pos_above_threshold.
    + exists acc. split; [|by left]. unfold extract_pair.
      apply lookup_ge_None in Heb. apply Nat.ltb_ge in Heb. rewrite Heb.
      by rewrite andb_false_r.
  - exists acc. split; [|by left]. unfold extract_pair.
    apply lookup_ge_None in Hea. apply Nat.ltb_ge in Hea. by rewrite Hea.
Qed.

Lemma extract_any entities_a entities_b criteria pairs acc :
  ∃ acc' new,
    extract entities_a entities_b criteria
      (pad (length entities_a) (length entities_b)
           (_calculate_cost_matrix entities_a entities_b criteria)) pairs acc = Ok acc' ∧
    ex_matches acc' = ex_matches acc ++ new ∧
    Forall (valid_optimal_match entities_a entities_b criteria) new ∧
    ex_total_score acc' == ex_total_score acc + score_sum new.
Proof.
  revert acc. induction pairs as [|ij pairs IH]; intros acc.
  - exists acc, []. cbn [extract]. rewrite app_nil_r. split_and!; try done.
    unfold score_sum. simpl. ring.
  - cbn [extract]. rewrite extract_pair_pad.
    destruct (extract_pair_any entities_a entities_b criteria acc ij)
      as (acc1 & -> & Hstep). cbn [mbind result_bind].
    destruct (IH acc1) as (acc' & new & Hrun & Hms & Hvalid & Htot).
    destruct Hstep as [-> | (m & Hm & Hms1 & Htot1)].
    + by exists acc', new.
    + exists acc', (m :: new). split_and!.
      * done.
      * rewrite Hms, Hms1, <- app_assoc. done.
      * by constructor.
      * rewrite Htot, Htot1. unfold score_sum. simpl. ring.
Qed.

(** The call on non-empty lists: whatever the solver answers, decoding the
    answer raises nothing and reports valid matches only. *)
Lemma match_any_solver solver entities_a entities_b criteria :
  entities_a ≠ [] → entities_b ≠ [] →
  match solver (pad (length entities_a) (length entities_b)
                    (_calculate_cost_matrix entities_a entities_b criteria)) with
  | Ok _ =>
      ∃ res, match_ solver entities_a entities_b criteria = Ok res ∧
             Forall (valid_optimal_match entities_a entities_b criteria) (matches res) ∧
             total_score res == score_sum (matches res)
  | Raise e => match_ solver entities_a entities_b criteria = Raise e
  | OutOfFuel => match_ solver entities_a entities_b criteria = OutOfFuel
  end.
Proof.
  intros Ha Hb. rewrite match_nonempty by done. cbn zeta.
  destruct (solver _) as [[rows cols]|e|]; [|done|done].
  cbn [mbind result_bind].
  destruct (extract_any entities_a entities_b criteria (zip rows cols)
              {| ex_matches := []; ex_matched_a := []; ex_matched_b := [];
                 ex_total_score := 0 |})
    as (acc & new & Hrun & Hms & Hvalid & Htot).
  rewrite Hrun. cbn [mbind result_bind]. eexists. split; [done|].
  cbn [matches total_score]. cbn [ex_matches ex_total_score app] in Hms, Htot.
  rewrite Hms. split; [done|]. rewrite Htot. ring.
Qed.
End optimal_properties.



(** X9.  Padding the cost matrix of a call yields a square matrix of side
    [max(n, m)]; it leaves every entry of the [n x m] region as it was, and
    every other entry is [+inf]. *)
Theorem X9_padding_square_and_conservative
    (entities_a entities_b : list Entity) (criteria : Criteria) :
  let n := length entities_a in
  let m := length entities_b in
  let cost_matrix :=
    HungarianMatcher._calculate_cost_matrix entities_a entities_b criteria in
  is_square (n `max` m) (HungarianMatcher.pad n m cost_matrix) ∧
  ∀ i j, (i < n `max` m)%nat → (j < n `max` m)%nat →
    cell (HungarianMatcher.pad n m cost_matrix) i j =
      if (i <? n)%nat && (j <? m)%nat then cell cost_matrix i j else Some Inf.
Proof.
  intros n m cost_matrix.
  pose proof (cost_matrix_shape entities_a entities_b criteria) as Hshape.
  split; [by apply pad_square|].
  intros i j Hi Hj.
  destruct (i <? n)%nat eqn:Hin; [apply Nat.ltb_lt in Hin|apply Nat.ltb_ge in Hin].
  - destruct (j <? m)%nat eqn:Hjm; [apply Nat.ltb_lt in Hjm|apply Nat.ltb_ge in Hjm].
    + by apply cell_pad_real.
    + apply cell_pad_added; [done | done | done | by right].
  - apply cell_pad_added; [done | done | done | by left].
Qed.

Lemma X9_witness :
  cell (HungarianMatcher.pad (length three_candidates) (length one_job)
          (HungarianMatcher._calculate_cost_matrix three_candidates one_job
             experience_only)) 0 1
  = Some Inf.
Proof.
  destruct (X9_padding_square_and_conservative three_candidates one_job experience_only)
    as [_ H].
  apply (H 0%nat 1%nat); simpl; lia.
Defined.

(** X10.  Whatever the solver answers, a result of the optimal matcher holds
    valid matches only: each pairs an entity of the first list with one of
    the second, carries the scorer's value for the two, and that value is
    positive and at least [min_score]. *)
Theorem X10_optimal_reports_valid_matches_only
    (solver : list (list cost) → result (list nat * list nat))
    (entities_a entities_b : list Entity) (criteria : Criteria) (res : MatchingResult) :
  HungarianMatcher.match_ solver entities_a entities_b criteria = Ok res →
  Forall (valid_optimal_match entities_a entities_b criteria) (matches res).
Proof.
  intros Hrun.
  destruct entities_a as [|a A].
  { injection Hrun as <-. constructor. }
  destruct entities_b as [|b B].
  { injection Hrun as <-. constructor. }
  pose proof (match_any_solver solver (a :: A) (b :: B) criteria) as H.
  destruct (solver _) as [p|e|].
  - destruct H as (res' & Hres' & Hvalid & _); [done | done |].
    assert (res' = res) as -> by congruence. done.
  - rewrite H in Hrun; done.
  - rewrite H in Hrun; done.
Qed.

Lemma X10_witness :
  ∃ res,
    HungarianMatcher.match_ exhaustive_assignment case_candidates case_jobs case_criteria
      = Ok res ∧
    Forall (valid_optimal_match case_candidates case_jobs case_criteria) (matches res).
Proof.
  eexists. split; [vm_compute; reflexivity|].
  apply (X10_optimal_reports_valid_matches_only exhaustive_assignment
           case_candidates case_jobs case_criteria).
  vm_compute. reflexivity.
Defined.

(** X11.  On non-empty lists of entities whose numeric attributes are
    finite and within [double_range] (no comparison overflows), the optimal
    matcher raises nothing of its own: when a call ends with an exception,
    it is the exception the solver raised on the padded cost matrix. *)
Theorem X11_optimal_raises_only_the_solver_error
    (solver : list (list cost) → result (list nat * list nat))
    (entities_a entities_b : list Entity) (criteria : Criteria) (e : exn) :
  Forall in_double_range entities_a → Forall in_double_range entities_b →
  HungarianMatcher.match_ solver entities_a entities_b criteria = Raise e →
  solver (HungarianMatcher.pad (length entities_a) (length entities_b)
            (HungarianMatcher._calculate_cost_matrix entities_a entities_b criteria))
  = Raise e.
Proof.
  intros _ _ Hrun.
  destruct entities_a as [|a A]; [done|].
  destruct entities_b as [|b B]; [done|].
  pose proof (match_any_solver solver (a :: A) (b :: B) criteria) as H.
  destruct (solver _) as [p|e'|].
  - destruct H as (res' & Hres' & _); [done | done |]. congruence.
  - rewrite H in Hrun by done. congruence.
  - rewrite H in Hrun by done. done.
Qed.

Lemma X11_witness :
  exhaustive_assignment
    (HungarianMatcher.pad (length three_candidates) (length one_job)
       (HungarianMatcher._calculate_cost_matrix three_candidates one_job experience_only))
  = Raise (ValueError "cost matrix is infeasible").
Proof.
  apply (X11_optimal_raises_only_the_solver_error exhaustive_assignment
           three_candidates one_job experience_only).
  - repeat constructor; vm_compute; discriminate.
  - repeat constructor; vm_compute; discriminate.
  - vm_compute. reflexivity.
Defined.


(** ** Preference lists of the stable matcher *)


(** X12.  Preference lists follow the scores: when the identifiers are
    pairwise distinct, every entity of either list ranks a candidate partner
    of strictly higher similarity above one of lower similarity. *)
Theorem X12_preferences_follow_scores
    (entities_a entities_b : list Entity) (criteria : Criteria) :
  NoDup (id <$> (entities_a ++ entities_b)) →
  let preferences :=
    GaleShapleyMatcher._build_preference_lists entities_a entities_b criteria in
  (∀ ea b1 b2, ea ∈ entities_a → b1 ∈ entities_b → b2 ∈ entities_b →
     (GaleShapleyMatcher._calculate_similarity ea b2 criteria <
      GaleShapleyMatcher._calculate_similarity ea b1 criteria)%Q →
     prefers preferences (id ea) (id b1) (id b2)) ∧
  (∀ eb a1 a2, eb ∈ entities_b → a1 ∈ entities_a → a2 ∈ entities_a →
     (GaleShapleyMatcher._calculate_similarity eb a2 criteria <
      GaleShapleyMatcher._calculate_similarity eb a1 criteria)%Q →
     prefers preferences (id eb) (id a1) (id a2)).
Proof.
  intros Hnd preferences.
  assert (Hnd' := Hnd). rewrite fmap_app in Hnd'.
  apply NoDup_app in Hnd' as (Ha & _ & Hb).
  split.
  - intros ea b1 b2 Hea Hb1 Hb2 Hlt.
    destruct (ranking_order ea entities_b criteria b1 b2 Hb Hb1 Hb2 Hlt)
      as (k1 & k2 & Hk1 & Hk2 & Hk).
    exists k1, k2. unfold rank, preferences.
    rewrite preferences_get_proposer by done. simpl. done.
  - intros eb a1 a2 Heb Ha1 Ha2 Hlt.
    destruct (ranking_order eb entities_a criteria a1 a2 Ha Ha1 Ha2 Hlt)
      as (k1 & k2 & Hk1 & Hk2 & Hk).
    exists k1, k2. unfold rank, preferences.
    rewrite preferences_get_acceptor by done. simpl. done.
Qed.

Lemma X12_witness :
  prefers (GaleShapleyMatcher._build_preference_lists three_candidates one_job experience_only)
    "b1" "a2" "a1".
Proof.
  destruct (X12_preferences_follow_scores three_candidates one_job experience_only
              ltac:(apply (bool_decide_unpack _); reflexivity)) as [_ H].
  apply (H (sample_entity "b1" [("experience_years", VNum 20)])
           (sample_entity "a2" [("experience_years", VNum 20)])
           (sample_entity "a1" [("experience_years", VNum 10)])).
  - apply list_elem_of_here.
  - apply list_elem_of_further, list_elem_of_here.
  - apply list_elem_of_here.
  - vm_compute. reflexivity.
Defined.


(** ** The engagements the loop converges to *)

Section engagement_properties.
Import Dict DictFacts GaleShapleyMatcher.
Variable preferences : list (string * list string).
Variables proposers acceptors : list string.
Hypothesis Hpc : preferences_complete preferences proposers acceptors.

Lemma engaged_key_get (engaged : list (string * string)) a :
  a ∈ keys engaged → ∃ p, get a engaged = Some p.
Proof.
  intros Hin. destruct (get a engaged) as [p|] eqn:Hget; [by exists p|].
  by apply get_None in Hget.
Qed.

Lemma values_NoDup_of_injective (d items : list (string * string)) :
  NoDup items.*1 →
  (∀ a a' p, get a d = Some p → get a' d = Some p → a = a') →
  (∀ a p, (a, p) ∈ items → get a d = Some p) →
  NoDup items.*2.
Proof.
  induction items as [|[a p] items IH]; intros Hnd Hinj Hget; simpl.
  - constructor.
  - apply NoDup_cons in Hnd as [Hnin Hnd]. constructor.
    + intros Hin. apply list_elem_of_fmap in Hin as ([a' p'] & Heq & Hin).
      simpl in Heq. subst p'. apply Hnin.
      assert (a = a') as ->.
      { apply (Hinj a a' p); apply Hget.
        - apply list_elem_of_here.
        - by apply list_elem_of_further. }
      apply list_elem_of_fmap. by exists (a', p).
    + apply IH; [done | done |].
      intros a' p' Hin. apply Hget. by apply list_elem_of_further.
Qed.

Lemma engaged_values_NoDup st :
  loop_invariant preferences proposers acceptors st →
  NoDup (values (engagements st)).
Proof.
  intros Hinv. pose proof (inv_engagements_wf _ _ _ _ Hinv) as Hwf.
  apply (values_NoDup_of_injective (engagements st)).
  - exact Hwf.
  - apply (inv_injective _ _ _ _ Hinv).
  - intros a p. by apply elem_get.
Qed.

Lemma engagements_count st :
  loop_invariant preferences proposers acceptors st →
  free_proposers st = [] →
  length (engagements st) = (length proposers `min` length acceptors)%nat.
Proof.
  intros Hinv Hfree.
  pose proof (inv_engagements_wf _ _ _ _ Hinv) as Hwf.
  pose proof (engaged_values_NoDup st Hinv) as Hvnd.
  assert (Hka : (length (engagements st) ≤ length acceptors)%nat).
  { rewrite <- (length_fmap fst (engagements st)).
    apply submseteq_length, NoDup_submseteq; [exact Hwf|].
    intros a Ha. apply engaged_key_get in Ha as [p Hp].
    by apply (inv_engaged _ _ _ _ Hinv) in Hp as (? & _). }
  assert (Hvp : (length (engagements st) ≤ length proposers)%nat).
  { rewrite <- (length_fmap snd (engagements st)).
    apply submseteq_length, NoDup_submseteq; [exact Hvnd|].
    intros p Hp. apply list_elem_of_fmap in Hp as ([a p'] & -> & Hin).
    apply (elem_get _ _ _ Hwf) in Hin.
    by apply (inv_engaged _ _ _ _ Hinv) in Hin as (_ & ? & _). }
  destruct (decide (Forall (λ p, p ∈ values (engagements st)) proposers)) as [Hall|Hnot].
  - assert (length proposers ≤ length (engagements st))%nat; [|lia].
    rewrite <- (length_fmap snd (engagements st)).
    apply submseteq_length, NoDup_submseteq; [apply (pc_nodup_proposers _ _ _ Hpc)|].
    by apply Forall_forall.
  - apply not_Forall_Exists in Hnot; [|intros ?; apply _].
    apply Exists_exists in Hnot as (p & Hp & Hnv). simpl in Hnv.
    assert (length acceptors ≤ length (engagements st))%nat; [|lia].
    rewrite <- (length_fmap fst (engagements st)).
    apply submseteq_length, NoDup_submseteq; [apply (pc_nodup_acceptors _ _ _ Hpc)|].
    intros a Ha.
    destruct (inv_status _ _ _ _ Hinv p Hp) as [Hf | [[a' Ha'] | (i & Hi & Hle)]].
    + rewrite Hfree in Hf. by apply elem_of_nil in Hf.
    + exfalso. apply Hnv. apply get_Some_elem in Ha'.
      apply list_elem_of_fmap. by exists (a', p).
    + destruct (pc_proposer _ _ _ Hpc p Hp) as (l & Hl & Hperm).
      assert (Hal : a ∈ l) by (by rewrite Hperm).
      apply list_elem_of_lookup_1 in Hal as [k Hk].
      assert (k < i)%nat.
      { apply lookup_lt_Some in Hk. rewrite Hperm in Hk. lia. }
      destruct (inv_proposed _ _ _ _ Hinv p l i k a Hl Hi ltac:(done) Hk) as (q & Hq & _).
      by eapply get_Some_key.
Qed.

End engagement_properties.

(** X13.  With pairwise distinct identifiers the loop converges, within
    [n * m + n] passes, to exactly [min(n, m)] engagements: every entity of
    the smaller side is engaged before the threshold is applied. *)
Theorem X13_loop_engages_min_of_sizes
    (fuel : nat) (entities_a entities_b : list Entity) (criteria : Criteria) :
  NoDup (id <$> (entities_a ++ entities_b)) →
  (length entities_a * length entities_b + length entities_a ≤ fuel)%nat →
  ∃ st, GaleShapleyMatcher.converge fuel entities_a entities_b criteria = Ok st ∧
        GaleShapleyMatcher.free_proposers st = [] ∧
        length (GaleShapleyMatcher.engagements st) =
          (length entities_a `min` length entities_b)%nat.
Proof.
  intros Hnd Hfuel.
  destruct (converge_invariant fuel entities_a entities_b criteria Hnd Hfuel)
    as (st & Hrun & Hinv & Hfree).
  exists st. split; [done | split; [done|]].
  rewrite (engagements_count _ _ _
             (build_preference_lists_complete entities_a entities_b criteria Hnd)
             st Hinv Hfree).
  by rewrite !length_fmap.
Qed.

Lemma X13_witness :
  ∃ st, GaleShapleyMatcher.converge 6 three_candidates one_job experience_only = Ok st ∧
        GaleShapleyMatcher.free_proposers st = [] ∧
        length (GaleShapleyMatcher.engagements st) = 1%nat.
Proof.
  apply (X13_loop_engages_min_of_sizes 6 three_candidates one_job experience_only).
  - apply (bool_decide_unpack _). reflexivity.
  - simpl. lia.
Defined.


(** ** Results of the stable matcher *)

Section stable_result_properties.
Import Dict DictFacts GaleShapleyMatcher.
Local Open Scope Q_scope.

Lemma build_matches_total emap criteria items acc ms total :
  build_matches emap criteria items acc = Ok (ms, total) →
  total - acc.2 == wsum score ms - wsum score acc.1.
Proof.
  revert acc. induction items as [|[a p] items IH]; intros acc Hrun; simpl in Hrun.
  - injection Hrun as ->. simpl. lra.
  - unfold getitem in Hrun.
    destruct (get p emap) as [ea|]; [|done]. simpl in Hrun.
    destruct (get a emap) as [eb|]; [|done]. simpl in Hrun.
    destruct (Qlt_le_dec _ _).
    + by apply IH.
    + apply IH in Hrun. simpl in Hrun. rewrite wsum_app in Hrun. simpl in Hrun. lra.
Qed.

Lemma build_matches_kept emap criteria items acc :
  (∀ a p, (a, p) ∈ items → is_Some (get p emap) ∧ is_Some (get a emap)) →
  ∃ ms kept total,
    build_matches emap criteria items acc = Ok (acc.1 ++ ms, total) ∧
    kept `sublist_of` items ∧
    entity_a_id <$> ms = kept.*2 ∧ entity_b_id <$> ms = kept.*1 ∧
    Forall (λ m, ∃ ea eb,
              get (entity_a_id m) emap = Some ea ∧
              get (entity_b_id m) emap = Some eb ∧
              m = stable_match (entity_a_id m) (entity_b_id m)
                    (_calculate_similarity ea eb criteria) ∧
              min_score criteria <= _calculate_similarity ea eb criteria) ms.
Proof.
  revert acc. induction items as [|[a p] items IH]; intros acc Hdom; simpl.
  - exists [], [], acc.2. rewrite app_nil_r. destruct acc. by split_and!.
  - destruct (Hdom a p) as [[ea Hea] [eb Heb]]; [apply list_elem_of_here|].
    unfold getitem. rewrite Hea, Heb. simpl.
    assert (Hdom' : ∀ a' p', (a', p') ∈ items →
              is_Some (get p' emap) ∧ is_Some (get a' emap)).
    { intros a' p' Hin. apply Hdom. by apply list_elem_of_further. }
    destruct (Qlt_le_dec _ _) as [Hlt|Hle].
    + destruct (IH acc Hdom') as (ms & kept & total & Hrun & Hsub & Ha & Hb & Hall).
      exists ms, kept, total. split_and!; try done. by apply sublist_cons.
    + match goal with
      | |- context [build_matches _ _ _ ?acc'] =>
          destruct (IH acc' Hdom') as (ms & kept & total & Hrun & Hsub & Ha & Hb & Hall)
      end.
      simpl in Hrun. rewrite <- app_assoc in Hrun. simpl in Hrun.
      eexists (_ :: ms), ((a, p) :: kept), total.
      split_and!; [exact Hrun | by apply sublist_skip | by simpl; f_equal
                  | by simpl; f_equal |].
      constructor; [|done]. simpl. by exists ea, eb.
Qed.

Lemma stable_result_structure fuel entities_a entities_b criteria :
  NoDup (id <$> (entities_a ++ entities_b)) →
  entities_a ≠ [] → entities_b ≠ [] →
  (length entities_a * length entities_b + length entities_a ≤ fuel)%nat →
  ∃ st ms kept total,
    converge fuel entities_a entities_b criteria = Ok st ∧
    loop_invariant (_build_preference_lists entities_a entities_b criteria)
                   (id <$> entities_a) (id <$> entities_b) st ∧
    free_proposers st = [] ∧
    build_matches (entity_map entities_a entities_b) criteria (engagements st) ([], 0)
      = Ok (ms, total) ∧
    match_ fuel entities_a entities_b criteria =
      Ok {| matches := ms;
            unmatched_entities :=
              id <$> List.filter (λ e, negb (bool_decide (id e ∈ matched_ids ms)))
                       (entities_a ++ entities_b);
            total_score := total |} ∧
    kept `sublist_of` engagements st ∧
    entity_a_id <$> ms = kept.*2 ∧ entity_b_id <$> ms = kept.*1 ∧
    Forall (valid_stable_match entities_a entities_b criteria) ms.
Proof.
  intros Hnd Ha Hb Hfuel.
  destruct (converge_invariant fuel entities_a entities_b criteria Hnd Hfuel)
    as (st & Hrun & Hinv & Hfree).
  assert (∀ a p, get a (engagements st) = Some p →
            ∃ ea eb, ea ∈ entities_a ∧ eb ∈ entities_b ∧ id ea = p ∧ id eb = a ∧
                     get p (entity_map entities_a entities_b) = Some ea ∧
                     get a (entity_map entities_a entities_b) = Some eb) as Hent.
  { intros a p Hap. destruct (inv_engaged _ _ _ _ Hinv a p Hap) as (Ha' & Hp' & _).
    apply list_elem_of_fmap in Ha' as (eb & -> & Heb).
    apply list_elem_of_fmap in Hp' as (ea & -> & Hea).
    exists ea, eb. split_and!; try done.
    - apply entity_map_get; [done|]. apply elem_of_app. by left.
    - apply entity_map_get; [done|]. apply elem_of_app. by right. }
  pose proof (inv_engagements_wf _ _ _ _ Hinv) as Hwf.
  destruct (build_matches_kept (entity_map entities_a entities_b) criteria
              (engagements st) ([], 0)) as (ms & kept & total & Hbm & Hsub & Hida & Hidb & Hall).
  { intros a p Hin. apply (elem_get _ _ _ Hwf) in Hin.
    destruct (Hent a p Hin) as (ea & eb & _ & _ & _ & _ & -> & ->). by split. }
  simpl in Hbm.
  exists st, ms, kept, total. split_and!; try done.
  - unfold match_. destruct entities_a; [done|]. destruct entities_b; [done|].
    simpl is_empty. simpl orb. cbv iota. rewrite Hrun. simpl.
    unfold post_process. rewrite Hbm. done.
  - assert (Hkept : ∀ m, m ∈ ms → (entity_b_id m, entity_a_id m) ∈ kept).
    { clear -Hida Hidb. revert kept Hida Hidb.
      induction ms as [|m0 ms IH]; intros kept Hida Hidb m Hm.
      - by apply elem_of_nil in Hm.
      - destruct kept as [|[a p] kept]; [done|]. simpl in Hida, Hidb.
        injection Hida as Hp Hida. injection Hidb as Ha Hidb.
        apply elem_of_cons in Hm as [->|Hm].
        + rewrite Hp, Ha. apply list_elem_of_here.
        + apply list_elem_of_further. by apply IH. }
    apply Forall_forall. intros m Hm.
    rewrite Forall_forall in Hall.
    destruct (Hall m Hm) as (ea & eb & Hea & Heb & Hmeq & Hle).
    assert (Hin : (entity_b_id m, entity_a_id m) ∈ engagements st).
    { eapply elem_of_sublist; [|exact Hsub]. by apply Hkept. }
    apply (elem_get _ _ _ Hwf) in Hin.
    destruct (Hent _ _ Hin) as (ea' & eb' & Hea' & Heb' & Hia & Hib & Hga & Hgb).
    assert (ea' = ea) as -> by congruence.
    assert (eb' = eb) as -> by congruence.
    exists ea, eb. split_and!; try done. rewrite Hia, Hib. exact Hmeq.
Qed.

Lemma matched_ids_NoDup preferences entities_a entities_b st
    (ms : list Match) (kept : list (string * string)) :
  NoDup (id <$> (entities_a ++ entities_b)) →
  loop_invariant preferences (id <$> entities_a) (id <$> entities_b) st →
  kept `sublist_of` engagements st →
  entity_a_id <$> ms = kept.*2 → entity_b_id <$> ms = kept.*1 →
  NoDup (matched_ids ms).
Proof.
  intros Hnd Hinv Hsub Hida Hidb.
  pose proof (inv_engagements_wf _ _ _ _ Hinv) as Hwf.
  unfold matched_ids. rewrite Hida, Hidb. apply NoDup_app. split_and!.
  - eapply sublist_NoDup; [|by apply fmap_sublist].
    apply (values_NoDup_of_injective (engagements st)).
    + exact Hwf.
    + apply (inv_injective _ _ _ _ Hinv).
    + intros a p. by apply elem_get.
  - intros x Hp Ha.
    apply list_elem_of_fmap in Hp as ([a1 p1] & -> & Hin1).
    apply list_elem_of_fmap in Ha as ([a2 p2] & Heq & Hin2). simpl in Heq. subst p1.
    apply (elem_of_sublist _ _ _ Hin1) in Hsub as Hin1'.
    apply (elem_of_sublist _ _ _ Hin2) in Hsub as Hin2'.
    apply (elem_get _ _ _ Hwf) in Hin1'. apply (elem_get _ _ _ Hwf) in Hin2'.
    destruct (inv_engaged _ _ _ _ Hinv _ _ Hin1') as (_ & Hp & _).
    destruct (inv_engaged _ _ _ _ Hinv _ _ Hin2') as (Ha & _ & _).
    rewrite fmap_app in Hnd. apply NoDup_app in Hnd as (_ & Hd & _).
    by apply (Hd a2).
  - eapply sublist_NoDup; [exact Hwf | by apply fmap_sublist].
Qed.

End stable_result_properties.

(** X14.  With pairwise distinct identifiers and a budget of [n * m + n]
    passes the stable matcher returns a result whose matches each pair an
    entity of the first list with one of the second at the stable matcher's
    score, which is at least [min_score]; no identifier occurs in two of
    them, and there are at most [min(n, m)]. *)
Theorem X14_stable_result_is_a_matching
    (fuel : nat) (entities_a entities_b : list Entity) (criteria : Criteria) :
  NoDup (id <$> (entities_a ++ entities_b)) →
  (length entities_a * length entities_b + length entities_a ≤ fuel)%nat →
  ∃ res,
    GaleShapleyMatcher.match_ fuel entities_a entities_b criteria = Ok res ∧
    Forall (valid_stable_match entities_a entities_b criteria) (matches res) ∧
    NoDup (GaleShapleyMatcher.matched_ids (matches res)) ∧
    (length (matches res) ≤ length entities_a `min` length entities_b)%nat.
Proof.
  intros Hnd Hfuel.
  destruct (decide (entities_a = [])) as [->|Ha].
  { eexists. split; [reflexivity|]. simpl. split_and!; [constructor | constructor | lia]. }
  destruct (decide (entities_b = [])) as [->|Hb].
  { eexists. split; [by destruct entities_a|]. simpl.
    split_and!; [constructor | constructor | lia]. }
  destruct (stable_result_structure fuel entities_a entities_b criteria Hnd Ha Hb Hfuel)
    as (st & ms & kept & total & Hconv & Hinv & Hfree & Hbm & Hrun & Hsub & Hida & Hidb & Hall).
  eexists. split; [exact Hrun|]. simpl. split_and!.
  - done.
  - by eapply matched_ids_NoDup.
  - rewrite <- (length_fmap entity_a_id ms), Hida, length_fmap.
    apply sublist_length in Hsub.
    rewrite (engagements_count _ _ _
               (build_preference_lists_complete entities_a entities_b criteria Hnd)
               st Hinv Hfree) in Hsub.
    by rewrite !length_fmap in Hsub.
Qed.

Lemma X14_witness :
  ∃ res,
    GaleShapleyMatcher.match_ 6 case_candidates case_jobs case_criteria = Ok res ∧
    Forall (valid_stable_match case_candidates case_jobs case_criteria) (matches res) ∧
    NoDup (GaleShapleyMatcher.matched_ids (matches res)) ∧
    (length (matches res) ≤ length case_candidates `min` length case_jobs)%nat.
Proof.
  apply (X14_stable_result_is_a_matching 6 case_candidates case_jobs case_criteria).
  - apply (bool_decide_unpack _). reflexivity.
  - simpl. lia.
Defined.

Section partition_properties.
Import GaleShapleyMatcher.

Lemma filter_sublist {A} (f : A → bool) (l : list A) : List.filter f l `sublist_of` l.
Proof.
  induction l as [|x l IH]; simpl; [constructor|].
  destruct (f x); [by apply sublist_skip | by apply sublist_cons].
Qed.

Lemma matched_filter_perm (entities : list Entity) (ids : list string) :
  NoDup (id <$> entities) → NoDup ids → (∀ x, x ∈ ids → x ∈ id <$> entities) →
  id <$> List.filter (λ e, bool_decide (id e ∈ ids)) entities ≡ₚ ids.
Proof.
  intros Hnd Hids Hsub. apply NoDup_Permutation; [|done|].
  - eapply sublist_NoDup; [exact Hnd|]. apply fmap_sublist, filter_sublist.
  - intros x. split.
    + intros (e & -> & He)%list_elem_of_fmap.
      apply list_elem_of_In, filter_In in He as [_ He].
      by apply bool_decide_eq_true in He.
    + intros Hx. pose proof (Hsub x Hx) as Hxe.
      apply list_elem_of_fmap in Hxe as (e & -> & He).
      apply list_elem_of_fmap. exists e. split; [done|].
      apply list_elem_of_In, filter_In. split; [by apply list_elem_of_In|].
      by apply bool_decide_eq_true.
Qed.

Lemma unmatched_filter_count (entities : list Entity) (ids : list string) :
  NoDup (id <$> entities) → NoDup ids → (∀ x, x ∈ ids → x ∈ id <$> entities) →
  (length (List.filter (λ e, negb (bool_decide (id e ∈ ids))) entities) + length ids
   = length entities)%nat.
Proof.
  intros Hnd Hids Hsub.
  pose proof (filter_length (λ e, bool_decide (id e ∈ ids)) entities) as Hlen.
  pose proof (Permutation_length (matched_filter_perm entities ids Hnd Hids Hsub)) as Hp.
  rewrite length_fmap in Hp. simpl in *. lia.
Qed.

Lemma unmatched_elem (entities : list Entity) (ids : list string) x :
  x ∈ id <$> List.filter (λ e, negb (bool_decide (id e ∈ ids))) entities ↔
  x ∈ id <$> entities ∧ x ∉ ids.
Proof.
  split.
  - intros (e & -> & He)%list_elem_of_fmap.
    apply list_elem_of_In, filter_In in He as [He Hn].
    apply negb_true_iff, bool_decide_eq_false in Hn.
    split; [|done]. apply list_elem_of_fmap. exists e. split; [done|].
    by apply list_elem_of_In.
  - intros [(e & -> & He)%list_elem_of_fmap Hn].
    apply list_elem_of_fmap. exists e. split; [done|].
    apply list_elem_of_In, filter_In. split; [by apply list_elem_of_In|].
    by apply negb_true_iff, bool_decide_eq_false.
Qed.

End partition_properties.

(** X15.  For entities whose identifiers are pairwise distinct over both
    lists together and whose numeric attributes are finite and within
    [double_range], the stable matcher accounts for every entity: an
    identifier is reported unmatched exactly when it belongs to one of the
    input lists and to no match, so the unmatched identifiers and twice the
    matches add up to [n + m]. *)
Theorem X15_stable_result_partitions_the_entities
    (fuel : nat) (entities_a entities_b : list Entity) (criteria : Criteria) :
  NoDup (id <$> (entities_a ++ entities_b)) →
  Forall in_double_range (entities_a ++ entities_b) →
  (length entities_a * length entities_b + length entities_a ≤ fuel)%nat →
  ∃ res,
    GaleShapleyMatcher.match_ fuel entities_a entities_b criteria = Ok res ∧
    (∀ x, x ∈ unmatched_entities res ↔
          x ∈ id <$> (entities_a ++ entities_b) ∧
          x ∉ GaleShapleyMatcher.matched_ids (matches res)) ∧
    (length (unmatched_entities res) + 2 * length (matches res)
     = length entities_a + length entities_b)%nat.
Proof.
  intros Hnd _ Hfuel.
  assert (Hempty : ∀ x, x ∈ id <$> (entities_a ++ entities_b) ↔
            x ∈ id <$> (entities_a ++ entities_b) ∧
            x ∉ GaleShapleyMatcher.matched_ids []).
  { intros x. split; [|by intros [? _]]. intros Hx. split; [done|]. apply not_elem_of_nil. }
  destruct (decide (entities_a = [])) as [->|Ha].
  { eexists. split; [reflexivity|]. simpl. split; [exact Hempty|].
    rewrite length_fmap. lia. }
  destruct (decide (entities_b = [])) as [->|Hb].
  { eexists. split; [by destruct entities_a|]. simpl. split; [exact Hempty|].
    rewrite length_fmap, length_app. simpl. lia. }
  destruct (stable_result_structure fuel entities_a entities_b criteria Hnd Ha Hb Hfuel)
    as (st & ms & kept & total & Hconv & Hinv & Hfree & Hbm & Hrun & Hsub & Hida & Hidb & Hall).
  eexists. split; [exact Hrun|]. simpl. split.
  - intros x. apply unmatched_elem.
  - rewrite length_fmap.
    assert (Hin : ∀ x, x ∈ GaleShapleyMatcher.matched_ids ms →
              x ∈ id <$> (entities_a ++ entities_b)).
    { intros x Hx. unfold GaleShapleyMatcher.matched_ids in Hx.
      rewrite Forall_forall in Hall. rewrite fmap_app.
      apply elem_of_app in Hx as [(m & -> & Hm)%list_elem_of_fmap
                                  | (m & -> & Hm)%list_elem_of_fmap];
        destruct (Hall m Hm) as (ea & eb & Hea & Heb & -> & _); simpl;
        apply elem_of_app; [left | right]; apply list_elem_of_fmap; eauto. }
    pose proof (unmatched_filter_count (entities_a ++ entities_b)
                  (GaleShapleyMatcher.matched_ids ms) Hnd
                  (matched_ids_NoDup _ _ _ _ _ _ Hnd Hinv Hsub Hida Hidb) Hin) as Hcount.
    assert (Hlen : length (GaleShapleyMatcher.matched_ids ms) = (2 * length ms)%nat).
    { unfold GaleShapleyMatcher.matched_ids. rewrite length_app, !length_fmap. lia. }
    rewrite length_app in Hcount. lia.
Qed.

Lemma X15_witness :
  ∃ res,
    GaleShapleyMatcher.match_ 6 three_candidates one_job experience_only = Ok res ∧
    (∀ x, x ∈ unmatched_entities res ↔
          x ∈ id <$> (three_candidates ++ one_job) ∧
          x ∉ GaleShapleyMatcher.matched_ids (matches res)) ∧
    (length (unmatched_entities res) + 2 * length (matches res)
     = length three_candidates + length one_job)%nat.
Proof.
  apply (X15_stable_result_partitions_the_entities 6 three_candidates one_job
           experience_only).
  - apply (bool_decide_unpack _). reflexivity.
  - repeat constructor; vm_compute; discriminate.
  - simpl. lia.
Defined.


(** ** Looking a match up, threshold zero, statistics *)

Section lookup_properties.
Import GaleShapleyMatcher.

Lemma lookup_unmatched (r : MatchingResult) x :
  x ∉ matched_ids (matches r) → get_match_for_entity r x = None.
Proof.
  unfold get_match_for_entity, matched_ids. induction (matches r) as [|m ms IH]; [done|].
  rewrite !fmap_cons, elem_of_app, !elem_of_cons. intros Hn. simpl.
  rewrite bool_decide_eq_false_2 by (intros <-; apply Hn; left; by left).
  rewrite bool_decide_eq_false_2 by (intros <-; apply Hn; right; by left).
  simpl. apply IH. rewrite elem_of_app. intros [?|?]; apply Hn; [left | right]; by right.
Qed.

Lemma lookup_matched (r : MatchingResult) m :
  NoDup (matched_ids (matches r)) → m ∈ matches r →
  get_match_for_entity r (entity_a_id m) = Some m ∧
  get_match_for_entity r (entity_b_id m) = Some m.
Proof.
  unfold get_match_for_entity, matched_ids. induction (matches r) as [|m0 ms IH].
  { intros _ Hm. by apply elem_of_nil in Hm. }
  intros Hnd Hm.
  change (NoDup ((entity_a_id m0 :: (entity_a_id <$> ms)) ++
                 (entity_b_id m0 :: (entity_b_id <$> ms)))) in Hnd.
  apply NoDup_app in Hnd as (Hna & Hdisj & Hnb).
  apply NoDup_cons in Hna as [Ha0 Hna]. apply NoDup_cons in Hnb as [Hb0 Hnb].
  apply elem_of_cons in Hm as [->|Hm].
  - simpl. rewrite bool_decide_eq_true_2 by done. simpl. split; [done|].
    rewrite (bool_decide_eq_true_2 (entity_b_id m0 = entity_b_id m0)) by done.
    by rewrite orb_true_r.
  - assert (Hma : entity_a_id m ∈ entity_a_id <$> ms)
      by (apply list_elem_of_fmap; by exists m).
    assert (Hmb : entity_b_id m ∈ entity_b_id <$> ms)
      by (apply list_elem_of_fmap; by exists m).
    destruct IH as [IHa IHb]; [|done|].
    { apply NoDup_app. split_and!; [done | | done].
      intros x Hx Hx'. apply (Hdisj x); by apply list_elem_of_further. }
    simpl. split.
    + rewrite bool_decide_eq_false_2 by (intros Heq; apply Ha0; by rewrite Heq).
      rewrite bool_decide_eq_false_2; [done|].
      intros Heq. apply (Hdisj (entity_a_id m)); [by apply list_elem_of_further|].
      rewrite <- Heq. apply list_elem_of_here.
    + rewrite bool_decide_eq_false_2.
      * rewrite bool_decide_eq_false_2 by (intros Heq; apply Hb0; by rewrite Heq). done.
      * intros Heq. apply (Hdisj (entity_a_id m0)); [apply list_elem_of_here|].
        rewrite Heq. by apply list_elem_of_further.
Qed.

End lookup_properties.

(** X16.  On a result of the stable matcher (identifiers pairwise distinct),
    [get_match_for_entity] returns a reported match for either of its two
    identifiers, and nothing for an identifier reported unmatched. *)
Theorem X16_lookup_round_trip
    (fuel : nat) (entities_a entities_b : list Entity) (criteria : Criteria) :
  NoDup (id <$> (entities_a ++ entities_b)) →
  (length entities_a * length entities_b + length entities_a ≤ fuel)%nat →
  ∃ res,
    GaleShapleyMatcher.match_ fuel entities_a entities_b criteria = Ok res ∧
    (∀ m, m ∈ matches res →
       get_match_for_entity res (entity_a_id m) = Some m ∧
       get_match_for_entity res (entity_b_id m) = Some m) ∧
    (∀ x, x ∈ unmatched_entities res → get_match_for_entity res x = None).
Proof.
  intros Hnd Hfuel.
  destruct (decide (entities_a = [])) as [->|Ha].
  { eexists. split; [reflexivity|]. simpl. split; [|done].
    intros m Hm. by apply elem_of_nil in Hm. }
  destruct (decide (entities_b = [])) as [->|Hb].
  { eexists. split; [by destruct entities_a|]. simpl. split; [|done].
    intros m Hm. by apply elem_of_nil in Hm. }
  destruct (stable_result_structure fuel entities_a entities_b criteria Hnd Ha Hb Hfuel)
    as (st & ms & kept & total & Hconv & Hinv & Hfree & Hbm & Hrun & Hsub & Hida & Hidb & Hall).
  eexists. split; [exact Hrun|]. split.
  - intros m Hm. apply lookup_matched; [|done]. simpl.
    by eapply matched_ids_NoDup.
  - intros x Hx. simpl in Hx. apply unmatched_elem in Hx as [_ Hx].
    by apply lookup_unmatched.
Qed.

Lemma X16_witness :
  ∃ res,
    GaleShapleyMatcher.match_ 6 three_candidates one_job experience_only = Ok res ∧
    (∀ m, m ∈ matches res →
       get_match_for_entity res (entity_a_id m) = Some m ∧
       get_match_for_entity res (entity_b_id m) = Some m) ∧
    (∀ x, x ∈ unmatched_entities res → get_match_for_entity res x = None).
Proof.
  apply (X16_lookup_round_trip 6 three_candidates one_job experience_only).
  - apply (bool_decide_unpack _). reflexivity.
  - simpl. lia.
Defined.



Section statistics_properties.
Local Open Scope Q_scope.

Lemma statistics_average (r : MatchingResult) :
  total_score r == score_sum (matches r) →
  average_score (get_statistics r) *
    inject_Z (Z.of_nat (total_matches (get_statistics r))) == total_score r.
Proof.
  intros Htot. unfold get_statistics. cbn [average_score total_matches].
  rewrite Htot. unfold score_sum.
  destruct (matches r) as [|m ms]; cbn [is_empty].
  - simpl. ring.
  - rewrite Qsum_wsum, wsum_fmap.
    set (n := inject_Z (Z.of_nat (length (m :: ms)))).
    assert (Hn : ¬ n == 0).
    { unfold n, Qeq. simpl. lia. }
    rewrite Qmult_comm. apply Qmult_div_r. exact Hn.
Qed.



End statistics_properties.




(** ** The required-attribute gate *)

Section gate_properties.
Local Open Scope Q_scope.

Lemma all_pairs_gated_elem entities_a entities_b criteria ea eb :
  all_pairs_gated entities_a entities_b criteria →
  ea ∈ entities_a → eb ∈ entities_b → missing_required ea eb criteria = true.
Proof.
  unfold all_pairs_gated. rewrite Forall_forall. intros H Ha Hb.
  specialize (H ea Ha). rewrite Forall_forall in H. by apply H.
Qed.

Lemma gated_no_valid_optimal entities_a entities_b criteria m :
  all_pairs_gated entities_a entities_b criteria →
  ¬ valid_optimal_match entities_a entities_b criteria m.
Proof.
  intros Hg (i & j & ea & eb & Hea & Heb & _ & Hpos & _).
  unfold HungarianMatcher._calculate_similarity in Hpos.
  rewrite (all_pairs_gated_elem _ _ _ ea eb Hg) in Hpos.
  - by apply Qlt_irrefl in Hpos.
  - by eapply list_elem_of_lookup_2.
  - by eapply list_elem_of_lookup_2.
Qed.

Lemma extract_gated entities_a entities_b criteria pairs acc :
  all_pairs_gated entities_a entities_b criteria →
  HungarianMatcher.extract entities_a entities_b criteria
    (HungarianMatcher.pad (length entities_a) (length entities_b)
       (HungarianMatcher._calculate_cost_matrix entities_a entities_b criteria))
    pairs acc = Ok acc.
Proof.
  intros Hg. induction pairs as [|ij pairs IH]; [done|].
  cbn [HungarianMatcher.extract]. rewrite extract_pair_pad.
  destruct (extract_pair_any entities_a entities_b criteria acc ij)
    as (acc1 & -> & Hstep). cbn [mbind result_bind].
  destruct Hstep as [-> | (m & Hm & _)]; [done|].
  by apply gated_no_valid_optimal in Hm.
Qed.

Lemma unmatched_of_none (entities : list Entity) :
  HungarianMatcher.unmatched_of entities [] = id <$> entities.
Proof.
  unfold HungarianMatcher.unmatched_of. rewrite filter_all_true.
  - rewrite <- (enumerate_snd entities) at 2. by rewrite <- list_fmap_compose.
  - intros ie _. rewrite bool_decide_eq_false_2; [done|]. apply not_elem_of_nil.
Qed.

End gate_properties.

(** X19.  When every pair of the two lists misses a required attribute and
    the threshold is positive, the stable matcher (identifiers pairwise
    distinct) reports no match at all: every identifier is unmatched, in
    input order, and the total is 0. *)
Theorem X19_stable_gate_leaves_everyone_unmatched
    (fuel : nat) (entities_a entities_b : list Entity) (criteria : Criteria) :
  all_pairs_gated entities_a entities_b criteria →
  (0 < min_score criteria)%Q →
  NoDup (id <$> (entities_a ++ entities_b)) →
  (length entities_a * length entities_b + length entities_a ≤ fuel)%nat →
  ∃ res,
    GaleShapleyMatcher.match_ fuel entities_a entities_b criteria = Ok res ∧
    matches res = [] ∧
    unmatched_entities res = id <$> (entities_a ++ entities_b) ∧
    (total_score res == 0)%Q.
Proof.
  intros Hg Hpos Hnd Hfuel.
  destruct (decide (entities_a = [])) as [->|Ha].
  { eexists. split; [reflexivity|]. by split_and!. }
  destruct (decide (entities_b = [])) as [->|Hb].
  { eexists. split; [by destruct entities_a|]. by split_and!. }
  destruct (stable_result_structure fuel entities_a entities_b criteria Hnd Ha Hb Hfuel)
    as (st & ms & kept & total & Hconv & Hinv & Hfree & Hbm & Hrun & Hsub & Hida & Hidb & Hall).
  assert (ms = []) as ->.
  { destruct ms as [|m ms]; [done|]. exfalso.
    apply Forall_cons in Hall as [(ea & eb & Hea & Heb & _ & Hle) _].
    unfold GaleShapleyMatcher._calculate_similarity in Hle.
    rewrite (all_pairs_gated_elem _ _ _ ea eb Hg Hea Heb) in Hle.
    by apply Qle_not_lt in Hle. }
  eexists. split; [exact Hrun|]. cbn [matches unmatched_entities total_score].
  split_and!.
  - done.
  - rewrite filter_all_true; [done|]. intros e _.
    rewrite bool_decide_eq_false_2; [done|]. apply not_elem_of_nil.
  - apply build_matches_total in Hbm. simpl in Hbm. lra.
Qed.

Lemma X19_witness :
  ∃ res,
    GaleShapleyMatcher.match_ 12 example_candidates example_jobs example_criteria
      = Ok res ∧
    matches res = [] ∧
    unmatched_entities res = id <$> (example_candidates ++ example_jobs) ∧
    (total_score res == 0)%Q.
Proof.
  apply (X19_stable_gate_leaves_everyone_unmatched 12 example_candidates example_jobs
           example_criteria).
  - repeat constructor.
  - vm_compute. reflexivity.
  - apply (bool_decide_unpack _). reflexivity.
  - simpl. lia.
Defined.

(** X20.  When every pair of the two lists misses a required attribute, the
    optimal matcher reports no match whatever assignment the solver
    returns: every identifier is unmatched, in input order, and the total
    is 0. *)
Theorem X20_optimal_gate_leaves_everyone_unmatched
    (solver : list (list cost) → result (list nat * list nat))
    (entities_a entities_b : list Entity) (criteria : Criteria) (res : MatchingResult) :
  all_pairs_gated entities_a entities_b criteria →
  HungarianMatcher.match_ solver entities_a entities_b criteria = Ok res →
  matches res = [] ∧
  unmatched_entities res = id <$> (entities_a ++ entities_b) ∧
  total_score res = 0%Q.
Proof.
  intros Hg Hrun.
  destruct (decide (entities_a = [])) as [->|Ha].
  { injection Hrun as <-. done. }
  destruct (decide (entities_b = [])) as [->|Hb].
  { destruct entities_a; [done|]. injection Hrun as <-. done. }
  rewrite match_nonempty in Hrun by done. cbn zeta in Hrun.
  destruct (solver _) as [[rows cols]|e|]; [|done|done].
  cbn [mbind result_bind] in Hrun.
  rewrite extract_gated in Hrun by done.
  cbn [mbind result_bind] in Hrun. injection Hrun as <-.
  cbn [matches unmatched_entities total_score HungarianMatcher.ex_matches
       HungarianMatcher.ex_matched_a HungarianMatcher.ex_matched_b
       HungarianMatcher.ex_total_score].
  split_and!; [done | | done].
  by rewrite !unmatched_of_none, fmap_app.
Qed.

Lemma X20_witness :
  ∃ res,
    HungarianMatcher.match_ exhaustive_assignment
      example_candidates example_jobs example_criteria = Ok res ∧
    matches res = [] ∧
    unmatched_entities res = id <$> (example_candidates ++ example_jobs) ∧
    total_score res = 0%Q.
Proof.
  eexists. split; [vm_compute; reflexivity|].
  apply (X20_optimal_gate_leaves_everyone_unmatched exhaustive_assignment
           example_candidates example_jobs example_criteria).
  - repeat constructor.
  - vm_compute. reflexivity.
Defined.


(** ** The optimum is attained *)

Section attained_properties.
Import HungarianMatcher.
Local Open Scope Q_scope.

Lemma kept_threshold entities_a entities_b criteria i j :
  kept entities_a entities_b criteria (i, j) = true →
  min_score criteria <= pair_score entities_a entities_b criteria i j.
Proof.
  unfold kept, pair_score. cbn [fst snd].
  destruct (entities_a !! i) as [ea|]; [destruct (entities_b !! j) as [eb|]|].
  - destruct (Qlt_le_dec _ _) as [Hpos|]; [|done]. intros _.
    by apply similarity_pos_above_threshold.
  - destruct (Qlt_le_dec _ _) as [Hpos|]; [|done]. by apply Qlt_irrefl in Hpos.
  - destruct (Qlt_le_dec _ _) as [Hpos|]; [|done]. by apply Qlt_irrefl in Hpos.
Qed.

Lemma kept_pairs_feasible entities_a entities_b criteria cols :
  length entities_a = length entities_b →
  cols ≡ₚ seq 0 (length entities_a) →
  feasible_assignment entities_a entities_b criteria
    (List.filter (kept entities_a entities_b criteria) (enumerate cols)).
Proof.
  intros Hlen Hperm. split.
  - eapply sublist_NoDup; [|apply fmap_sublist, filter_sublist].
    rewrite enumerate_fst. apply NoDup_seq.
  - eapply sublist_NoDup; [|apply fmap_sublist, filter_sublist].
    rewrite enumerate_snd, Hperm. apply NoDup_seq.
  - intros i j Hin. apply list_elem_of_In, filter_In in Hin as [Hin _].
    apply list_elem_of_In in Hin.
    destruct (enumerate_range cols _ i j Hperm Hin). split; [done | lia].
  - intros i j Hin. apply list_elem_of_In, filter_In in Hin as [_ Hk].
    by apply kept_threshold.
Qed.

End attained_properties.

(** X21.  On non-empty lists of equal length, with a solver honouring its
    contract, the result of the optimal matcher is itself a one-to-one set
    of position pairs within the lists, each scoring at least [min_score]:
    the reported identifiers are those of these pairs and [total_score] is
    their total. *)
Theorem X21_optimal_result_is_a_feasible_assignment
    (solver : list (list cost) → result (list nat * list nat))
    (entities_a entities_b : list Entity) (criteria : Criteria) :
  solver_contract solver →
  entities_a ≠ [] → length entities_a = length entities_b →
  ∃ res pairs,
    HungarianMatcher.match_ solver entities_a entities_b criteria = Ok res ∧
    feasible_assignment entities_a entities_b criteria pairs ∧
    matching_pairs res = pair_ids entities_a entities_b <$> pairs ∧
    (total_score res == assignment_score entities_a entities_b criteria pairs)%Q.
Proof.
  intros Hsolver Ha Hlen.
  destruct (match_square solver entities_a entities_b criteria Hsolver Ha Hlen)
    as (cols & res & ma & mb & Hperm & _ & Hrun & Hpairs & Htot & _).
  exists res, (List.filter (kept entities_a entities_b criteria) (enumerate cols)).
  split_and!; [done | by apply kept_pairs_feasible | done | done].
Qed.

Lemma X21_witness :
  ∃ res pairs,
    HungarianMatcher.match_ exhaustive_assignment case_candidates case_jobs case_criteria
      = Ok res ∧
    feasible_assignment case_candidates case_jobs case_criteria pairs ∧
    matching_pairs res = pair_ids case_candidates case_jobs <$> pairs ∧
    (total_score res == assignment_score case_candidates case_jobs case_criteria pairs)%Q.
Proof.
  apply (X21_optimal_result_is_a_feasible_assignment exhaustive_assignment
           case_candidates case_jobs case_criteria exhaustive_assignment_contract).
  - discriminate.
  - reflexivity.
Defined.


(** ** The matching service *)

Section service_properties.
Variable solver : list (list cost) → result (list nat * list nat).
Variable fuel : nat.
Variable repr : string → string.
Variable str : exception → string.

Lemma EntityType_of_value_valid (t : EntityType) :
  EntityType_of_value repr (EntityType_value t) = Ok t.
Proof. by destruct t. Qed.

Lemma entities_of_requests_valid (requests : list EntityRequest.t) :
  valid_entity_types requests →
  ∃ entities,
    entities_of_requests repr requests = Ok entities ∧
    length entities = length requests ∧
    id <$> entities = EntityRequest.id <$> requests.
Proof.
  induction 1 as [|e requests [t Ht] _ IH].
  - by exists [].
  - destruct IH as (entities & Hrun & Hlen & Hids).
    exists (mkEntity (EntityRequest.id e) t (EntityRequest.attributes e)
              (EntityRequest.preferences e) (EntityRequest.constraints e) :: entities).
    split_and!.
    + cbn [entities_of_requests]. unfold entity_of_request.
      rewrite <- Ht, EntityType_of_value_valid. cbn [mbind result_bind].
      rewrite Hrun. done.
    + cbn [length]. by rewrite Hlen.
    + rewrite !fmap_cons, Hids. done.
Qed.

Lemma select_matcher_lower (algorithm : string) :
  lower algorithm = "hungarian" ∨ lower algorithm = "gale_shapley" →
  select_matcher (lower algorithm) = select_matcher algorithm.
Proof.
  intros Hknown. unfold select_matcher. rewrite lower_idemp.
  destruct Hknown as [-> | ->]; done.
Qed.

End service_properties.

(** X22.  An unknown algorithm name is answered with status 500, not 400:
    the handler raises its 400 inside the [try] block, where its own
    [except Exception] catches it and raises a 500 whose detail is the text
    of the 400. *)
Theorem X22_unknown_algorithm_answered_500
    (solver : list (list cost) → result (list nat * list nat)) (fuel : nat)
    (repr : string → string) (str : exception → string)
    (request : MatchingRequest.t) :
  valid_entity_types (MatchingRequest.entities_a request) →
  valid_entity_types (MatchingRequest.entities_b request) →
  lower (MatchingRequest.algorithm request) ≠ "hungarian" →
  lower (MatchingRequest.algorithm request) ≠ "gale_shapley" →
  match_entities solver fuel repr str request =
    Throw (HTTPException 500
             (str (HTTPException 400
                     ("Unknown algorithm: " +:+ MatchingRequest.algorithm request)))).
Proof.
  intros Ha Hb Hh Hg.
  destruct (entities_of_requests_valid repr _ Ha) as (entities_a & Hra & _).
  destruct (entities_of_requests_valid repr _ Hb) as (entities_b & Hrb & _).
  unfold match_entities, match_entities_try. rewrite Hra, Hrb. simpl.
  unfold select_matcher. by rewrite !bool_decide_eq_false_2.
Qed.

Lemma X22_witness :
  match_entities exhaustive_assignment 6 (λ s, s) (λ _, "error")
    (sample_request three_candidates one_job "munkres") =
  Throw (HTTPException 500 "error").
Proof.
  apply (X22_unknown_algorithm_answered_500 exhaustive_assignment 6 (λ s, s)
           (λ _, "error") (sample_request three_candidates one_job "munkres")).
  - repeat constructor; by exists CANDIDATE.
  - repeat constructor; by exists CANDIDATE.
  - discriminate.
  - discriminate.
Defined.

(** X23.  Through the service, the optimal matcher on non-empty lists of
    different lengths is answered with status 500: the solver's error on
    the padded matrix reaches the handler's [except] clause. *)
Theorem X23_size_mismatch_answered_500
    (solver : list (list cost) → result (list nat * list nat)) (fuel : nat)
    (repr : string → string) (str : exception → string)
    (request : MatchingRequest.t) :
  solver_contract solver →
  valid_entity_types (MatchingRequest.entities_a request) →
  valid_entity_types (MatchingRequest.entities_b request) →
  lower (MatchingRequest.algorithm request) = "hungarian" →
  MatchingRequest.entities_a request ≠ [] →
  MatchingRequest.entities_b request ≠ [] →
  length (MatchingRequest.entities_a request) ≠
    length (MatchingRequest.entities_b request) →
  match_entities solver fuel repr str request =
    Throw (HTTPException 500 (str (Builtin infeasible_error))).
Proof.
  intros Hsolver Ha Hb Halg Hna Hnb Hlen.
  destruct (entities_of_requests_valid repr _ Ha) as (entities_a & Hra & Hla & _).
  destruct (entities_of_requests_valid repr _ Hb) as (entities_b & Hrb & Hlb & _).
  unfold match_entities, match_entities_try. rewrite Hra, Hrb. simpl.
  unfold select_matcher. rewrite Halg. simpl.
  rewrite match_size_mismatch; [done | done | | | lia].
  - intros ->. destruct (MatchingRequest.entities_a request); done.
  - intros ->. destruct (MatchingRequest.entities_b request); done.
Qed.

Lemma X23_witness :
  match_entities exhaustive_assignment 6 (λ s, s) (λ _, "error")
    (sample_request three_candidates one_job "Hungarian") =
  Throw (HTTPException 500 "error").
Proof.
  apply (X23_size_mismatch_answered_500 exhaustive_assignment 6 (λ s, s)
           (λ _, "error") (sample_request three_candidates one_job "Hungarian")
           exhaustive_assignment_contract).
  - repeat constructor; by exists CANDIDATE.
  - repeat constructor; by exists CANDIDATE.
  - reflexivity.
  - discriminate.
  - discriminate.
  - simpl. lia.
Defined.

(** X24.  The service reads the algorithm name without regard to letter
    case: a request naming one of the two algorithms in any casing is
    answered exactly as the same request with the name in lower case. *)
Theorem X24_algorithm_name_case_insensitive
    (solver : list (list cost) → result (list nat * list nat)) (fuel : nat)
    (repr : string → string) (str : exception → string)
    (request : MatchingRequest.t) (algorithm : string) :
  lower algorithm = "hungarian" ∨ lower algorithm = "gale_shapley" →
  match_entities solver fuel repr str (with_algorithm request algorithm) =
  match_entities solver fuel repr str (with_algorithm request (lower algorithm)).
Proof.
  intros Hknown. unfold match_entities, match_entities_try, with_algorithm.
  cbn [MatchingRequest.entities_a MatchingRequest.entities_b MatchingRequest.criteria
       MatchingRequest.algorithm].
  by rewrite (select_matcher_lower algorithm Hknown).
Qed.

Lemma X24_witness :
  match_entities exhaustive_assignment 6 (λ s, s) (λ _, "error")
    (with_algorithm (sample_request three_candidates one_job "") "Gale_Shapley") =
  match_entities exhaustive_assignment 6 (λ s, s) (λ _, "error")
    (with_algorithm (sample_request three_candidates one_job "") "gale_shapley").
Proof.
  apply (X24_algorithm_name_case_insensitive exhaustive_assignment 6 (λ s, s)
           (λ _, "error") (sample_request three_candidates one_job "") "Gale_Shapley").
  right. reflexivity.
Defined.

(** X25.  A stable-matching request with valid entity types, identifiers
    that are pairwise distinct over both lists together, and numeric
    attributes that are finite and within [double_range] is answered with a
    response, not an error, once the loop has its [n * m + n] passes; the
    response reports at most
    [min(n, m)] matches, and its statistics count them and account for
    every entity: unmatched plus twice the matches is [n + m]. *)
Theorem X25_stable_request_is_answered
    (solver : list (list cost) → result (list nat * list nat)) (fuel : nat)
    (repr : string → string) (str : exception → string)
    (request : MatchingRequest.t) :
  let n := length (MatchingRequest.entities_a request) in
  let m := length (MatchingRequest.entities_b request) in
  valid_entity_types (MatchingRequest.entities_a request) →
  valid_entity_types (MatchingRequest.entities_b request) →
  NoDup (EntityRequest.id <$>
           (MatchingRequest.entities_a request ++ MatchingRequest.entities_b request)) →
  request_in_double_range request →
  lower (MatchingRequest.algorithm request) = "gale_shapley" →
  (n * m + n ≤ fuel)%nat →
  ∃ response,
    match_entities solver fuel repr str request = Return response ∧
    total_matches (MatchingResponse.statistics response) =
      length (MatchingResponse.matches response) ∧
    (total_matches (MatchingResponse.statistics response) ≤ n `min` m)%nat ∧
    (unmatched_count (MatchingResponse.statistics response) +
     2 * total_matches (MatchingResponse.statistics response) = n + m)%nat.
Proof.
  intros n m Ha Hb Hnd _ Halg Hfuel.
  destruct (entities_of_requests_valid repr _ Ha) as (entities_a & Hra & Hla & Hia).
  destruct (entities_of_requests_valid repr _ Hb) as (entities_b & Hrb & Hlb & Hib).
  assert (Hnd' : NoDup (id <$> (entities_a ++ entities_b))).
  { rewrite fmap_app, Hia, Hib, <- fmap_app. exact Hnd. }
  assert (Hfuel' : (length entities_a * length entities_b + length entities_a ≤ fuel)%nat).
  { rewrite Hla, Hlb. exact Hfuel. }
  set (criteria := criteria_of_request (MatchingRequest.criteria request)).
  assert (∃ res,
            GaleShapleyMatcher.match_ fuel entities_a entities_b criteria = Ok res ∧
            (length (matches res) ≤ length entities_a `min` length entities_b)%nat ∧
            (length (unmatched_entities res) + 2 * length (matches res)
             = length entities_a + length entities_b)%nat)
    as (res & Hrun & Hmin & Hcount).
  { destruct (decide (entities_a = [])) as [->|Hna].
    { eexists. split; [reflexivity|]. simpl. rewrite length_fmap. lia. }
    destruct (decide (entities_b = [])) as [->|Hnb].
    { eexists. split; [by destruct entities_a|]. simpl.
      rewrite length_fmap, length_app. simpl. lia. }
    destruct (stable_result_structure fuel entities_a entities_b criteria
                Hnd' Hna Hnb Hfuel')
      as (st & ms & kept & total & Hconv & Hinv & Hfree & Hbm & Hrun & Hsub
          & Hida & Hidb & Hall).
    eexists. split; [exact Hrun|]. cbn [matches unmatched_entities]. split.
    - rewrite <- (length_fmap entity_a_id ms), Hida, length_fmap.
      apply sublist_length in Hsub.
      rewrite (engagements_count _ _ _
                 (build_preference_lists_complete entities_a entities_b criteria Hnd')
                 st Hinv Hfree) in Hsub.
      by rewrite !length_fmap in Hsub.
    - rewrite length_fmap.
      assert (Hin : ∀ x, x ∈ GaleShapleyMatcher.matched_ids ms →
                x ∈ id <$> (entities_a ++ entities_b)).
      { intros x Hx. unfold GaleShapleyMatcher.matched_ids in Hx.
        rewrite Forall_forall in Hall. rewrite fmap_app.
        apply elem_of_app in Hx as [(m0 & -> & Hm)%list_elem_of_fmap
                                    | (m0 & -> & Hm)%list_elem_of_fmap];
          destruct (Hall m0 Hm) as (ea & eb & Hea & Heb & -> & _); simpl;
          apply elem_of_app; [left | right]; apply list_elem_of_fmap; eauto. }
      pose proof (unmatched_filter_count (entities_a ++ entities_b)
                    (GaleShapleyMatcher.matched_ids ms) Hnd'
                    (matched_ids_NoDup _ _ _ _ _ _ Hnd' Hinv Hsub Hida Hidb) Hin) as Hcount.
      assert (Hlen : length (GaleShapleyMatcher.matched_ids ms) = (2 * length ms)%nat).
      { unfold GaleShapleyMatcher.matched_ids. rewrite length_app, !length_fmap. lia. }
      rewrite length_app in Hcount. lia. }
  exists (matching_response res).
  unfold match_entities, match_entities_try. rewrite Hra, Hrb. simpl.
  unfold select_matcher. rewrite Halg. simpl. fold criteria. rewrite Hrun. simpl.
  rewrite length_fmap. subst n m. rewrite <- Hla, <- Hlb. split_and!; [done | done | lia | lia].
Qed.

Lemma X25_witness :
  ∃ response,
    match_entities exhaustive_assignment 6 (λ s, s) (λ _, "error")
      (sample_request three_candidates one_job "gale_shapley") = Return response ∧
    total_matches (MatchingResponse.statistics response) =
      length (MatchingResponse.matches response) ∧
    (total_matches (MatchingResponse.statistics response) ≤ 3 `min` 1)%nat ∧
    (unmatched_count (MatchingResponse.statistics response) +
     2 * total_matches (MatchingResponse.statistics response) = 3 + 1)%nat.
Proof.
  apply (X25_stable_request_is_answered exhaustive_assignment 6 (λ s, s)
           (λ _, "error") (sample_request three_candidates one_job "gale_shapley")).
  - repeat constructor; by exists CANDIDATE.
  - repeat constructor; by exists CANDIDATE.
  - apply (bool_decide_unpack _). reflexivity.
  - repeat constructor; vm_compute; discriminate.
  - reflexivity.
  - simpl. lia.
Defined.

(** ** The gate in binary64 *)

(** X26.  Read in binary64, the scorer of either matcher returns exactly
    [0.0] as soon as one required attribute name is missing from the
    attribute dictionary of one of the two entities, whatever the weights,
    the threshold and the other attributes are. *)
Theorem X26_binary64_gate_returns_zero
    (entity_a entity_b : Binary64.Entity) (criteria : Binary64.Criteria) (r : string) :
  r ∈ Binary64.required_attributes criteria →
  Dict.get r (Binary64.attributes entity_a) = None ∨
  Dict.get r (Binary64.attributes entity_b) = None →
  Binary64.HungarianMatcher._calculate_similarity entity_a entity_b criteria
    = PrimFloat.zero ∧
  Binary64.GaleShapleyMatcher._calculate_similarity entity_a entity_b criteria
    = PrimFloat.zero.
Proof.
  intros Hr Hmiss.
  assert (Binary64.missing_required entity_a entity_b criteria = true) as Hgate.
  { unfold Binary64.missing_required. apply existsb_exists.
    exists r. split; [by apply list_elem_of_In|].
    unfold Dict.mem. destruct Hmiss as [-> | ->]; [done|].
    apply orb_true_r. }
  unfold Binary64.HungarianMatcher._calculate_similarity,
    Binary64.GaleShapleyMatcher._calculate_similarity.
  by rewrite Hgate.
Qed.

Lemma X26_witness :
  Binary64.HungarianMatcher._calculate_similarity
    Binary64.candidate_1 {| Binary64.id := "job_1"; Binary64.attributes := [] |}
    Binary64.example_criteria = PrimFloat.zero ∧
  Binary64.GaleShapleyMatcher._calculate_similarity
    Binary64.candidate_1 {| Binary64.id := "job_1"; Binary64.attributes := [] |}
    Binary64.example_criteria = PrimFloat.zero.
Proof.
  apply (X26_binary64_gate_returns_zero Binary64.candidate_1
           {| Binary64.id := "job_1"; Binary64.attributes := [] |}
           Binary64.example_criteria "skills").
  - apply list_elem_of_further, list_elem_of_here.
  - right. reflexivity.
Defined.
